(** * nnsmith input generation: domain inference and sampling

    A shallow embedding of [nnsmith/input_gen.py] and the properties of
    its sampler, its NaN checker and its range search.

    Conventions of the embedding.
    - A Python float (binary64) is modelled by the rational it denotes
      ([Q]), and the arithmetic of the search on floats (the seeds of
      [linspace], midpoints, widths) is exact: the rounding of binary64
      operations is outside the model.  The properties of the search
      are therefore stated in the quantities of the program itself (its
      seeds, its midpoints, its guard) or with room for that rounding.
    - The conversions and tests the sampler makes are modelled:
      [.astype(float32)] rounds to the nearest binary32 number,
      the integer dtypes truncate, and numpy's test that the width of
      the range is finite in binary64 raises as numpy does.  Values an
      executor may return ([nan], [inf]) are modelled by the type
      [scalar].
    - Python code that reads and writes objects, draws random numbers or
      raises is modelled in a state-and-exception monad [M W A]: a
      computation takes the world [W] and returns a [result] together
      with the new world.  A raised exception keeps the effects that
      happened before it.
    - Dictionaries whose iteration order matters are association lists.
    - The [while] loop of [binary_search] is defined by well-founded
      recursion on the number of halvings its window still allows. *)

From Stdlib Require Import QArith Qround Qabs Lqa Lia ZArith List Ascii String Bool Sorted.
From Stdlib Require Import Permutation DecimalString DecimalNat.
From Equations Require Import Equations.
Import ListNotations.

Local Open Scope Q_scope.

(* ===================================================================== *)
(** ** Exceptions and the state-and-exception monad                       *)
(* ===================================================================== *)

(** The Python exceptions the modelled code can raise. *)
Inductive exn : Type :=
| AttributeError (attr : string)
| ValueError (msg : string)
| TypeError (msg : string)
| FileNotFoundError (path : string)
| NotImplementedError
| OverflowError (msg : string)
| ExecutionError (msg : string).

Inductive result (A : Type) : Type :=
| Ok (a : A)
| Raise (e : exn).
Arguments Ok {A} a.
Arguments Raise {A} e.

Definition M (W A : Type) : Type := W -> result A * W.

Definition ret {W A} (a : A) : M W A := fun w => (Ok a, w).

Definition raise {W A} (e : exn) : M W A := fun w => (Raise e, w).

Definition bind {W A B} (c : M W A) (k : A -> M W B) : M W B :=
  fun w =>
    match c w with
    | (Ok a, w') => k a w'
    | (Raise e, w') => (Raise e, w')
    end.

Notation "x <- c ;; k" := (bind c (fun x => k))
  (at level 61, c at next level, right associativity).
Notation "c ;;; k" := (bind c (fun _ => k))
  (at level 61, right associativity).

(** Lifting of a pure, possibly failing value. *)
Definition lift {W A} (r : result A) : M W A := fun w => (r, w).

(** [Range = Tuple[float, float]] *)
Definition Range : Type := (Q * Q)%type.

(* ===================================================================== *)
(** ** numpy arrays and the global random generator                       *)
(* ===================================================================== *)

(** An element of an array: a finite number, an infinity or NaN. *)
Inductive scalar : Type :=
| Fin (q : Q)
| PInf
| NInf
| NaN.

Inductive DType : Type := float32 | float64 | int32 | int64 | bool_.

Record ndarray : Type := {
  nd_shape : list Z;
  nd_dtype : DType;
  nd_data : list scalar
}.

(** Modelled from the spec: the tensor descriptor returned by
    [DiffTestBackend.analyze_onnx_io], whose declaration is not part of
    the sources; the code reads its attributes [shape] and [dtype]. *)
Record ShapeType : Type := {
  shape : list Z;
  dtype : DType
}.

(** A Python dictionary with string keys, in insertion order. *)
Definition dict (V : Type) : Type := list (string * V).

(** [d[k] = v] *)
Fixpoint dict_set {V} (d : dict V) (k : string) (v : V) : dict V :=
  match d with
  | [] => [(k, v)]
  | (k', v') :: rest =>
      if String.eqb k' k then (k', v) :: rest else (k', v') :: dict_set rest k v
  end.

Definition InputSpec : Type := dict ShapeType.

(** The interface of numpy's global [RandomState] that the code uses.
    [random_sample] draws from the half-open unit interval and
    [randint high] from [0 .. high - 1]; both advance the generator. *)
Class RandomState (G : Type) : Type := {
  reseed : Z -> G;
  random_sample : G -> Q * G;
  randint_below : Z -> G -> Z * G;
  random_sample_unit : forall g,
    0 <= fst (random_sample g) /\ fst (random_sample g) < 1;
  randint_below_range : forall high g,
    (0 < high)%Z ->
    (0 <= fst (randint_below high g) < high)%Z
}.

Definition is_nan (x : scalar) : bool :=
  match x with NaN => true | _ => false end.

Definition is_inf (x : scalar) : bool :=
  match x with PInf | NInf => true | _ => false end.

(** Rounding toward zero, as the conversion of a float to an integer does. *)
Definition Qtrunc (x : Q) : Z :=
  if Qle_bool 0 x then Qfloor x else Qceiling x.

(** Rounding of a rational to the nearest integer, ties to even. *)
Definition Qround_even (x : Q) : Z :=
  let f := Qfloor x in
  match Qcompare (x - inject_Z f) (1 # 2) with
  | Lt => f
  | Gt => (f + 1)%Z
  | Eq => if Z.even f then f else (f + 1)%Z
  end.

(** The binary32 magnitude nearest a non-negative rational, both counted
    in units of [2 ^ -149], the smallest positive binary32 number.  The
    significand has 24 bits: between [2 ^ (j + 23)] and [2 ^ (j + 24)]
    units the numbers are [2 ^ j] units apart, and below [2 ^ 24] units
    (the subnormal numbers and the first binade) one unit apart. *)
Definition float32_units (s : Q) : Z :=
  let j := Z.max 0 (Z.log2 (Qfloor s) - 23) in
  (Qround_even (s / inject_Z (2 ^ j)) * 2 ^ j)%Z.

(** The binary32 number nearest [x], in units, with its sign. *)
Definition float32_round (x : Q) : Z :=
  let v := float32_units (Qabs x * inject_Z (2 ^ 149)) in
  if Qle_bool 0 x then v else (- v)%Z.

(** [np.float32(x)] for a binary64 value [x]: the nearest binary32
    number, ties to even; magnitudes that round to [2 ^ 128] or beyond
    overflow to an infinity. *)
Definition float32_of (x : Q) : scalar :=
  let v := float32_round x in
  if (2 ^ 277 <=? v)%Z then PInf
  else if (v <=? - 2 ^ 277)%Z then NInf
  else Fin (inject_Z v / inject_Z (2 ^ 149)).

(** Whether [x] is a binary32 number. *)
Definition is_float32 (x : Q) : bool :=
  match float32_of x with
  | Fin y => Qeq_bool y x
  | _ => false
  end.

(** The conversion of a binary64 value to a signed integer of [bits]
    bits: truncation toward zero.  For a value outside the type C leaves
    the conversion undefined; the instruction it compiles to on x86-64
    yields the minimum of the type, which is what is modelled. *)
Definition int_of (bits : Z) (x : Q) : Z :=
  let t := Qtrunc x in
  if ((- 2 ^ (bits - 1) <=? t) && (t <? 2 ^ (bits - 1)))%Z then t
  else (- 2 ^ (bits - 1))%Z.

(** [.astype(dtype)] on one sampled (finite binary64) value: [float64]
    keeps the value, [float32] rounds it to binary32, the integer types
    truncate toward zero, and [bool] maps every non-zero value to
    [True]. *)
Definition astype (dt : DType) (x : Q) : scalar :=
  match dt with
  | float64 => Fin x
  | float32 => float32_of x
  | int32 => Fin (inject_Z (int_of 32 x))
  | int64 => Fin (inject_Z (int_of 64 x))
  | bool_ => Fin (if Qeq_bool x 0 then 0 else 1)
  end.

(** Whether [high - low] overflows in binary64, whose largest number is
    [2 ^ 1024 - 2 ^ 971]: a difference of magnitude [2 ^ 1024 - 2 ^ 970]
    or more is rounded to an infinity. *)
Definition range_overflows (low high : Q) : bool :=
  Qle_bool (inject_Z (2 ^ 1024 - 2 ^ 970)) (Qabs (high - low)).

Definition is_float (dt : DType) : bool :=
  match dt with float32 | float64 => true | _ => false end.

Section Sampler.

Context {G : Type} {RS : RandomState G}.

(** [np.random.seed(seed)] *)
Definition np_random_seed (seed : Z) : M G unit :=
  if ((0 <=? seed) && (seed <? 2 ^ 32))%Z
  then fun _ => (Ok tt, reseed seed)
  else raise (ValueError "Seed must be between 0 and 2**32 - 1").

(** [n] successive draws of [low + (high - low) * random_sample()] *)
Fixpoint uniform_draws (n : nat) (low high : Q) (g : G) : list Q * G :=
  match n with
  | O => ([], g)
  | S n' =>
      let '(u, g1) := random_sample g in
      let '(rest, g2) := uniform_draws n' low high g1 in
      ((low + (high - low) * u) :: rest, g2)
  end.

(** Number of elements of an array of the given shape. *)
Definition numel (size : list Z) : nat :=
  Z.to_nat (fold_right Z.mul 1%Z size).

(** [np.random.uniform(low=, high=, size=)], as the flat list of the
    values drawn.  numpy first tests that [high - low] is finite, then
    allocates the array, which fails on a negative dimension. *)
Definition np_random_uniform (low high : Q) (size : list Z) : M G (list Q) :=
  if range_overflows low high
  then raise (OverflowError "Range exceeds valid bounds")
  else if existsb (fun d => (d <? 0)%Z) size
  then raise (ValueError "negative dimensions are not allowed")
  else fun g => let '(xs, g') := uniform_draws (numel size) low high g in (Ok xs, g').

(** [np.random.randint(high)] *)
Definition np_random_randint (high : Z) : M G Z :=
  if (high <=? 0)%Z then raise (ValueError "high <= 0")
  else fun g => let '(i, g') := randint_below high g in (Ok i, g').

(** The loop [for name, shape in inp_spec.items(): inp[name] = ...] *)
Fixpoint gen_one_input_loop (items : list (string * ShapeType)) (l r : Q)
    (inp : dict ndarray) : M G (dict ndarray) :=
  match items with
  | [] => ret inp
  | (name, sh) :: rest =>
      xs <- np_random_uniform l r sh.(shape) ;;
      let arr := {| nd_shape := sh.(shape);
                    nd_dtype := sh.(dtype);
                    nd_data := map (astype sh.(dtype)) xs |} in
      gen_one_input_loop rest l r (dict_set inp name arr)
  end.

(** [gen_one_input(inp_spec, l, r, seed=None)] *)
Definition gen_one_input (inp_spec : InputSpec) (l r : Q) (seed : option Z)
  : M G (dict ndarray) :=
  match seed with
  | Some s => np_random_seed s
  | None => ret tt
  end ;;;
  gen_one_input_loop inp_spec l r [].

End Sampler.

(** The two forms of the [rngs] argument besides [None], and of the
    [inp_spec] argument. *)
Inductive rngs_arg : Type :=
| RngsNone
| RngsList (rngs : list Range)
| RngsPath (path : string).

Inductive spec_arg (Model : Type) : Type :=
| SpecPath (path : string)
| SpecDict (inp_spec : InputSpec).
Arguments SpecPath {Model} path.
Arguments SpecDict {Model} inp_spec.

Section SamplerFromSet.

Context {G : Type} {RS : RandomState G} {Model : Type}.

(** What the environment provides: the pickled files (a file holds what
    the entry point dumped, a list of ranges or [None]) and the model
    loader and analyser of [DiffTestBackend]. *)
Variable pickle_file : string -> option (option (list Range)).
Variable get_onnx_proto : string -> result Model.
Variable analyze_onnx_io : Model -> result InputSpec.

(** [pickle.load(open(path, 'rb'))] *)
Definition pickle_load (path : string) : M G (option (list Range)) :=
  match pickle_file path with
  | Some obj => ret obj
  | None => raise (FileNotFoundError path)
  end.

(** [len(rngs)] on the object bound to [rngs] after the first [if]. *)
Definition len_rngs (rngs : option (list Range)) : M G Z :=
  match rngs with
  | Some l => ret (Z.of_nat (List.length l))
  | None => raise (TypeError "object of type 'NoneType' has no len()")
  end.

(** [rngs[i]] for an index the generator returned. *)
Definition getitem_rngs (rngs : option (list Range)) (i : Z) : M G Range :=
  match rngs with
  | Some l =>
      match nth_error l (Z.to_nat i) with
      | Some rng => ret rng
      | None => raise (ValueError "list index out of range")
      end
  | None => raise (TypeError "'NoneType' object is not subscriptable")
  end.

(** [gen_one_input_rngs(inp_spec, rngs, seed=None)] *)
Definition gen_one_input_rngs (inp_spec : spec_arg Model) (rngs : rngs_arg)
    (seed : option Z) : M G (dict ndarray) :=
  rngs <- match rngs with
          | RngsNone => ret (Some [(0, 1)])
          | RngsPath path => pickle_load path
          | RngsList l => ret (Some l)
          end ;;
  inp_spec <- match inp_spec with
              | SpecPath path =>
                  model <- lift (get_onnx_proto path) ;;
                  lift (analyze_onnx_io model)
              | SpecDict d => ret d
              end ;;
  n <- len_rngs rngs ;;
  i <- np_random_randint n ;;
  rng <- getitem_rngs rngs i ;;
  gen_one_input inp_spec (fst rng) (snd rng) seed.

End SamplerFromSet.

(** [has_nan(output)] *)
Definition has_nan (output : dict ndarray) : bool :=
  existsb (fun ko => existsb is_nan (snd ko).(nd_data)) output.

(** [InputGenBase] *)
Module InputGenBase.
Definition MAX_TRIALS : nat := 2.
Definition DEFAULT_RNG : Range := (0, 1).
End InputGenBase.

(** [InputGenV1.infer_domain] *)
Module InputGenV1.
Definition infer_domain {Model W} (model : Model) : M W (option (list Range)) :=
  ret (Some [(0, 1)]).
End InputGenV1.

(* ===================================================================== *)
(** ** The NaN-checker interface and [ORTNaNChecker]                      *)
(* ===================================================================== *)

(** [class NaNChecker]: the two methods every checker provides, acting on
    a world [W] that holds the checker object, the executor and the
    random generator. *)
Class NaNChecker (Model W : Type) : Type := {
  load_model : Model -> M W unit;
  no_nan : Q -> Q -> M W bool
}.

(** The abstract base class: both methods raise [NotImplementedError]. *)
Definition NaNChecker_base (Model W : Type) : NaNChecker Model W := {|
  load_model := fun _ => raise NotImplementedError;
  no_nan := fun _ _ => raise NotImplementedError
|}.

(** The executor adapter [rf_exe]: [predict(model, inp)] on its own state. *)
Class Executor (Model E : Type) : Type := {
  predict : Model -> dict ndarray -> M E (dict ndarray)
}.

(** [TorchNaNChecker] inherits [load_model] and [no_nan] unchanged and
    only replaces the executor [rf_exe]; it is this module at another
    instance of [Executor]. *)
Module ORTNaNChecker.

(** The world of a checker object: numpy's global generator, the state
    of the executor, and the two attributes [load_model] assigns
    ([None] here means the attribute does not exist yet). *)
Record World (G E Model : Type) : Type := {
  np_random : G;
  rf_exe : E;
  model : option Model;
  inp_spec : option InputSpec
}.
Arguments np_random {G E Model}.
Arguments rf_exe {G E Model}.
Arguments model {G E Model}.
Arguments inp_spec {G E Model}.

Section Checker.

Context {G E Model : Type} {RS : RandomState G} {EX : Executor Model E}.

Variable analyze_onnx_io : Model -> result InputSpec.

(** The class attribute [THRES] (1 in the source) and the constructor
    argument [max_rng_trials] (3 by default). *)
Variable THRES : Q.
Variable max_rng_trials : nat.

Local Abbreviation World := (World G E Model).

(** The state of a freshly constructed checker: no model is bound. *)
Definition init (g : G) (e : E) : World :=
  {| np_random := g; rf_exe := e; model := None; inp_spec := None |}.

Definition with_np_random {A} (c : M G A) : M World A :=
  fun w =>
    let '(res, g') := c w.(np_random) in
    (res, {| np_random := g'; rf_exe := w.(rf_exe);
             model := w.(model); inp_spec := w.(inp_spec) |}).

Definition with_rf_exe {A} (c : M E A) : M World A :=
  fun w =>
    let '(res, e') := c w.(rf_exe) in
    (res, {| np_random := w.(np_random); rf_exe := e';
             model := w.(model); inp_spec := w.(inp_spec) |}).

(** Reading [self.inp_spec] and [self.model]. *)
Definition get_inp_spec : M World InputSpec :=
  fun w =>
    match w.(inp_spec) with
    | Some s => (Ok s, w)
    | None => (Raise (AttributeError "inp_spec"), w)
    end.

Definition get_model : M World Model :=
  fun w =>
    match w.(model) with
    | Some m => (Ok m, w)
    | None => (Raise (AttributeError "model"), w)
    end.

Definition set_model (m : Model) : M World unit :=
  fun w => (Ok tt, {| np_random := w.(np_random); rf_exe := w.(rf_exe);
                      model := Some m; inp_spec := w.(inp_spec) |}).

Definition set_inp_spec (s : InputSpec) : M World unit :=
  fun w => (Ok tt, {| np_random := w.(np_random); rf_exe := w.(rf_exe);
                      model := w.(model); inp_spec := Some s |}).

(** [ORTNaNChecker.load_model] *)
Definition load_model (m : Model) : M World unit :=
  set_model m ;;;
  s <- lift (analyze_onnx_io m) ;;
  set_inp_spec s.

(** The value of [(succ + remain) / self.max_rng_trials]. *)
Definition best_ratio (succ remain : nat) : Q :=
  inject_Z (Z.of_nat (succ + remain)) / inject_Z (Z.of_nat max_rng_trials).

(** The loop [for ntrials in range(self.max_rng_trials)] of [no_nan],
    over the indices still to run. *)
Fixpoint no_nan_loop (l r : Q) (trials : list nat) (succ : nat) : M World bool :=
  match trials with
  | [] => ret true
  | ntrials :: rest =>
      spec <- get_inp_spec ;;
      inp <- with_np_random (gen_one_input spec l r None) ;;
      m <- get_model ;;
      out <- with_rf_exe (predict m inp) ;;
      let succ := (succ + (if has_nan out then 0 else 1))%nat in
      let remain := (max_rng_trials - ntrials - 1)%nat in
      if Qlt_le_dec (best_ratio succ remain) THRES
      then ret false
      else no_nan_loop l r rest succ
  end.

(** [ORTNaNChecker.no_nan] *)
Definition no_nan (l r : Q) : M World bool :=
  no_nan_loop l r (seq 0 max_rng_trials) 0.

(** One trial, as the body of the loop runs it: a fresh input sampled in
    [[l, r]] for every tensor of the input spec, one execution, and
    whether its outputs are free of NaN. *)
Definition trial (l r : Q) : M World bool :=
  spec <- get_inp_spec ;;
  inp <- with_np_random (gen_one_input spec l r None) ;;
  m <- get_model ;;
  out <- with_rf_exe (predict m inp) ;;
  ret (negb (has_nan out)).

(** The decision procedure in the words of the specification: after
    each trial compare the best ratio still possible with [THRES] and
    return false as soon as it is below; when all trials are done,
    return whether the final success ratio reaches [THRES]. *)
Fixpoint decide_loop (l r : Q) (remaining succ : nat) : M World bool :=
  match remaining with
  | O =>
      ret (Qle_bool THRES
             (inject_Z (Z.of_nat succ) / inject_Z (Z.of_nat max_rng_trials)))
  | S remaining' =>
      ok <- trial l r ;;
      let succ := (succ + (if ok then 1 else 0))%nat in
      if Qlt_le_dec (best_ratio succ remaining') THRES
      then ret false
      else decide_loop l r remaining' succ
  end.

Definition decide (l r : Q) : M World bool :=
  decide_loop l r max_rng_trials 0.

(** With [THRES = 1] in the words of the specification: stop at the
    first trial that produces NaN, accept when every trial is free of it. *)
Fixpoint all_trials (l r : Q) (n : nat) : M World bool :=
  match n with
  | O => ret true
  | S n' =>
      ok <- trial l r ;;
      if ok then all_trials l r n' else ret false
  end.

(** The checker as an instance of the interface. *)
Definition checker : NaNChecker Model World :=
  Build_NaNChecker Model World load_model no_nan.

End Checker.

End ORTNaNChecker.

(* ===================================================================== *)
(** ** [InputGenV3]: the range search                                     *)
(* ===================================================================== *)

Module InputGenV3.

Definition L : Q := -10.
Definition R : Q := 10.
Definition EPS : Q := 1 # 1000.

(** [np.linspace(start, stop, num)]: [num] evenly spaced points, the
    i-th being [start + i * step] with [step = (stop - start) / (num - 1)]. *)
Definition linspace (start stop : Q) (num : nat) : list Q :=
  map (fun i => start + inject_Z (Z.of_nat i) * ((stop - start) / inject_Z (Z.of_nat num - 1)))
      (seq 0 num).

(** [a = np.linspace(-1, 1, 10)] *)
Definition a : list Q := linspace (-1) 1 10.

(** Number of halvings after which a window of width [r - l] is no wider
    than [EPS]: [ceil (log2 ((r - l) / EPS))]. *)
Definition halvings (l r : Q) : nat :=
  Z.to_nat (Z.log2_up (Qceiling ((r - l) / EPS))).

Lemma halvings_spec l r :
  r - l <= EPS * inject_Z (2 ^ Z.of_nat (halvings l r)).
Proof.
  unfold halvings.
  set (c := Qceiling ((r - l) / EPS)).
  assert (Hc : (r - l) / EPS <= inject_Z c) by apply Qle_ceiling.
  assert (Hpos : 0 < EPS) by reflexivity.
  assert (Hle : (c <= 2 ^ Z.of_nat (Z.to_nat (Z.log2_up c)))%Z).
  { rewrite Z2Nat.id by apply Z.log2_up_nonneg.
    destruct (Z_lt_le_dec 1 c) as [H1 | H1].
    - apply Z.log2_up_spec; assumption.
    - rewrite Z.log2_up_eqn0 by assumption. simpl. lia. }
  assert (Hq : inject_Z c <= inject_Z (2 ^ Z.of_nat (Z.to_nat (Z.log2_up c)))).
  { rewrite <- Zle_Qle. exact Hle. }
  assert (Hd : r - l == ((r - l) / EPS) * EPS) by (field; discriminate).
  rewrite Hd at 1.
  rewrite (Qmult_comm EPS).
  apply Qmult_le_compat_r; [| apply Qlt_le_weak; exact Hpos].
  eapply Qle_trans; eassumption.
Qed.

Lemma halvings_step l r l' r' :
  EPS < r - l -> r' - l' == (r - l) / 2 ->
  (halvings l' r' < halvings l r)%nat.
Proof.
  intros Hw Hhalf. unfold halvings.
  set (c := Qceiling ((r - l) / EPS)).
  assert (Hpos : 0 < EPS) by reflexivity.
  assert (Hx : 1 < (r - l) / EPS).
  { apply Qlt_shift_div_l; [exact Hpos | lra]. }
  assert (Hc1 : (1 < c)%Z).
  { assert (H : 1 < inject_Z c).
    { eapply Qlt_le_trans; [exact Hx | apply Qle_ceiling]. }
    rewrite Zlt_Qlt. exact H. }
  pose proof (Z.log2_up_spec c Hc1) as [_ Hup].
  assert (Hk : (0 < Z.log2_up c)%Z) by (apply Z.log2_up_pos; exact Hc1).
  set (k := Z.log2_up c) in *.
  assert (Hc' : (Qceiling ((r' - l') / EPS) <= 2 ^ (k - 1))%Z).
  { assert (Hle : (r' - l') / EPS <= inject_Z (2 ^ (k - 1))).
    { assert (E : (r' - l') / EPS == ((r - l) / EPS) / 2).
      { rewrite Hhalf. field. discriminate. }
      rewrite E.
      assert (Hck : (r - l) / EPS <= inject_Z (2 ^ k)).
      { eapply Qle_trans; [apply Qle_ceiling |]. rewrite <- Zle_Qle. exact Hup. }
      assert (Hpow : inject_Z (2 ^ k) == 2 * inject_Z (2 ^ (k - 1))).
      { replace k with (Z.succ (k - 1)) at 1 by lia.
        rewrite Z.pow_succ_r by lia. rewrite inject_Z_mult. reflexivity. }
      rewrite Hpow in Hck.
      set (x := (r - l) / EPS) in *. set (y := inject_Z (2 ^ (k - 1))) in *.
      apply Qle_shift_div_r; [reflexivity | lra]. }
    apply Qceiling_resp_le in Hle. rewrite Qceiling_Z in Hle. exact Hle. }
  assert (Hlog : (Z.log2_up (Qceiling ((r' - l') / EPS)) <= k - 1)%Z).
  { destruct (Z_lt_le_dec 0 (Qceiling ((r' - l') / EPS))) as [Hp | Hn].
    - apply Z.log2_up_le_pow2; [exact Hp | exact Hc'].
    - rewrite Z.log2_up_nonpos by exact Hn. lia. }
  apply Z2Nat.inj_lt; [apply Z.log2_up_nonneg | lia | lia].
Qed.

Section BinarySearch.

Context {W : Type}.

(** The [while r - l > self.EPS] loop of [binary_search]. *)
Equations? binary_search_loop (checker : Q -> M W bool) (return_on_first : bool)
    (l r : Q) (w : W) : result Q * W by wf (halvings l r) lt :=
  binary_search_loop checker return_on_first l r w with Qlt_le_dec EPS (r - l) => {
    | right _ => (Ok r, w);
    | left Hgt with checker ((l + r) / 2) w => {
        | (Raise e, w') => (Raise e, w');
        | (Ok true, w') =>
            if return_on_first then (Ok ((l + r) / 2), w')
            else binary_search_loop checker return_on_first l ((l + r) / 2) w';
        | (Ok false, w') =>
            binary_search_loop checker return_on_first ((l + r) / 2) r w' } }.
Proof.
  - apply halvings_step; [exact Hgt | field].
  - apply halvings_step; [exact Hgt | field].
Qed.

(** [binary_search(l, r, checker, return_on_first=True)] *)
Definition binary_search (l r : Q) (checker : Q -> M W bool)
    (return_on_first : bool) : M W Q :=
  if Qeq_bool l r then ret l
  else
    b <- checker l ;;
    if b then ret l
    else binary_search_loop checker return_on_first l r.

End BinarySearch.

(** [valid_rngs[-1]], when the list is not empty. *)
Fixpoint last_rng (valid_rngs : list Range) : option Range :=
  match valid_rngs with
  | [] => None
  | [rng] => Some rng
  | _ :: rest => last_rng rest
  end.

(** [valid_rngs[-1] = rng] *)
Definition set_last (valid_rngs : list Range) (rng : Range) : list Range :=
  removelast valid_rngs ++ [rng].

(** The inner loop of [_get_range]:
    [for rng in valid_rngs: if rng[0] <= valid_point <= rng[1]: included = True] *)
Definition included (valid_rngs : list Range) (valid_point : Q) : bool :=
  fold_left
    (fun inc rng =>
       if Qle_bool (fst rng) valid_point && Qle_bool valid_point (snd rng)
       then true else inc)
    valid_rngs false.

Section RangeSearch.

Context {Model W : Type} {nan_checker : NaNChecker Model W}.

(** One iteration of [for valid_point in a] in [_get_range]. *)
Definition get_range_step (valid_rngs : list Range) (valid_point : Q)
  : M W (list Range) :=
  if included valid_rngs valid_point then ret valid_rngs
  else
    ok <- no_nan valid_point valid_point ;;
    if negb ok then ret valid_rngs
    else
      (* try expand previous range *)
      extended <- match last_rng valid_rngs with
                  | Some lst => no_nan (fst lst) valid_point
                  | None => ret false
                  end ;;
      if extended
      then ret (match last_rng valid_rngs with
                | Some lst => set_last valid_rngs (fst lst, valid_point)
                | None => valid_rngs
                end)
      else
        let last_r := match last_rng valid_rngs with
                      | None => L
                      | Some lst => snd lst
                      end in
        l <- binary_search last_r valid_point
               (fun l => no_nan l valid_point) true ;;
        r' <- binary_search (- R) (- valid_point)
                (fun r => no_nan l (- r)) true ;;
        let r := - r' in
        ret (valid_rngs ++ [(l, r)]).

(** The loop [for valid_point in points], started from [valid_rngs]. *)
Fixpoint get_range_loop (points : list Q) (valid_rngs : list Range)
  : M W (list Range) :=
  match points with
  | [] => ret valid_rngs
  | valid_point :: rest =>
      valid_rngs' <- get_range_step valid_rngs valid_point ;;
      get_range_loop rest valid_rngs'
  end.

(** [InputGenV3._get_range]; [None] is Python's [None].  The message
    printed when no range was found is not modelled. *)
Definition _get_range : M W (option (list Range)) :=
  valid_rngs <- get_range_loop a [] ;;
  match valid_rngs with
  | [] => ret None
  | _ => ret (Some valid_rngs)
  end.

(** [InputGenV3.infer_domain] *)
Definition infer_domain (model : Model) : M W (option (list Range)) :=
  load_model model ;;;
  b <- no_nan 0 1 ;;
  if b then ret (Some [(0, 1)])
  else _get_range.

End RangeSearch.

End InputGenV3.

(** *** Checkers used to exercise the search *)

(** A checker whose answer is a pure function of the queried range; its
    world counts the queries. *)
Definition pure_checker (f : Q -> Q -> bool) : NaNChecker unit nat := {|
  load_model := fun _ => ret tt;
  no_nan := fun l r n => (Ok (f l r), S n)
|}.

(** A checker instrumented with the log of its decision queries. *)
Definition logging {Model W} (C : NaNChecker Model W)
  : NaNChecker Model (W * list Range) := {|
  load_model := fun m '(w, log) =>
    let '(res, w') := @load_model _ _ C m w in (res, (w', log));
  no_nan := fun l r '(w, log) =>
    let '(res, w') := @no_nan _ _ C l r w in (res, (w', log ++ [(l, r)]))
|}.

(** A checker instrumented to count the calls of a [binary_search]
    checker argument. *)
Definition counted {W} (checker : Q -> M W bool) : Q -> M (W * nat) bool :=
  fun x '(w, n) => let '(res, w') := checker x w in (res, (w', S n)).

(** A [binary_search] checker instrumented with the log of the points
    it is asked about. *)
Definition probing {W} (checker : Q -> M W bool) : Q -> M (W * list Q) bool :=
  fun x '(w, log) => let '(res, w') := checker x w in (res, (w', log ++ [x])).

(** An executor instrumented to count its executions. *)
Definition counting {Model E} (EX : Executor Model E) : Executor Model (E * nat) := {|
  predict := fun m inp '(e, n) =>
    let '(res, e') := @predict _ _ EX m inp e in (res, (e', S n))
|}.

(** A [binary_search] checker that is false left of [t] and true from
    [t] on; it has no state. *)
Definition threshold (t : Q) : Q -> M unit bool :=
  fun x => ret (Qle_bool t x).

(** Safe exactly on the ranges inside [[-a, a]]. *)
Definition interval_safe (a : Q) (l r : Q) : bool :=
  Qle_bool (- a) l && Qle_bool r a.

(** Safe exactly on the ranges no wider than [w]. *)
Definition width_safe (w : Q) (l r : Q) : bool :=
  Qle_bool (r - l) w.

(** *** A concrete generator and a concrete executor *)

(** A linear congruential generator standing in for numpy's generator. *)
Definition lcg_next (g : Z) : Z := ((g * 1103515245 + 12345) mod 2 ^ 31)%Z.

Definition lcg_random_sample (g : Z) : Q * Z :=
  ((g mod 65536)%Z # 65536, lcg_next g).

Definition lcg_randint_below (high : Z) (g : Z) : Z * Z :=
  ((g mod high)%Z, lcg_next g).

Lemma lcg_random_sample_unit g :
  0 <= fst (lcg_random_sample g) /\ fst (lcg_random_sample g) < 1.
Proof.
  pose proof (Z.mod_pos_bound g 65536 eq_refl) as [H1 H2].
  unfold lcg_random_sample, Qle, Qlt; simpl. lia.
Qed.

Lemma lcg_randint_below_range high g :
  (0 < high)%Z -> (0 <= fst (lcg_randint_below high g) < high)%Z.
Proof. intros H. simpl. apply Z.mod_pos_bound. exact H. Qed.

#[export] Instance lcg : RandomState Z :=
  Build_RandomState Z (fun s => s) lcg_random_sample lcg_randint_below
    lcg_random_sample_unit lcg_randint_below_range.

(** An executor whose models are functions applied to every element of
    every input array; it keeps no state. *)
#[export] Instance elementwise : Executor (Q -> scalar) unit := {|
  predict := fun f inp =>
    ret (map (fun kv : string * ndarray =>
                (fst kv,
                 {| nd_shape := (snd kv).(nd_shape);
                    nd_dtype := (snd kv).(nd_dtype);
                    nd_data := map (fun x => match x with
                                             | Fin q => f q
                                             | other => other
                                             end) (snd kv).(nd_data) |}))
             inp)
|}.

(** A model that is undefined (NaN) on negative inputs, like a square
    root, and the identity elsewhere. *)
Definition root_like (q : Q) : scalar :=
  if Qle_bool 0 q then Fin q else NaN.

(** A model that overflows to infinity on every input. *)
Definition overflowing (q : Q) : scalar := PInf.

(** A model that is undefined on every input. *)
Definition undefined_everywhere (q : Q) : scalar := NaN.

(** *** Input specs and a checker object used in the examples *)

(** One float tensor of shape (1, 3). *)
Definition float_spec : InputSpec :=
  [("i0"%string, {| shape := [1; 3]%Z; dtype := float32 |})].

(** One integer tensor with a single element. *)
Definition int_spec : InputSpec :=
  [("x"%string, {| shape := [1]%Z; dtype := int64 |})].

(** A checker object on the concrete generator and executor, freshly
    constructed: no model is bound. *)
Definition fresh_checker : ORTNaNChecker.World Z unit (Q -> scalar) :=
  ORTNaNChecker.init 7%Z tt.

(** The checker class on the concrete generator and executor, with the
    defaults of the source ([THRES = 1], three trials), and a checker
    object to which the model undefined everywhere is bound. *)
Definition ort_checker : NaNChecker (Q -> scalar) (ORTNaNChecker.World Z unit (Q -> scalar)) :=
  ORTNaNChecker.checker (EX := elementwise) (fun _ => Ok float_spec) 1 3.

Definition undefined_checker : ORTNaNChecker.World Z unit (Q -> scalar) :=
  {| ORTNaNChecker.np_random := 7%Z;
     ORTNaNChecker.rf_exe := tt;
     ORTNaNChecker.model := Some undefined_everywhere;
     ORTNaNChecker.inp_spec := Some float_spec |}.

(** The array sampled for [float_spec] on the range reduced to the
    point 1/10. *)
Definition tenth_array : ndarray :=
  match fst (gen_one_input float_spec (1 # 10) (1 # 10) None 0%Z) with
  | Ok ((_, arr) :: _) => arr
  | _ => {| nd_shape := []; nd_dtype := float32; nd_data := [] |}
  end.

(** An output holding an infinity and no NaN. *)
Definition inf_output : dict ndarray :=
  [("o"%string, {| nd_shape := [1]%Z; nd_dtype := float32; nd_data := [PInf] |})].

(** The files of the examples: one holds two ranges, one holds [None]. *)
Definition example_files (path : string) : option (option (list Range)) :=
  if String.eqb path "domain.pkl" then Some (Some [(-1, 1); (2, 3)])
  else if String.eqb path "none.pkl" then Some None
  else None.

(** A model loader and analyser that succeed on every path. *)
Definition example_proto (path : string) : result unit := Ok tt.

Definition example_analyze (m : unit) : result InputSpec := Ok float_spec.

(** *** Runs of the search evaluated once *)

(** The ranges found for a checker that accepts exactly the ranges no
    wider than 3/4. *)
Definition width_ranges : list Range :=
  Eval vm_compute in
    match fst (@InputGenV3._get_range _ _ (pure_checker (width_safe (3 # 4))) 0%nat) with
    | Ok (Some vr) => vr
    | _ => []
    end.

(** The checker object [undefined_checker] after the range search. *)
Definition undefined_checker_after : ORTNaNChecker.World Z unit (Q -> scalar) :=
  Eval vm_compute in snd (@InputGenV3._get_range _ _ ort_checker undefined_checker).

(** The outcome of [infer_domain] for a checker that accepts exactly the
    ranges inside [[-1/2, 1/2]]. *)
Definition half_interval_outcome : result (option (list Range)) * nat :=
  Eval vm_compute in
    @InputGenV3.infer_domain _ _ (pure_checker (interval_safe (1 # 2))) tt 0%nat.

(* ===================================================================== *)
(** ** Vocabulary of the properties                                       *)
(* ===================================================================== *)

(** [mid = (l + r) / 2] and the guard [r - l > self.EPS] of the loop of
    [binary_search]. *)
Definition midpoint (l r : Q) : Q := (l + r) / 2.

Definition window_open (l r : Q) : Prop := InputGenV3.EPS < r - l.

(** The points [ms] that [binary_search] probes after a rejected point
    [y] as long as each is rejected in turn: the midpoint of the last
    rejected point and [r], while the window between them is open; [z]
    is the last point rejected. *)
Inductive rejected_probes (r : Q) : Q -> list Q -> Q -> Prop :=
| probes_done y : rejected_probes r y [] y
| probes_step y ms z :
    window_open y r ->
    rejected_probes r (midpoint y r) ms z ->
    rejected_probes r y (midpoint y r :: ms) z.

(** A point of the (inclusive) range. *)
Definition in_range (q : Q) (rng : Range) : Prop :=
  fst rng <= q /\ q <= snd rng.

(** Two ranges with no common point. *)
Definition disjoint (x y : Range) : Prop :=
  forall q, ~ (in_range q x /\ in_range q y).

Definition pairwise_disjoint (vr : list Range) : Prop :=
  ForallOrdPairs disjoint vr.

Definition sorted_by_low (vr : list Range) : Prop :=
  StronglySorted (fun x y : Range => fst x <= fst y) vr.

(** Every range ends no later than each later range begins. *)
Definition chained (vr : list Range) : Prop :=
  StronglySorted (fun x y : Range => snd x <= fst y) vr.

(** Two ranges that share at most one point: the upper end of the first,
    when it is the lower end of the second. *)
Definition touch_at_most (x y : Range) : Prop :=
  forall q, in_range q x -> in_range q y -> q == snd x /\ q == fst y.

(** What the search maintains about a range, [b] being the last seed
    point processed: it lies inside the global bounds, is not empty,
    begins at or before [b] and contains a seed point. *)
Definition rng_ok (b : Q) (rng : Range) : Prop :=
  InputGenV3.L <= fst rng /\ fst rng <= snd rng /\ snd rng <= InputGenV3.R /\
  fst rng <= b /\
  exists p, In p InputGenV3.a /\ fst rng <= p /\ p <= snd rng.

Definition search_inv (b : Q) (vr : list Range) : Prop :=
  chained vr /\ Forall (rng_ok b) vr.

(** What the sampler guarantees about the array stored under a name
    declared with [sh]. *)
Definition array_of (l r : Q) (sh : ShapeType) (arr : ndarray) : Prop :=
  arr.(nd_shape) = sh.(shape) /\
  arr.(nd_dtype) = sh.(dtype) /\
  List.length arr.(nd_data) = numel sh.(shape) /\
  Forall (fun x => exists q, l <= q /\ q <= r /\ x = astype sh.(dtype) q) arr.(nd_data) /\
  (is_float sh.(dtype) = true ->
   Forall (fun x => exists q, x = Fin q /\ l <= q /\ q <= r) arr.(nd_data)).

(** The same without the clause on floating dtypes: shape, dtype, number
    of elements, and every element the conversion to the dtype of a
    value within [[l, r]]. *)
Definition array_from (l r : Q) (sh : ShapeType) (arr : ndarray) : Prop :=
  arr.(nd_shape) = sh.(shape) /\
  arr.(nd_dtype) = sh.(dtype) /\
  List.length arr.(nd_data) = numel sh.(shape) /\
  Forall (fun x => exists q, l <= q /\ q <= r /\ x = astype sh.(dtype) q) arr.(nd_data).

(** The bounds are numbers of the dtype where the conversion rounds:
    binary32 numbers for [float32]. *)
Definition exact_bounds (dt : DType) (l r : Q) : Prop :=
  match dt with
  | float32 => is_float32 l = true /\ is_float32 r = true
  | _ => True
  end.

Definition valid_seed (seed : option Z) : Prop :=
  match seed with
  | Some s => (0 <= s < 2 ^ 32)%Z
  | None => True
  end.

Definition valid_shapes (inp_spec : InputSpec) : Prop :=
  Forall (fun ks : string * ShapeType => Forall (fun d => (0 <= d)%Z) (snd ks).(shape))
         inp_spec.

(** One trial in the words of the specification, on a checker object to
    which the model [m] with input spec [spec] is bound: a fresh input is
    sampled in [[l, r]] for every tensor of the spec from the generator
    as the object holds it, the model is executed on that input from the
    executor as the object holds it, and the trial succeeds when the
    outputs hold no NaN.  The object is left with the generator and the
    executor as sampling and execution left them. *)
Definition fresh_trial {G E Model : Type} {RS : RandomState G} {EX : Executor Model E}
    (m : Model) (spec : InputSpec) (l r : Q)
  : M (ORTNaNChecker.World G E Model) bool :=
  fun w =>
    let bound g e :=
      {| ORTNaNChecker.np_random := g; ORTNaNChecker.rf_exe := e;
         ORTNaNChecker.model := Some m; ORTNaNChecker.inp_spec := Some spec |} in
    match gen_one_input spec l r None (ORTNaNChecker.np_random w) with
    | (Raise x, g) => (Raise x, bound g (ORTNaNChecker.rf_exe w))
    | (Ok inp, g) =>
        match @predict _ _ EX m inp (ORTNaNChecker.rf_exe w) with
        | (Raise x, e) => (Raise x, bound g e)
        | (Ok out, e) => (Ok (negb (has_nan out)), bound g e)
        end
    end.

(** Executions made so far, in a world whose executor counts them. *)
Definition executions {G E Model : Type}
    (w : ORTNaNChecker.World G (E * nat) Model) : nat :=
  snd (ORTNaNChecker.rf_exe w).

(** The point queries of the seeds [points], made one after the other
    from the world [w], all answer false, and leave the world [w']. *)
Fixpoint all_rejected {Model W : Type} {C : NaNChecker Model W}
    (points : list Q) (w w' : W) : Prop :=
  match points with
  | [] => w' = w
  | p :: rest =>
      exists w1, @no_nan _ _ C p p w = (Ok false, w1) /\ all_rejected rest w1 w'
  end.

(** A point of [[-a0, a0]]. *)
Definition safe_point (a0 : Q) (p : Q) : Prop := - a0 <= p /\ p <= a0.

(** State of the loop of [_get_range] after the seeds [done], the last
    of which is [b], for a checker that accepts exactly the ranges
    inside [[-a0, a0]]. *)
Definition interval_inv (a0 : Q) (b : Q) (done : list Q) (vr : list Range) : Prop :=
  (vr = [] /\ forall p, In p done -> ~ safe_point a0 p) \/
  (exists lo hi, vr = [(lo, hi)] /\
     - a0 <= lo /\ lo <= b /\ lo <= hi /\ hi <= a0 /\
     (exists q, In q done /\ safe_point a0 q) /\
     forall p, In p done -> safe_point a0 p -> lo <= p /\ p <= hi).

(** The sampled mapping [inp] holds one array per tensor of the spec, in
    the order of the spec, each as [array_from] describes. *)
Definition arrays_of (l r : Q) (inp_spec : InputSpec) (inp : dict ndarray) : Prop :=
  Forall2 (fun (ns : string * ShapeType) (na : string * ndarray) =>
             fst ns = fst na /\ array_from l r (snd ns) (snd na))
          inp_spec inp.

(** Some tensor of the spec has a negative dimension. *)
Definition has_negative_dim (inp_spec : InputSpec) : Prop :=
  exists name sh d, In (name, sh) inp_spec /\ In d sh.(shape) /\ (d < 0)%Z.

(** [n] trials run one after the other, whatever they find. *)
Fixpoint every_trial {G E Model : Type} {RS : RandomState G} {EX : Executor Model E}
    (l r : Q) (n : nat) : M (ORTNaNChecker.World G E Model) bool :=
  match n with
  | O => ret true
  | S n' => ORTNaNChecker.trial l r ;;; every_trial l r n'
  end.

(** An executor that returns outputs for every model and input. *)
Definition never_fails {Model E : Type} (EX : Executor Model E) : Prop :=
  forall m inp e, exists out e', @predict _ _ EX m inp e = (Ok out, e').
(** A computation that leaves the two attributes bound by
    [load_model] as they are, whatever its outcome. *)
Definition keeps_binding {G E Model A : Type}
    (c : M (ORTNaNChecker.World G E Model) A) : Prop :=
  forall w,
    ORTNaNChecker.model (snd (c w)) = ORTNaNChecker.model w /\
    ORTNaNChecker.inp_spec (snd (c w)) = ORTNaNChecker.inp_spec w.

(** A model analyser that fails on one of two models. *)
Definition analyze_one (m : bool) : result InputSpec :=
  if m then Ok float_spec else Raise (ExecutionError "malformed model").

(** The number of decision queries made so far, in the world of a
    checker that logs them. *)
Definition queries {W : Type} (wl : W * list Range) : nat :=
  List.length (snd wl).
Arguments queries {W} wl : simpl never.

(** Every range of the list is one the (stateless) checker [f] accepts. *)
Definition accepted (f : Q -> Q -> bool) (vr : list Range) : Prop :=
  Forall (fun rng : Range => f (fst rng) (snd rng) = true) vr.

(** The point lies in one of the ranges. *)
Definition covered (q : Q) (vr : list Range) : Prop :=
  exists rng, In rng vr /\ in_range q rng.

(** A checker none of whose methods raises. *)
Definition never_raises {Model W : Type} (C : NaNChecker Model W) : Prop :=
  (forall m w, exists w', @load_model _ _ C m w = (Ok tt, w')) /\
  (forall l r w, exists b w', @no_nan _ _ C l r w = (Ok b, w')).

(* ===================================================================== *)
(** ** [TorchNaNChecker.TorchExecutor]                                    *)
(* ===================================================================== *)

Module TorchExecutor.

(** [s[1:]] *)
Definition drop_first (s : string) : string :=
  match s with
  | EmptyString => EmptyString
  | String _ rest => rest
  end.

(** [str(i)] for the index of an output: its decimal numeral. *)
Definition py_str (i : nat) : string :=
  NilEmpty.string_of_uint (Nat.to_uint i).

(** Insertion of an element before the first element with a key at
    least as large. *)
Fixpoint insert_by_key {A} (x : Z * A) (l : list (Z * A)) : list (Z * A) :=
  match l with
  | [] => [x]
  | y :: rest =>
      if (fst x <=? fst y)%Z then x :: y :: rest else y :: insert_by_key x rest
  end.

(** [sorted(..., key=...)] on elements paired with their keys: a stable
    sort, here by insertion from the right. *)
Fixpoint sorted_by_key {A} (l : list (Z * A)) : list (Z * A) :=
  match l with
  | [] => []
  | x :: rest => insert_by_key x (sorted_by_key rest)
  end.

(** [{str(i): t for i, t in enumerate(outs)}], from index [i] on. *)
Fixpoint enumerate_dict (i : nat) (outs : list ndarray) (d : dict ndarray)
  : dict ndarray :=
  match outs with
  | [] => d
  | t :: rest => enumerate_dict (S i) rest (dict_set d (py_str i) t)
  end.

Section Predict.

Context {E : Type}.

(** Python's [int] on a string: the integer it denotes, or the
    [ValueError] it raises. *)
Variable py_int : string -> result Z.

(** The wrapped module [torch_model], called on positional tensors. *)
Variable torch_model : list ndarray -> M E (list ndarray).

(** The key [lambda s: int(s[1:])] of every item, computed once per item
    in the order of the dict. *)
Fixpoint keyed (items : dict ndarray) : result (list (Z * (string * ndarray))) :=
  match items with
  | [] => Ok []
  | kv :: rest =>
      match py_int (drop_first (fst kv)) with
      | Raise e => Raise e
      | Ok k =>
          match keyed rest with
          | Raise e => Raise e
          | Ok ks => Ok ((k, kv) :: ks)
          end
      end
  end.

(** [TorchExecutor.predict(not_used, inp)].  [inp[k]] for a key [k] of
    [inp] is the array stored with [k], so sorting the keys and looking
    them up is sorting the items; [torch.from_numpy] and
    [.cpu().numpy()] leave an array as it is. *)
Definition predict {Model : Type} (not_used : Model) (inp : dict ndarray)
  : M E (dict ndarray) :=
  ks <- lift (keyed inp) ;;
  let torch_inp := map (fun kkv => snd (snd kkv)) (sorted_by_key ks) in
  outs <- torch_model torch_inp ;;
  ret (enumerate_dict 0 outs []).

(** The executor of a [TorchNaNChecker]. *)
Definition executor (Model : Type) : Executor Model E :=
  Build_Executor Model E (@predict Model).

End Predict.

End TorchExecutor.

(** A reading of integers for the examples, whose keys are plain decimal
    digits: it accepts those only, where Python's [int] also accepts a
    sign, surrounding blanks and underscores between digits. *)
Definition digits_only (s : string) : result Z :=
  match NilEmpty.uint_of_string s with
  | Some d => match s with
              | EmptyString => Raise (ValueError "invalid literal for int()")
              | _ => Ok (Z.of_nat (Nat.of_uint d))
              end
  | None => Raise (ValueError "invalid literal for int()")
  end.

(** A module that returns its arguments. *)
Definition echo_model : list ndarray -> M unit (list ndarray) := fun ts => ret ts.

Definition scalar_array (q : Q) : ndarray :=
  {| nd_shape := []; nd_dtype := float32; nd_data := [Fin q] |}.

(** Three inputs inserted out of order; ["i10"] sorts after ["i2"]. *)
Definition torch_inputs : dict ndarray :=
  [("i10"%string, scalar_array 10); ("i2"%string, scalar_array 2);
   ("i0"%string, scalar_array 0)].

Definition torch_inputs_in_order : dict ndarray :=
  [("i0"%string, scalar_array 0); ("i2"%string, scalar_array 2);
   ("i10"%string, scalar_array 10)].

(* ===================================================================== *)
(** ** [gen_one_input_for_model] and the entry point                      *)
(* ===================================================================== *)

(** A world that holds numpy's global generator. *)
Class HasNumpyRandom (W G : Type) : Type := {
  get_np_random : W -> G;
  set_np_random : G -> W -> W
}.

(** A computation on the generator, run in such a world. *)
Definition on_np_random {W G A : Type} {NR : HasNumpyRandom W G} (c : M G A) : M W A :=
  fun w => let '(res, g') := c (get_np_random w) in (res, set_np_random g' w).

(** The argument [rngs] that the result of [infer_domain] is passed as. *)
Definition rngs_of (rngs : option (list Range)) : rngs_arg :=
  match rngs with
  | None => RngsNone
  | Some l => RngsList l
  end.

Section GenForModel.

Context {G Model W : Type} {RS : RandomState G} {NR : HasNumpyRandom W G}.

Variable pickle_file : string -> option (option (list Range)).
Variable get_onnx_proto : string -> result Model.
Variable analyze_onnx_io : Model -> result InputSpec.

(** [input_gen.infer_domain], the method of the [InputGenBase] passed. *)
Variable input_gen_infer_domain : Model -> M W (option (list Range)).

(** [gen_one_input_for_model(model, input_gen, seed=None)] *)
Definition gen_one_input_for_model (model : Model) (seed : option Z)
  : M W (dict ndarray) :=
  inp_spec <- lift (analyze_onnx_io model) ;;
  rngs <- input_gen_infer_domain model ;;
  on_np_random
    (gen_one_input_rngs pickle_file get_onnx_proto analyze_onnx_io
       (SpecDict inp_spec) (rngs_of rngs) seed).

End GenForModel.

(** The file system as far as the code uses it.  A path names a file,
    and several paths may name the same one (["./domain.pkl"] and
    ["domain.pkl"]): [realpath] gives the file a path names.  A file that
    exists holds a pickled object; a file that cannot be created or
    written makes [open(path, 'wb')] raise. *)
Record Files : Type := {
  realpath : string -> string;
  pickled : string -> option (option (list Range));
  unwritable : string -> option exn
}.

(** What [open(path, 'rb')] finds at a path. *)
Definition file_at (fs : Files) (path : string) : option (option (list Range)) :=
  pickled fs (realpath fs path).

(** The files after [pickle.dump(obj, open(path, 'wb'))] has succeeded. *)
Definition pickle_dump (obj : option (list Range)) (path : string) (fs : Files) : Files :=
  {| realpath := realpath fs;
     pickled := fun f =>
       if String.eqb f (realpath fs path) then Some obj else pickled fs f;
     unwritable := unwritable fs |}.

(** The default of [--output_path]. *)
Definition default_output_path : string := "./domain.pkl".

Section Main.

Context {Model W : Type} {C : NaNChecker Model W}.

Variable get_onnx_proto : string -> result Model.

(** The body of [if __name__ == '__main__'], for the parsed arguments
    [args.model] and [args.output_path]; the world holds the files
    beside the world of the checker. *)
Definition main (args_model args_output_path : string) : M (W * Files) unit :=
  fun '(w, fs) =>
    match get_onnx_proto args_model with
    | Raise e => (Raise e, (w, fs))
    | Ok model =>
        match InputGenV3.infer_domain model w with
        | (Raise e, w') => (Raise e, (w', fs))
        | (Ok rngs, w') =>
            match unwritable fs (realpath fs args_output_path) with
            | Some e => (Raise e, (w', fs))
            | None => (Ok tt, (w', pickle_dump rngs args_output_path fs))
            end
        end
    end.

End Main.

(** The world of an [ORTNaNChecker] holds the generator. *)
#[export] Instance ORT_has_np_random {G E Model : Type}
  : HasNumpyRandom (ORTNaNChecker.World G E Model) G := {|
  get_np_random := ORTNaNChecker.np_random;
  set_np_random := fun g w =>
    {| ORTNaNChecker.np_random := g;
       ORTNaNChecker.rf_exe := ORTNaNChecker.rf_exe w;
       ORTNaNChecker.model := ORTNaNChecker.model w;
       ORTNaNChecker.inp_spec := ORTNaNChecker.inp_spec w |}
|}.

(** The world of a [pure_checker] beside a generator. *)
#[export] Instance pair_has_np_random {W G : Type} : HasNumpyRandom (W * G) G := {|
  get_np_random := snd;
  set_np_random := fun g w => (fst w, g)
|}.

(** A checker on a world that also holds a generator it does not use. *)
Definition beside_generator {Model W G : Type} (C : NaNChecker Model W)
  : NaNChecker Model (W * G) := {|
  load_model := fun m '(w, g) =>
    let '(res, w') := @load_model _ _ C m w in (res, (w', g));
  no_nan := fun l r '(w, g) =>
    let '(res, w') := @no_nan _ _ C l r w in (res, (w', g))
|}.

(** A resolution of paths that drops a leading ["./"], and the files of
    the examples under it. *)
Definition strip_dot_slash (path : string) : string :=
  match path with
  | String "."%char (String "/"%char rest) => rest
  | _ => path
  end.

Definition example_fs : Files :=
  {| realpath := strip_dot_slash;
     pickled := example_files;
     unwritable := fun _ => None |}.

(** [InputGenBase.infer_domain]: the method a generator overloads. *)
Definition InputGenBase_infer_domain {Model W : Type} (model : Model)
  : M W (option (list Range)) :=
  raise NotImplementedError.


(* ===================================================================== *)
(** * Properties                                                          *)
(* ===================================================================== *)

Import InputGenV3.

Ltac inv_pair H := inversion H; subst; clear H.

(** ** [binary_search] stays inside its window *)

Section BinarySearchBounds.

Context {W : Type}.

Lemma mid_bounds l r : l <= r -> l <= (l + r) / 2 /\ (l + r) / 2 <= r.
Proof.
  intros H. split.
  - apply Qle_shift_div_l; [reflexivity | lra].
  - apply Qle_shift_div_r; [reflexivity | lra].
Qed.

Lemma binary_search_loop_bounds (checker : Q -> M W bool) rof l r w x w' :
  l <= r ->
  binary_search_loop checker rof l r w = (Ok x, w') ->
  l <= x /\ x <= r.
Proof.
  funelim (binary_search_loop checker rof l r w); intros Hlr Hrun.
  - inv_pair Hrun. split; [exact Hlr | apply Qle_refl].
  - destruct (mid_bounds l r Hlr) as [Hm1 Hm2].
    destruct return_on_first.
    + inv_pair Hrun. split; assumption.
    + destruct (H _ _ Hm1 Hrun) as [Ha Hb]. split; [exact Ha | lra].
  - destruct (mid_bounds l r Hlr) as [Hm1 Hm2].
    destruct (H _ _ Hm2 Hrun) as [Ha Hb]. split; [lra | exact Hb].
  - discriminate.
Qed.

Lemma binary_search_bounds (checker : Q -> M W bool) rof l r w x w' :
  l <= r ->
  binary_search l r checker rof w = (Ok x, w') ->
  l <= x /\ x <= r.
Proof.
  intros Hlr. unfold binary_search.
  destruct (Qeq_bool l r) eqn:E.
  - intros Hrun. inv_pair Hrun. split; [apply Qle_refl | exact Hlr].
  - unfold bind. destruct (checker l w) as [[[|] | e] w1] eqn:Ec; unfold ret.
    + intros Hrun. inv_pair Hrun. split; [apply Qle_refl | exact Hlr].
    + apply binary_search_loop_bounds. exact Hlr.
    + discriminate.
Qed.

End BinarySearchBounds.

(** ** The invariant of the loop of [_get_range] *)

Lemma last_rng_snoc pre x : last_rng (pre ++ [x]) = Some x.
Proof.
  induction pre as [| y pre IH]; [reflexivity |].
  simpl. destruct (pre ++ [x]) eqn:E; [destruct pre; discriminate | exact IH].
Qed.

Lemma last_rng_cases vr :
  (vr = [] /\ last_rng vr = None) \/
  (exists pre x, vr = pre ++ [x] /\ last_rng vr = Some x).
Proof.
  destruct vr as [| y vr]; [left; split; reflexivity | right].
  destruct (exists_last (l := y :: vr)) as [pre [x E]]; [discriminate |].
  exists pre, x. split; [exact E | rewrite E; apply last_rng_snoc].
Qed.

Lemma set_last_snoc pre x y : set_last (pre ++ [x]) y = pre ++ [y].
Proof. unfold set_last. rewrite removelast_last. reflexivity. Qed.

Lemma included_existsb vr p :
  included vr p =
  existsb (fun rng => Qle_bool (fst rng) p && Qle_bool p (snd rng)) vr.
Proof.
  unfold included.
  assert (G : forall acc,
    fold_left (fun inc rng =>
       if Qle_bool (fst rng) p && Qle_bool p (snd rng) then true else inc) vr acc
    = acc || existsb (fun rng => Qle_bool (fst rng) p && Qle_bool p (snd rng)) vr).
  { induction vr as [| rng vr IH]; intros acc; simpl.
    - rewrite orb_false_r. reflexivity.
    - rewrite IH. destruct (Qle_bool (fst rng) p && Qle_bool p (snd rng)); simpl.
      + rewrite orb_true_r. reflexivity.
      + reflexivity. }
  rewrite G. reflexivity.
Qed.

Lemma included_false vr p :
  included vr p = false ->
  Forall (fun rng => ~ (fst rng <= p /\ p <= snd rng)) vr.
Proof.
  rewrite included_existsb. intros H. apply Forall_forall. intros rng Hin [H1 H2].
  assert (E : existsb (fun rng => Qle_bool (fst rng) p && Qle_bool p (snd rng)) vr = true).
  { apply existsb_exists. exists rng. split; [exact Hin |].
    apply andb_true_intro. split; apply Qle_bool_iff; assumption. }
  congruence.
Qed.

Lemma included_true vr p :
  included vr p = true ->
  exists rng, In rng vr /\ fst rng <= p /\ p <= snd rng.
Proof.
  rewrite included_existsb. intros H. apply existsb_exists in H.
  destruct H as [rng [Hin H]]. apply andb_prop in H. destruct H as [H1 H2].
  exists rng. split; [exact Hin |]. split; apply Qle_bool_iff; assumption.
Qed.

Lemma chained_snoc pre x :
  chained pre -> Forall (fun y : Range => snd y <= fst x) pre -> chained (pre ++ [x]).
Proof.
  unfold chained. induction pre as [| y pre IH]; intros Hs Hf; simpl.
  - constructor; constructor.
  - inversion Hs; subst. inversion Hf; subst. constructor.
    + apply IH; assumption.
    + apply Forall_app. split; [assumption | constructor; [assumption | constructor]].
Qed.

Lemma chained_snoc_inv pre x :
  chained (pre ++ [x]) -> chained pre /\ Forall (fun y : Range => snd y <= fst x) pre.
Proof.
  unfold chained. induction pre as [| y pre IH]; simpl; intros Hs.
  - split; constructor.
  - inversion Hs; subst. destruct (IH H1) as [Hp Hf].
    apply Forall_app in H2. destruct H2 as [H2 H3]. inversion H3; subst.
    split; constructor; assumption.
Qed.

Lemma a_bounds p : In p a -> -1 <= p /\ p <= 1.
Proof.
  unfold a, linspace. simpl. intros H.
  repeat (destruct H as [H | H]; [subst p; split; discriminate |]). contradiction.
Qed.

Lemma a_sorted : StronglySorted Qle a.
Proof.
  unfold a, linspace. simpl.
  repeat (constructor; [| repeat (constructor; [discriminate |]); constructor]).
  constructor.
Qed.

Section SearchInvariant.

Context {Model W : Type} {nan_checker : NaNChecker Model W}.

Lemma rng_ok_mono b b' rng : b <= b' -> rng_ok b rng -> rng_ok b' rng.
Proof.
  intros Hb (H1 & H2 & H3 & H4 & H5). repeat split; try assumption.
  eapply Qle_trans; eassumption.
Qed.

Lemma search_inv_mono b b' vr : b <= b' -> search_inv b vr -> search_inv b' vr.
Proof.
  intros Hb [Hc Hf]. split; [exact Hc |].
  eapply Forall_impl; [| exact Hf]. intros rng. apply rng_ok_mono. exact Hb.
Qed.

Lemma get_range_step_inv b vr p w vr' w' :
  search_inv b vr -> b <= p -> In p a ->
  get_range_step vr p w = (Ok vr', w') ->
  search_inv p vr'.
Proof.
  intros Hinv Hbp Hin. pose proof (a_bounds p Hin) as [Hp1 Hp2].
  unfold get_range_step.
  destruct (included vr p) eqn:Einc.
  { unfold ret. intros H. inv_pair H. apply (search_inv_mono b); assumption. }
  unfold bind at 1.
  destruct (no_nan p p w) as [[[|] | e] w1] eqn:Epp; simpl; try discriminate.
  2:{ unfold ret. intros H. inv_pair H. apply (search_inv_mono b); assumption. }
  apply included_false in Einc.
  destruct (last_rng_cases vr) as [[Evr Elast] | [pre [lst [Evr Elast]]]];
    rewrite Elast.
  - (* first range *)
    subst vr. unfold bind at 1. unfold ret at 1.
    unfold bind at 1.
    destruct (binary_search L p (fun l => no_nan l p) true w1) as [[l | e] w2] eqn:El;
      try discriminate.
    unfold bind at 1.
    destruct (binary_search (- R) (- p) (fun r => no_nan l (- r)) true w2)
      as [[r' | e] w3] eqn:Er; try discriminate.
    unfold ret. intros H. inv_pair H.
    apply binary_search_bounds in El; [| unfold L; lra].
    apply binary_search_bounds in Er; [| unfold R; lra].
    destruct El as [El1 El2]. destruct Er as [Er1 Er2].
    split.
    + simpl. constructor; constructor.
    + constructor; [| constructor]. unfold rng_ok; simpl.
      repeat split; try lra. exists p. repeat split; try assumption; lra.
  - (* there is a previous range *)
    destruct Hinv as [Hc Hf]. subst vr.
    apply chained_snoc_inv in Hc. destruct Hc as [Hcpre Hlt].
    apply Forall_app in Hf. destruct Hf as [Hfpre Hflst].
    inversion Hflst as [| ? ? Hlst _]; subst.
    apply Forall_app in Einc. destruct Einc as [_ Einc].
    inversion Einc as [| ? ? Hnin _]; subst.
    destruct Hlst as (Hl1 & Hl2 & Hl3 & Hl4 & q & Hq1 & Hq2 & Hq3).
    assert (Hhi : snd lst < p).
    { apply Qnot_le_lt. intros Hle. apply Hnin. split; lra. }
    unfold bind at 1.
    destruct (no_nan (fst lst) p w1) as [[[|] | e] w2] eqn:Eext; try discriminate.
    + (* the previous range is extended *)
      unfold ret. intros H. inv_pair H. rewrite set_last_snoc.
      split.
      * apply chained_snoc; assumption.
      * apply Forall_app. split.
        -- eapply Forall_impl; [| exact Hfpre]. intros rng. apply rng_ok_mono. exact Hbp.
        -- constructor; [| constructor]. unfold rng_ok; simpl.
           repeat split; try lra; try (unfold R; lra).
           exists p. repeat split; try assumption; lra.
    + (* a new range is appended *)
      unfold bind at 1.
      destruct (binary_search (snd lst) p (fun l => no_nan l p) true w2)
        as [[l | e] w3] eqn:El; try discriminate.
      unfold bind at 1.
      destruct (binary_search (- R) (- p) (fun r => no_nan l (- r)) true w3)
        as [[r' | e] w4] eqn:Er; try discriminate.
      unfold ret. intros H. inv_pair H.
      apply binary_search_bounds in El; [| lra].
      apply binary_search_bounds in Er; [| unfold R; lra].
      destruct El as [El1 El2]. destruct Er as [Er1 Er2].
      split.
      * apply chained_snoc; [apply chained_snoc; assumption |].
        apply Forall_app. split.
        -- eapply Forall_impl; [| exact Hlt]. simpl. intros rng Hr. lra.
        -- constructor; [simpl; lra | constructor].
      * apply Forall_app. split; [apply Forall_app; split |].
        -- eapply Forall_impl; [| exact Hfpre]. intros rng. apply rng_ok_mono. exact Hbp.
        -- constructor; [| constructor].
           unfold rng_ok. repeat split; try lra. exists q. repeat split; assumption.
        -- constructor; [| constructor]. unfold rng_ok; simpl.
           repeat split; try lra. exists p. repeat split; try assumption; lra.
Qed.


End SearchInvariant.

Section SearchLoop.

Context {Model W : Type} {nan_checker : NaNChecker Model W}.

Lemma get_range_loop_inv points : forall b vr w vr' w',
  search_inv b vr ->
  StronglySorted Qle points ->
  Forall (fun p => b <= p /\ In p a) points ->
  get_range_loop points vr w = (Ok vr', w') ->
  exists b', search_inv b' vr'.
Proof.
  induction points as [| p points IH]; intros b vr w vr' w' Hinv Hs Hf; simpl.
  - unfold ret. intros H. inv_pair H. exists b. exact Hinv.
  - inversion Hs as [| ? ? Hs' Hle]; subst.
    inversion Hf as [| ? ? [Hbp Hin] Hf']; subst.
    unfold bind.
    destruct (get_range_step vr p w) as [[vr1 | e] w1] eqn:Estep; [| discriminate].
    apply (IH p vr1 w1 vr' w').
    + eapply get_range_step_inv; eassumption.
    + exact Hs'.
    + apply Forall_forall. intros q Hq. split.
      * rewrite Forall_forall in Hle. apply Hle. exact Hq.
      * rewrite Forall_forall in Hf'. apply Hf'. exact Hq.
Qed.

Lemma get_range_inv w vr w' :
  _get_range w = (Ok (Some vr), w') ->
  vr <> [] /\ exists b, search_inv b vr.
Proof.
  unfold _get_range, bind.
  destruct (get_range_loop a [] w) as [[vr1 | e] w1] eqn:Eloop; [| discriminate].
  destruct vr1 as [| rng vr1]; unfold ret; intros H; inv_pair H.
  split; [discriminate |].
  apply (get_range_loop_inv a (-1) [] w _ w').
  - split; constructor.
  - exact a_sorted.
  - apply Forall_forall. intros p Hp. split; [apply a_bounds; exact Hp | exact Hp].
  - exact Eloop.
Qed.

Lemma get_range_never_empty w w' : _get_range w <> (Ok (Some []), w').
Proof.
  intros H. apply get_range_inv in H. destruct H as [H _]. apply H. reflexivity.
Qed.

End SearchLoop.

(** ** The fast path of [infer_domain] (C3) *)

(** C3.  When the checker accepts the range (0, 1), [infer_domain]
    returns exactly [[(0, 1)]]: the world it leaves is the one left by
    the single query [no_nan 0 1] made after [load_model], and for a
    checker instrumented with the log of its queries the log grows by
    the one entry (0, 1), so [_get_range] made no query. *)
Theorem infer_domain_fast_path {Model W} (C : NaNChecker Model W)
    (m : Model) (w w1 w2 : W) (log : list Range) :
  @load_model _ _ C m w = (Ok tt, w1) ->
  @no_nan _ _ C 0 1 w1 = (Ok true, w2) ->
  @infer_domain _ _ C m w = (Ok (Some [(0, 1)]), w2) /\
  @infer_domain _ _ (logging C) m (w, log)
    = (Ok (Some [(0, 1)]), (w2, log ++ [(0, 1)])).
Proof.
  intros Hload Hq. split.
  - unfold infer_domain, bind. rewrite Hload, Hq. reflexivity.
  - unfold infer_domain, bind. simpl. rewrite Hload. simpl. rewrite Hq. reflexivity.
Qed.

Lemma infer_domain_fast_path_witness :
  @infer_domain _ _ (pure_checker (fun _ _ => true)) tt 0%nat
    = (Ok (Some [(0, 1)]), 1%nat) /\
  @infer_domain _ _ (logging (pure_checker (fun _ _ => true))) tt (0%nat, [])
    = (Ok (Some [(0, 1)]), (1%nat, [(0, 1)])).
Proof.
  apply (infer_domain_fast_path (pure_checker (fun _ _ => true)) tt 0%nat 0%nat 1%nat []);
    reflexivity.
Defined.

(** ** Order and overlap of the ranges found (C4) *)

Lemma chained_sorted_by_low vr :
  chained vr -> Forall (fun rng : Range => fst rng <= snd rng) vr -> sorted_by_low vr.
Proof.
  unfold chained, sorted_by_low. induction vr as [| x vr IH]; intros Hc Hf.
  - constructor.
  - inversion Hc as [| ? ? Hc' Hx]; subst. inversion Hf as [| ? ? Hx1 Hf']; subst.
    constructor; [apply IH; assumption |].
    eapply Forall_impl; [| exact Hx]. simpl. intros y Hy. lra.
Qed.

Lemma chained_touch_at_most vr :
  chained vr -> ForallOrdPairs touch_at_most vr.
Proof.
  unfold chained. induction vr as [| x vr IH]; intros Hc.
  - constructor.
  - inversion Hc as [| ? ? Hc' Hx]; subst. constructor; [| apply IH; exact Hc'].
    eapply Forall_impl; [| exact Hx]. simpl.
    intros y Hy q [H1 H2] [H3 H4]. split; lra.
Qed.

(** C4 (amended).  The ranges [_get_range] returns are sorted ascending
    by their low endpoint, each has [low <= high], and each ends no
    later than every later one begins; hence two of them share at most
    one point, the high endpoint of the earlier one when it is also the
    low endpoint of the later one. *)
Theorem get_range_sorted_chained {Model W} (C : NaNChecker Model W)
    (w w' : W) (vr : list Range) :
  @_get_range _ _ C w = (Ok (Some vr), w') ->
  sorted_by_low vr /\
  Forall (fun rng : Range => fst rng <= snd rng) vr /\
  chained vr /\
  ForallOrdPairs touch_at_most vr.
Proof.
  intros H. apply get_range_inv in H. destruct H as [_ [b [Hc Hf]]].
  assert (Hle : Forall (fun rng : Range => fst rng <= snd rng) vr).
  { eapply Forall_impl; [| exact Hf]. intros rng (_ & H & _). exact H. }
  repeat split.
  - apply chained_sorted_by_low; assumption.
  - exact Hle.
  - exact Hc.
  - apply chained_touch_at_most. exact Hc.
Qed.

Lemma get_range_sorted_chained_witness :
  sorted_by_low width_ranges /\
  Forall (fun rng : Range => fst rng <= snd rng) width_ranges /\
  chained width_ranges /\
  ForallOrdPairs touch_at_most width_ranges.
Proof.
  apply (get_range_sorted_chained (pure_checker (width_safe (3 # 4))) 0%nat 41%nat).
  vm_compute. reflexivity.
Defined.

(** C4, as stated, fails: for the checker that accepts exactly the
    ranges no wider than 3/4, the first two ranges found share an
    endpoint, so the ranges are not pairwise disjoint. *)
Lemma get_range_ranges_touch :
  exists x y rest n,
    @_get_range _ _ (pure_checker (width_safe (3 # 4))) 0%nat
      = (Ok (Some (x :: y :: rest)), n) /\
    fst x == -25 # 16 /\ snd x == -53 # 64 /\
    fst y = snd x /\ snd y == -5 # 48 /\
    in_range (snd x) x /\ in_range (snd x) y /\
    ~ pairwise_disjoint (x :: y :: rest).
Proof.
  eexists. eexists. eexists. eexists.
  split; [vm_compute; reflexivity |].
  split; [reflexivity |]. split; [reflexivity |].
  split; [reflexivity |]. split; [reflexivity |].
  assert (Hx : forall x y : Range,
             fst x <= snd x -> fst y = snd x -> snd x <= snd y ->
             in_range (snd x) x /\ in_range (snd x) y).
  { intros x y H1 H2 H3. unfold in_range. rewrite H2.
    repeat split; try assumption; apply Qle_refl. }
  match goal with
  | |- in_range (snd ?x) ?x /\ in_range (snd ?x) ?y /\ _ =>
      destruct (Hx x y) as [Hin1 Hin2];
        [discriminate | reflexivity | discriminate |]
  end.
  split; [exact Hin1 |]. split; [exact Hin2 |].
  intros H.
  inversion H as [| x vr Hfirst _]; subst.
  inversion Hfirst as [| y vr' Hxy _]; subst.
  apply (Hxy _ (conj Hin1 Hin2)).
Qed.

(** ** No range found (C7) *)

Section NoRange.

Context {Model W : Type} {C : NaNChecker Model W}.

Lemma get_range_step_grows vr p w vr' w' :
  get_range_step vr p w = (Ok vr', w') ->
  (List.length vr <= List.length vr')%nat.
Proof.
  unfold get_range_step.
  destruct (included vr p); [unfold ret; intros H; inv_pair H; lia |].
  unfold bind at 1.
  destruct (no_nan p p w) as [[[|] | e] w1]; simpl;
    [| unfold ret; intros H; inv_pair H; lia | discriminate].
  destruct (last_rng_cases vr) as [[Evr Elast] | [pre [lst [Evr Elast]]]]; rewrite Elast.
  - subst vr. unfold bind at 1. unfold ret at 1. unfold bind at 1.
    destruct (binary_search L p (fun l => no_nan l p) true w1) as [[l | e] w2];
      [| discriminate].
    unfold bind at 1.
    destruct (binary_search (- R) (- p) (fun r => no_nan l (- r)) true w2)
      as [[r' | e] w3]; [| discriminate].
    unfold ret. intros H. inv_pair H. simpl. lia.
  - subst vr. unfold bind at 1.
    destruct (no_nan (fst lst) p w1) as [[[|] | e] w2]; [| | discriminate].
    + unfold ret. intros H. inv_pair H. rewrite set_last_snoc.
      rewrite !length_app. simpl. lia.
    + unfold bind at 1.
      destruct (binary_search (snd lst) p (fun l => no_nan l p) true w2)
        as [[l | e] w3]; [| discriminate].
      unfold bind at 1.
      destruct (binary_search (- R) (- p) (fun r => no_nan l (- r)) true w3)
        as [[r' | e] w4]; [| discriminate].
      unfold ret. intros H. inv_pair H. rewrite !length_app. simpl. lia.
Qed.

Lemma get_range_loop_grows points : forall vr w vr' w',
  get_range_loop points vr w = (Ok vr', w') ->
  (List.length vr <= List.length vr')%nat.
Proof.
  induction points as [| p points IH]; intros vr w vr' w'; simpl.
  - unfold ret. intros H. inv_pair H. lia.
  - unfold bind.
    destruct (get_range_step vr p w) as [[vr1 | e] w1] eqn:Es; [| discriminate].
    intros H. apply IH in H. apply get_range_step_grows in Es. lia.
Qed.

(** On the empty list a seed whose point query answers true opens a
    range. *)
Lemma get_range_step_first p w vr' w' :
  get_range_step [] p w = (Ok vr', w') ->
  (exists w1, no_nan p p w = (Ok false, w1) /\ vr' = [] /\ w' = w1) \/
  (exists w1, no_nan p p w = (Ok true, w1) /\ vr' <> []).
Proof.
  unfold get_range_step. simpl. unfold bind at 1.
  destruct (no_nan p p w) as [[[|] | e] w1]; simpl; [| | discriminate].
  - unfold bind at 1. unfold ret at 1. unfold bind at 1.
    destruct (binary_search L p (fun l => no_nan l p) true w1) as [[l | e] w2];
      [| discriminate].
    unfold bind at 1.
    destruct (binary_search (- R) (- p) (fun r => no_nan l (- r)) true w2)
      as [[r' | e] w3]; [| discriminate].
    unfold ret. intros H. inv_pair H. right. exists w1. split; [reflexivity | discriminate].
  - unfold ret. intros H. inv_pair H. left. exists w'. repeat split.
Qed.

Lemma get_range_loop_all_rejected points : forall w w',
  all_rejected points w w' <-> get_range_loop points [] w = (Ok [], w').
Proof.
  induction points as [| p points IH]; intros w w'; simpl.
  - unfold ret. split; [intros H; subst w'; reflexivity | intros H; inv_pair H; reflexivity].
  - split.
    + intros (w1 & Hp & Hrest). unfold bind, get_range_step. simpl.
      unfold bind. rewrite Hp. simpl. apply IH. exact Hrest.
    + unfold bind.
      destruct (get_range_step [] p w) as [[vr1 | e] w1] eqn:Es; [| discriminate].
      intros Hloop.
      destruct (get_range_step_first p w vr1 w1 Es)
        as [(w2 & Hp & Hvr & Hw) | (w2 & Hp & Hvr)].
      * subst vr1 w1. exists w2. split; [exact Hp | apply IH; exact Hloop].
      * apply get_range_loop_grows in Hloop. destruct vr1; [contradiction | simpl in Hloop; lia].
Qed.

End NoRange.

(** C7.  [_get_range] returns [None] exactly when the point query of
    every seed, made in turn from the world the previous one left,
    answers false: it then returns [None] in the world the last query
    left, without raising; and when some point query answers true and
    the search returns, it returns a list of ranges.  That list is never
    empty, whatever the checker. *)
Theorem get_range_none {Model W} (C : NaNChecker Model W) (w w' : W) :
  (all_rejected a w w' <-> @_get_range _ _ C w = (Ok None, w')) /\
  @_get_range _ _ C w <> (Ok (Some []), w').
Proof.
  split.
  - rewrite get_range_loop_all_rejected. unfold _get_range, bind. split.
    + intros H. rewrite H. reflexivity.
    + destruct (get_range_loop a [] w) as [[vr | e] w1]; [| discriminate].
      destruct vr; unfold ret; intros H; inv_pair H. reflexivity.
  - apply get_range_never_empty.
Qed.

Lemma get_range_none_witness :
  all_rejected (C := ort_checker) a undefined_checker undefined_checker_after /\
  @_get_range _ _ ort_checker undefined_checker = (Ok None, undefined_checker_after).
Proof.
  assert (H : all_rejected (C := ort_checker) a undefined_checker undefined_checker_after).
  { unfold a, linspace. simpl.
    repeat (eexists; split; [vm_compute; reflexivity |]). reflexivity. }
  split; [exact H |].
  apply (proj1 (get_range_none ort_checker undefined_checker undefined_checker_after)).
  exact H.
Defined.

(** ** The shape of the result of [infer_domain] (C10) *)

(** C10.  [infer_domain] never returns an empty list: its result is
    [None] or a non-empty list of ranges, each of which contains one of
    the seed points and lies within the global bounds [[L, R]]. *)
Theorem infer_domain_result {Model W} (C : NaNChecker Model W)
    (m : Model) (w w' : W) (res : option (list Range)) :
  @infer_domain _ _ C m w = (Ok res, w') ->
  res = None \/
  exists vr, res = Some vr /\ vr <> [] /\
    Forall (fun rng : Range =>
              L <= fst rng /\ snd rng <= R /\
              exists p, In p a /\ in_range p rng) vr.
Proof.
  unfold infer_domain, bind.
  destruct (load_model m w) as [[[] | e] w1]; [| discriminate].
  destruct (no_nan 0 1 w1) as [[[|] | e] w2]; [| | discriminate].
  - unfold ret. intros H. inv_pair H. right. exists [(0, 1)].
    split; [reflexivity |]. split; [discriminate |].
    constructor; [| constructor]. simpl.
    split; [discriminate |]. split; [discriminate |].
    exists (nth 5 a 0). split.
    + unfold a, linspace. simpl. tauto.
    + unfold in_range. simpl. split; discriminate.
  - intros H. destruct res as [vr |]; [right | left; reflexivity].
    apply get_range_inv in H. destruct H as [Hne [b [_ Hf]]].
    exists vr. split; [reflexivity |]. split; [exact Hne |].
    eapply Forall_impl; [| exact Hf].
    intros rng (H1 & H2 & H3 & H4 & p & Hp1 & Hp2 & Hp3).
    split; [exact H1 |]. split; [exact H3 |].
    exists p. split; [exact Hp1 | split; assumption].
Qed.

Lemma infer_domain_result_witness :
  fst half_interval_outcome = Ok None \/
  exists vr, fst half_interval_outcome = Ok (Some vr) /\ vr <> [] /\
    Forall (fun rng : Range =>
              L <= fst rng /\ snd rng <= R /\
              exists p, In p a /\ in_range p rng) vr.
Proof.
  destruct (infer_domain_result (pure_checker (interval_safe (1 # 2))) tt 0%nat
              (snd half_interval_outcome)
              (match fst half_interval_outcome with Ok r => r | Raise _ => None end))
    as [H | [vr [H1 H2]]].
  - vm_compute. reflexivity.
  - discriminate H.
  - right. exists vr. split; [| exact H2].
    unfold half_interval_outcome in *. simpl in *. rewrite H1. reflexivity.
Defined.

(** ** Cost and result of [binary_search] (C2) *)

Lemma halvings_least l r (k : nat) :
  r - l <= EPS * inject_Z (2 ^ Z.of_nat k) -> (halvings l r <= k)%nat.
Proof.
  intros H. unfold halvings.
  assert (Hpos : 0 < EPS) by reflexivity.
  assert (Hx : (r - l) / EPS <= inject_Z (2 ^ Z.of_nat k)).
  { apply Qle_shift_div_r; [exact Hpos |]. rewrite Qmult_comm. exact H. }
  apply Qceiling_resp_le in Hx. rewrite Qceiling_Z in Hx.
  destruct (Z_lt_le_dec 0 (Qceiling ((r - l) / EPS))) as [Hp | Hn].
  - apply Z.log2_up_le_pow2 in Hx; [lia | exact Hp].
  - rewrite Z.log2_up_nonpos by exact Hn. simpl. lia.
Qed.

Section BinarySearchCost.

Context {W : Type}.

Variable checker : Q -> M (W * nat) bool.

Hypothesis checker_counts :
  forall x wn, snd (snd (checker x wn)) = S (snd wn).

Lemma binary_search_loop_calls rof l r wn :
  (snd (snd (binary_search_loop checker rof l r wn)) <= snd wn + halvings l r)%nat.
Proof.
  funelim (binary_search_loop checker rof l r wn).
  - simpl. lia.
  - pose proof (checker_counts ((l + r) / 2) w) as Hc. rewrite Heq in Hc. simpl in Hc.
    assert (Hs : (halvings l ((l + r) / 2) < halvings l r)%nat)
      by (apply halvings_step; [exact Hgt | field]).
    destruct return_on_first.
    + simpl. lia.
    + lia.
  - pose proof (checker_counts ((l + r) / 2) w) as Hc. rewrite Heq in Hc. simpl in Hc.
    assert (Hs : (halvings ((l + r) / 2) r < halvings l r)%nat)
      by (apply halvings_step; [exact Hgt | field]).
    lia.
  - pose proof (checker_counts ((l + r) / 2) w) as Hc. rewrite Heq in Hc. simpl in Hc.
    assert (Hs : (halvings l ((l + r) / 2) < halvings l r)%nat)
      by (apply halvings_step; [exact Hgt | field]).
    simpl. lia.
Qed.

Lemma binary_search_calls rof l r wn :
  (snd (snd (binary_search l r checker rof wn)) <= snd wn + 1 + halvings l r)%nat.
Proof.
  unfold binary_search. destruct (Qeq_bool l r).
  - simpl. lia.
  - unfold bind. pose proof (checker_counts l wn) as Hc.
    destruct (checker l wn) as [[[|] | e] w1]; simpl in *.
    + lia.
    + pose proof (binary_search_loop_calls rof l r w1). lia.
    + lia.
Qed.

End BinarySearchCost.

Lemma counted_counts {W} (checker : Q -> M W bool) x wn :
  snd (snd (counted checker x wn)) = S (snd wn).
Proof.
  destruct wn as [w n]. unfold counted. destruct (checker x w) as [res w']. reflexivity.
Qed.

Section BinarySearchMonotone.

Context {W : Type}.

Variable pred : Q -> bool.
Variable checker : Q -> M W bool.

Hypothesis checker_pred : forall x w, fst (checker x w) = Ok (pred x).

Lemma checker_run x w : exists w', checker x w = (Ok (pred x), w').
Proof.
  pose proof (checker_pred x w) as H. destruct (checker x w) as [res w'].
  simpl in H. subst res. exists w'. reflexivity.
Qed.

Lemma binary_search_loop_transition rof l r w :
  pred l = false -> pred r = true -> l <= r ->
  exists x w',
    binary_search_loop checker rof l r w = (Ok x, w') /\
    pred x = true /\ l <= x /\ x <= r /\
    (rof = false -> exists y, pred y = false /\ y <= x /\ x - y <= EPS).
Proof.
  funelim (binary_search_loop checker rof l r w); intros Hl Hr Hlr.
  - exists r, w. repeat split; try assumption; try apply Qle_refl.
    intros _. exists l. repeat split; assumption.
  - pose proof (checker_pred ((l + r) / 2) w) as Hc. rewrite Heq in Hc. simpl in Hc.
    inversion Hc as [Hm]. symmetry in Hm.
    destruct (mid_bounds l r Hlr) as [Hm1 Hm2].
    destruct return_on_first.
    + exists ((l + r) / 2), w'. repeat split; try assumption. discriminate.
    + destruct (H Hl Hm Hm1) as (x & w2 & Hrun & Hx & Hx1 & Hx2 & Hy).
      exists x, w2. repeat split; try assumption. lra.
  - pose proof (checker_pred ((l + r) / 2) w) as Hc. rewrite Heq in Hc. simpl in Hc.
    inversion Hc as [Hm]. symmetry in Hm.
    destruct (mid_bounds l r Hlr) as [Hm1 Hm2].
    destruct (H Hm Hr Hm2) as (x & w2 & Hrun & Hx & Hx1 & Hx2 & Hy).
    exists x, w2. repeat split; try assumption. lra.
  - pose proof (checker_pred ((l + r) / 2) w) as Hc. rewrite Heq in Hc. simpl in Hc.
    discriminate.
Qed.

Lemma binary_search_transition rof l r w :
  pred l = false -> pred r = true -> l < r ->
  exists x w',
    binary_search l r checker rof w = (Ok x, w') /\
    pred x = true /\ l <= x /\ x <= r /\
    (rof = false -> exists y, pred y = false /\ y <= x /\ x - y <= EPS).
Proof.
  intros Hl Hr Hlr. unfold binary_search.
  assert (E : Qeq_bool l r = false).
  { destruct (Qeq_bool l r) eqn:E; [| reflexivity].
    apply Qeq_bool_iff in E. lra. }
  rewrite E. unfold bind.
  destruct (checker_run l w) as [w1 Hc]. rewrite Hc, Hl.
  apply binary_search_loop_transition; try assumption. lra.
Qed.

End BinarySearchMonotone.

(** ** The search for a checker safe exactly inside [[-a, a]] (C2) *)

Lemma a_values :
  a = [-9 # 9; -7 # 9; -5 # 9; -3 # 9; -1 # 9; 1 # 9; 3 # 9; 5 # 9; 7 # 9; 9 # 9].
Proof. reflexivity. Qed.

Section IntervalChecker.

Context {Model W : Type} {C : NaNChecker Model W}.

Variable a0 : Q.

Hypothesis a0_pos : 0 < a0.
Hypothesis a0_lt_1 : a0 < 1.
Hypothesis load_ok : forall m w, fst (load_model m w) = Ok tt.
Hypothesis answers : forall l r w, fst (no_nan l r w) = Ok (interval_safe a0 l r).

Lemma no_nan_run l r w : exists w', no_nan l r w = (Ok (interval_safe a0 l r), w').
Proof.
  pose proof (answers l r w) as H. destruct (no_nan l r w) as [res w'].
  simpl in H. subst res. exists w'. reflexivity.
Qed.

Lemma interval_safe_true l r :
  interval_safe a0 l r = true <-> - a0 <= l /\ r <= a0.
Proof.
  unfold interval_safe. rewrite andb_true_iff, !Qle_bool_iff. reflexivity.
Qed.

Lemma interval_safe_false l r :
  interval_safe a0 l r = false <-> ~ (- a0 <= l /\ r <= a0).
Proof.
  rewrite <- interval_safe_true. split.
  - intros H H'. congruence.
  - intros H. destruct (interval_safe a0 l r); [exfalso; apply H; reflexivity | reflexivity].
Qed.

Lemma get_range_step_interval b done vr p w :
  interval_inv a0 b done vr -> b <= p -> -1 <= p -> p <= 1 ->
  exists vr' w',
    get_range_step vr p w = (Ok vr', w') /\ interval_inv a0 p (p :: done) vr'.
Proof.
  intros Hinv Hbp Hp1 Hp2. unfold get_range_step.
  destruct (no_nan_run p p w) as [w1 Hpp].
  destruct Hinv as [[Evr Hdone] | (lo & hi & Evr & Hlo & Hlob & Hlh & Hhi & Hq & Hdone)];
    subst vr.
  - (* no range yet *)
    simpl. unfold bind at 1. rewrite Hpp.
    destruct (interval_safe a0 p p) eqn:Esafe; simpl.
    2:{ exists [], w1. split; [reflexivity |]. left. split; [reflexivity |].
        intros q [Hq | Hq]; [subst q; apply interval_safe_false in Esafe; exact Esafe
                            | apply Hdone; exact Hq]. }
    apply interval_safe_true in Esafe. destruct Esafe as [Hs1 Hs2].
    unfold bind at 1. unfold ret at 1.
    destruct (binary_search_transition (fun x => Qle_bool (- a0) x)
                (fun l => no_nan l p)) with (rof := true) (l := L) (r := p) (w := w1)
      as (l & w2 & Hl & Hlp & Hl1 & Hl2 & _).
    { intros x w0. rewrite answers. unfold interval_safe.
      assert (E : Qle_bool p a0 = true) by (apply Qle_bool_iff; exact Hs2).
      rewrite E, andb_true_r. reflexivity. }
    { destruct (Qle_bool (- a0) L) eqn:E; [| reflexivity].
      apply Qle_bool_iff in E. unfold L in E. lra. }
    { apply Qle_bool_iff. exact Hs1. }
    { unfold L. lra. }
    apply Qle_bool_iff in Hlp.
    destruct (binary_search_transition (fun x => Qle_bool (- x) a0)
                (fun r => no_nan l (- r))) with (rof := true) (l := - R) (r := - p) (w := w2)
      as (r' & w3 & Hr & Hrp & Hr1 & Hr2 & _).
    { intros x w0. rewrite answers. unfold interval_safe.
      assert (E : Qle_bool (- a0) l = true) by (apply Qle_bool_iff; exact Hlp).
      rewrite E. reflexivity. }
    { destruct (Qle_bool (- - R) a0) eqn:E; [| reflexivity].
      apply Qle_bool_iff in E. unfold R in E. lra. }
    { apply Qle_bool_iff. lra. }
    { unfold R. lra. }
    apply Qle_bool_iff in Hrp.
    exists [(l, - r')], w3. split.
    + unfold bind. rewrite Hl, Hr. reflexivity.
    + right. exists l, (- r'). split; [reflexivity |].
      repeat split; try lra.
      * exists p. split; [left; reflexivity | split; assumption].
      * destruct H as [H | H]; [subst p0; lra | exfalso; apply (Hdone p0 H); exact H0].
      * destruct H as [H | H]; [subst p0; lra | exfalso; apply (Hdone p0 H); exact H0].
  - (* one range so far *)
    destruct (included [(lo, hi)] p) eqn:Einc.
    { exists [(lo, hi)], w. split; [reflexivity |]. right.
      apply included_true in Einc. destruct Einc as (rng & [Hrng | []] & Hi1 & Hi2).
      subst rng. simpl in *. exists lo, hi. split; [reflexivity |].
      repeat split; try assumption.
      - destruct Hq as (q & Hq1 & Hq2). exists q. split; [right; exact Hq1 | exact Hq2].
      - destruct H as [H | H]; [subst p0; lra | apply (Hdone p0 H H0)].
      - destruct H as [H | H]; [subst p0; lra | apply (Hdone p0 H H0)]. }
    apply included_false in Einc. inversion Einc as [| ? ? Hnin _]; subst. simpl in Hnin.
    assert (Hhp : hi < p).
    { apply Qnot_le_lt. intros Hle. apply Hnin. split; lra. }
    unfold bind at 1. rewrite Hpp.
    destruct (interval_safe a0 p p) eqn:Esafe; simpl.
    2:{ exists [(lo, hi)], w1. split; [reflexivity |]. right.
        apply interval_safe_false in Esafe.
        exists lo, hi. split; [reflexivity |]. repeat split; try assumption; try lra.
        - destruct Hq as (q & Hq1 & Hq2). exists q. split; [right; exact Hq1 | exact Hq2].
        - destruct H as [H | H]; [subst p0; contradiction | apply (Hdone p0 H H0)].
        - destruct H as [H | H]; [subst p0; contradiction | apply (Hdone p0 H H0)]. }
    apply interval_safe_true in Esafe. destruct Esafe as [Hs1 Hs2].
    destruct (no_nan_run lo p w1) as [w2 Hext].
    assert (Et : interval_safe a0 lo p = true).
    { apply interval_safe_true. split; assumption. }
    rewrite Et in Hext.
    exists [(lo, p)], w2. split.
    + unfold bind. rewrite Hext. reflexivity.
    + right. exists lo, p. split; [reflexivity |]. repeat split; try assumption; try lra.
      * destruct Hq as (q & Hq1 & Hq2). exists q. split; [right; exact Hq1 | exact Hq2].
      * destruct H as [H | H]; [subst p0; lra | apply (Hdone p0 H H0)].
      * destruct H as [H | H]; [subst p0; lra |].
        destruct (Hdone p0 H H0). lra.
Qed.

Lemma get_range_loop_interval points : forall b done vr w,
  interval_inv a0 b done vr ->
  StronglySorted Qle points ->
  Forall (fun p => b <= p /\ -1 <= p /\ p <= 1) points ->
  exists b' vr' w',
    get_range_loop points vr w = (Ok vr', w') /\
    interval_inv a0 b' (rev points ++ done) vr'.
Proof.
  induction points as [| p points IH]; intros b done vr w Hinv Hs Hf.
  - exists b, vr, w. split; [reflexivity | exact Hinv].
  - inversion Hs as [| ? ? Hs' Hle]; subst.
    inversion Hf as [| ? ? (Hbp & Hp1 & Hp2) Hf']; subst.
    destruct (get_range_step_interval b done vr p w Hinv Hbp Hp1 Hp2)
      as (vr1 & w1 & Hstep & Hinv1).
    destruct (IH p (p :: done) vr1 w1 Hinv1 Hs') as (b' & vr' & w' & Hloop & Hinv').
    { apply Forall_forall. intros q Hq. rewrite Forall_forall in Hle, Hf'.
      destruct (Hf' q Hq) as (_ & H1 & H2). split; [apply Hle; exact Hq | split; assumption]. }
    exists b', vr', w'. split.
    + simpl. unfold bind. rewrite Hstep. exact Hloop.
    + simpl. rewrite <- app_assoc. exact Hinv'.
Qed.

Lemma infer_domain_interval m w :
  exists res w',
    infer_domain m w = (Ok res, w') /\
    ((a0 < 1 # 9 /\ res = None) \/
     (1 # 9 <= a0 /\
      exists lo hi, res = Some [(lo, hi)] /\
        - a0 <= lo /\ lo < - a0 + (2 # 9) /\
        a0 - (2 # 9) < hi /\ hi <= a0 /\
        forall p, In p a -> - a0 <= p -> p <= a0 -> in_range p (lo, hi))).
Proof.
  unfold infer_domain, bind.
  pose proof (load_ok m w) as Hload.
  destruct (load_model m w) as [res0 w0]. simpl in Hload. subst res0.
  destruct (no_nan_run 0 1 w0) as [w1 H01]. rewrite H01.
  assert (E01 : interval_safe a0 0 1 = false).
  { apply interval_safe_false. intros [_ H]. lra. }
  rewrite E01.
  destruct (get_range_loop_interval a (-1) [] [] w1) as (b' & vr' & w' & Hloop & Hinv).
  { left. split; [reflexivity | intros p []]. }
  { exact a_sorted. }
  { apply Forall_forall. intros p Hp. destruct (a_bounds p Hp). repeat split; assumption. }
  rewrite app_nil_r in Hinv.
  assert (Hin : forall p, In p (rev a) <-> In p a).
  { intros p. symmetry. apply in_rev. }
  unfold _get_range, bind. rewrite Hloop.
  destruct Hinv as [[Evr Hdone] | (lo & hi & Evr & Hlo & Hlob & Hlh & Hhi & Hq & Hdone)];
    subst vr'.
  - exists None, w'. split; [reflexivity |]. left. split; [| reflexivity].
    apply Qnot_le_lt. intros Hle.
    apply (Hdone (1 # 9)).
    + apply Hin. rewrite a_values. simpl. tauto.
    + unfold safe_point. split; lra.
  - exists (Some [(lo, hi)]), w'. split; [reflexivity |]. right.
    assert (Hge : 1 # 9 <= a0).
    { destruct Hq as (q & Hq1 & Hq2 & Hq3). apply Hin in Hq1.
      rewrite a_values in Hq1. simpl in Hq1.
      repeat (destruct Hq1 as [Hq1 | Hq1]; [subst q; lra |]). contradiction. }
    split; [exact Hge |].
    exists lo, hi. split; [reflexivity |].
    assert (Hseed : forall p, In p a -> - a0 <= p -> p <= a0 -> lo <= p /\ p <= hi).
    { intros p Hp H1 H2. apply Hdone; [apply Hin; exact Hp | split; assumption]. }
    assert (Hmem : forall p, In p [-9 # 9; -7 # 9; -5 # 9; -3 # 9; -1 # 9;
                                   1 # 9; 3 # 9; 5 # 9; 7 # 9; 9 # 9] -> In p a).
    { intros p Hp. rewrite a_values. exact Hp. }
    repeat split; try assumption.
    + destruct (Qlt_le_dec a0 (3 # 9)) as [H3 | H3].
      { destruct (Hseed (-1 # 9)) as [Hx _]; [apply Hmem; simpl; tauto | lra | lra | lra]. }
      destruct (Qlt_le_dec a0 (5 # 9)) as [H5 | H5].
      { destruct (Hseed (-3 # 9)) as [Hx _]; [apply Hmem; simpl; tauto | lra | lra | lra]. }
      destruct (Qlt_le_dec a0 (7 # 9)) as [H7 | H7].
      { destruct (Hseed (-5 # 9)) as [Hx _]; [apply Hmem; simpl; tauto | lra | lra | lra]. }
      destruct (Hseed (-7 # 9)) as [Hx _]; [apply Hmem; simpl; tauto | lra | lra | lra].
    + destruct (Qlt_le_dec a0 (3 # 9)) as [H3 | H3].
      { destruct (Hseed (1 # 9)) as [_ Hx]; [apply Hmem; simpl; tauto | lra | lra | lra]. }
      destruct (Qlt_le_dec a0 (5 # 9)) as [H5 | H5].
      { destruct (Hseed (3 # 9)) as [_ Hx]; [apply Hmem; simpl; tauto | lra | lra | lra]. }
      destruct (Qlt_le_dec a0 (7 # 9)) as [H7 | H7].
      { destruct (Hseed (5 # 9)) as [_ Hx]; [apply Hmem; simpl; tauto | lra | lra | lra]. }
      destruct (Hseed (7 # 9)) as [_ Hx]; [apply Hmem; simpl; tauto | lra | lra | lra].
    + apply Hseed; assumption.
    + apply Hseed; assumption.
Qed.

End IntervalChecker.

(** *** The points probed with [return_on_first] *)

Section BinarySearchProbes.

Context {W : Type}.

Variable pred : Q -> bool.
Variable chk : Q -> M (W * list Q) bool.

Hypothesis chk_probes :
  forall x w log, exists w', chk x (w, log) = (Ok (pred x), (w', log ++ [x])).

Lemma binary_search_loop_probes rof l r wl :
  rof = true ->
  exists x w' ms z,
    rejected_probes r l ms z /\ Forall (fun y => pred y = false) ms /\
    ((window_open z r /\ x = midpoint z r /\ pred x = true /\
      binary_search_loop chk rof l r wl = (Ok x, (w', snd wl ++ ms ++ [x]))) \/
     (~ window_open z r /\ x = r /\
      binary_search_loop chk rof l r wl = (Ok x, (w', snd wl ++ ms)))).
Proof.
  funelim (binary_search_loop chk rof l r wl); intros Hrof.
  - exists r, (fst w), [], l. split; [constructor |]. split; [constructor |].
    right. split; [| split; [reflexivity |]].
    + unfold window_open. intros H. apply (Qlt_not_le _ _ H). assumption.
    + rewrite app_nil_r. destruct w; reflexivity.
  - subst return_on_first. destruct w as [w0 log].
    destruct (chk_probes ((l + r) / 2) w0 log) as [w1 Hc].
    rewrite Hc in Heq. injection Heq as Hp Hw. subst w'.
    exists ((l + r) / 2), w1, [], l. split; [constructor |]. split; [constructor |].
    left. split; [exact Hgt |]. split; [reflexivity |]. split; [exact Hp |].
    reflexivity.
  - destruct w as [w0 log].
    destruct (chk_probes ((l + r) / 2) w0 log) as [w1 Hc].
    rewrite Hc in Heq. injection Heq as Hp Hw. subst w'.
    destruct (H Hrof) as (x & w2 & ms & z & Hms & Hall & Hres).
    exists x, w2, (midpoint l r :: ms), z.
    split; [constructor; [exact Hgt | exact Hms] |].
    split; [constructor; [exact Hp | exact Hall] |].
    simpl snd in *.
    destruct Hres as [(H1 & H2 & H3 & H4) | (H1 & H2 & H4)]; [left | right].
    + repeat split; try assumption. rewrite H4. rewrite <- app_assoc. reflexivity.
    + repeat split; try assumption. rewrite H4. rewrite <- app_assoc. reflexivity.
  - destruct w as [w0 log].
    destruct (chk_probes ((l + r) / 2) w0 log) as [w1 Hc].
    rewrite Hc in Heq. discriminate.
Qed.

End BinarySearchProbes.

Lemma rejected_probes_bounds r : forall ms l z,
  rejected_probes r l ms z -> l <= r ->
  l <= z /\ z <= r /\ Forall (fun y => l < y /\ y <= z) ms.
Proof.
  induction ms as [| m ms IH]; intros l z H Hlr; inversion H; subst.
  - split; [apply Qle_refl |]. split; [exact Hlr | constructor].
  - unfold window_open, EPS in *.
    destruct (mid_bounds l r Hlr) as [Hm1 Hm2].
    assert (Hlt : l < midpoint l r).
    { unfold midpoint. apply Qlt_shift_div_l; [reflexivity | lra]. }
    destruct (IH _ _ H5 Hm2) as (Hz1 & Hz2 & Hall). fold (midpoint l r) in *.
    split; [lra |]. split; [exact Hz2 |].
    constructor; [split; assumption |].
    eapply Forall_impl; [| exact Hall]. intros y [Hy1 Hy2]. split; lra.
Qed.

Lemma probing_probes {W} (pred : Q -> bool) (checker : Q -> M W bool) :
  (forall x w, fst (checker x w) = Ok (pred x)) ->
  forall x w log, exists w', probing checker x (w, log) = (Ok (pred x), (w', log ++ [x])).
Proof.
  intros Hc x w log. unfold probing. pose proof (Hc x w) as H.
  destruct (checker x w) as [res w']. simpl in H. subst res. exists w'. reflexivity.
Qed.

Lemma binary_search_probes {W} (pred : Q -> bool) (checker : Q -> M W bool) l r w :
  (forall x w0, fst (checker x w0) = Ok (pred x)) ->
  pred l = false -> l < r ->
  exists x w' ms z,
    rejected_probes r l ms z /\ Forall (fun y => pred y = false) ms /\
    ((window_open z r /\ x = midpoint z r /\ pred x = true /\
      binary_search l r (probing checker) true (w, []) = (Ok x, (w', l :: ms ++ [x]))) \/
     (~ window_open z r /\ x = r /\
      binary_search l r (probing checker) true (w, []) = (Ok x, (w', l :: ms)))) /\
    l < x /\ x <= r.
Proof.
  intros Hc Hl Hlr.
  pose proof (probing_probes pred checker Hc) as Hp.
  unfold binary_search.
  assert (E : Qeq_bool l r = false).
  { destruct (Qeq_bool l r) eqn:E; [| reflexivity]. apply Qeq_bool_iff in E. lra. }
  rewrite E. unfold bind.
  destruct (Hp l w []) as [w1 Hcl]. rewrite Hcl, Hl. simpl app.
  destruct (binary_search_loop_probes pred (probing checker) Hp true l r (w1, [l]) eq_refl)
    as (x & w2 & ms & z & Hms & Hall & Hres).
  exists x, w2, ms, z. split; [exact Hms |]. split; [exact Hall |].
  destruct (rejected_probes_bounds r ms l z Hms (Qlt_le_weak _ _ Hlr)) as (Hz1 & Hz2 & _).
  simpl snd in Hres. split.
  - destruct Hres as [(H1 & H2 & H3 & H4) | (H1 & H2 & H4)]; [left | right];
      repeat split; assumption.
  - destruct Hres as [(H1 & H2 & H3 & H4) | (H1 & H2 & H4)]; subst x.
    + unfold window_open, EPS in H1. destruct (mid_bounds z r Hz2) as [Hm1 Hm2].
      unfold midpoint. split; [| exact Hm2].
      apply Qle_lt_trans with z; [exact Hz1 |].
      apply Qlt_shift_div_l; [reflexivity | lra].
    + split; [exact Hlr | apply Qle_refl].
Qed.

(** *** The search for a checker safe exactly inside [[-a0, a0]], in
    terms of the seeds *)

Lemma infer_domain_interval_seeds {Model W : Type} (C : NaNChecker Model W)
    (a0 : Q) (m : Model) (w : W) :
  0 < a0 -> a0 < 1 ->
  (forall m0 w0, fst (@load_model _ _ C m0 w0) = Ok tt) ->
  (forall l r w0, fst (@no_nan _ _ C l r w0) = Ok (interval_safe a0 l r)) ->
  exists res w',
    @infer_domain _ _ C m w = (Ok res, w') /\
    (((forall p, In p a -> ~ safe_point a0 p) /\ res = None) \/
     ((exists p, In p a /\ safe_point a0 p) /\
      exists lo hi, res = Some [(lo, hi)] /\
        - a0 <= lo /\ lo <= hi /\ hi <= a0 /\
        (forall p, In p a -> safe_point a0 p -> in_range p (lo, hi)) /\
        lo - - a0 < 1 # 4 /\ a0 - hi < 1 # 4)).
Proof.
  intros Hpos Hlt Hload Hans.
  destruct (infer_domain_interval a0 Hpos Hlt Hload Hans m w)
    as (res & w' & Hrun & [[Hsmall Hres] | [Hbig (lo & hi & Hres & H1 & H2 & H3 & H4 & H5)]]).
  - exists res, w'. split; [exact Hrun |]. left. split; [| exact Hres].
    intros p Hp [Hs1 Hs2]. rewrite a_values in Hp. simpl in Hp.
    repeat (destruct Hp as [Hp | Hp]; [subst p; lra |]). contradiction.
  - exists res, w'. split; [exact Hrun |]. right. split.
    + exists (1 # 9). split; [rewrite a_values; simpl; tauto | split; lra].
    + exists lo, hi. split; [exact Hres |].
      assert (Hin : In (1 # 9) a) by (rewrite a_values; simpl; tauto).
      destruct (H5 (1 # 9) Hin ltac:(lra) ltac:(lra)) as [Hlo Hhi]. simpl in Hlo, Hhi.
      split; [exact H1 |]. split; [lra |]. split; [exact H4 |].
      split; [| split; lra].
      intros p Hp [Hs1 Hs2]. apply H5; assumption.
Qed.

(** C2 (amended).  [halvings l r] is [ceil (log2 ((r - l) / EPS))], the
    least [k] with [r - l <= EPS * 2 ^ k].
    - Whatever the checker answers, on a window inside the global
      bounds [[L, R]] [binary_search] calls it at most
      [2 + halvings l r] times: once on [l], then once per halving of
      the window, of which one more than [halvings l r] is allowed for.
    - With [return_on_first], the setting [_get_range] uses, on a
      window inside [[L, R]] and for a checker that rejects [l], the
      search probes the midpoint of the last rejected point and [r] for
      as long as that window is wider than [EPS], and returns the first
      probe the checker accepts, or [r] when the window closes first.  For a monotone checker that
      accepts [r], the checker is thus true at the result and right of
      it, and every point probed before lies left of it; the result
      may be far to the right of the transition.
    - For a checker that accepts exactly the ranges inside [[-a, a]],
      [0 < a < 1], [infer_domain] returns [None] when no seed point lies
      in [[-a, a]]; otherwise it returns one range [(lo, hi)] inside
      [[-a, a]] that contains every seed point of [[-a, a]], so that
      each bound is within 1/4, a little more than the spacing of the
      seeds, of [-a] and [a]. *)
Theorem binary_search_cost_and_domain :
  (forall l r,
     r - l <= EPS * inject_Z (2 ^ Z.of_nat (halvings l r)) /\
     forall k : nat, r - l <= EPS * inject_Z (2 ^ Z.of_nat k) -> (halvings l r <= k)%nat) /\
  (forall (W : Type) (checker : Q -> M W bool) rof l r w n,
     L <= l -> l <= r -> r <= R ->
     (snd (snd (binary_search l r (counted checker) rof (w, n)))
      <= n + 2 + halvings l r)%nat) /\
  (forall (W : Type) (pred : Q -> bool) (checker : Q -> M W bool) l r w,
     (forall x w0, fst (checker x w0) = Ok (pred x)) ->
     L <= l -> r <= R ->
     pred l = false -> l < r ->
     exists x w' ms z,
       rejected_probes r l ms z /\ Forall (fun y => pred y = false) ms /\
       ((window_open z r /\ x = midpoint z r /\ pred x = true /\
         binary_search l r (probing checker) true (w, []) = (Ok x, (w', l :: ms ++ [x]))) \/
        (~ window_open z r /\ x = r /\
         binary_search l r (probing checker) true (w, []) = (Ok x, (w', l :: ms)))) /\
       l < x /\ x <= r /\
       ((forall u v, u <= v -> pred u = true -> pred v = true) -> pred r = true ->
        pred x = true /\ (forall v, x <= v -> pred v = true) /\
        Forall (fun y => y < x) (l :: ms))) /\
  (forall (Model W : Type) (C : NaNChecker Model W) (a0 : Q) (m : Model) (w : W),
     0 < a0 -> a0 < 1 ->
     (forall m0 w0, fst (@load_model _ _ C m0 w0) = Ok tt) ->
     (forall l r w0, fst (@no_nan _ _ C l r w0) = Ok (interval_safe a0 l r)) ->
     exists res w',
       @infer_domain _ _ C m w = (Ok res, w') /\
       (((forall p, In p a -> ~ safe_point a0 p) /\ res = None) \/
        ((exists p, In p a /\ safe_point a0 p) /\
         exists lo hi, res = Some [(lo, hi)] /\
           - a0 <= lo /\ lo <= hi /\ hi <= a0 /\
           (forall p, In p a -> safe_point a0 p -> in_range p (lo, hi)) /\
           lo - - a0 < 1 # 4 /\ a0 - hi < 1 # 4))).
Proof.
  split; [| split; [| split]].
  - intros l r. split; [apply halvings_spec | apply halvings_least].
  - intros W checker rof l r w n _ _ _.
    pose proof (binary_search_calls (counted checker) (counted_counts checker) rof l r (w, n))
      as H. simpl in H. lia.
  - intros W pred checker l r w Hc _ _ Hl Hlr.
    destruct (binary_search_probes pred checker l r w Hc Hl Hlr)
      as (x & w' & ms & z & Hms & Hall & Hres & Hx1 & Hx2).
    exists x, w', ms, z.
    split; [exact Hms |]. split; [exact Hall |]. split; [exact Hres |].
    split; [exact Hx1 |]. split; [exact Hx2 |].
    intros Hmono Hr.
    assert (Hpx : pred x = true).
    { destruct Hres as [(_ & _ & H3 & _) | (_ & H2 & _)]; [exact H3 | subst x; exact Hr]. }
    split; [exact Hpx |]. split.
    + intros v Hv. apply (Hmono x v Hv Hpx).
    + constructor; [exact Hx1 |].
      eapply Forall_impl; [| exact Hall]. simpl. intros y Hy.
      apply Qnot_le_lt. intros Hle. rewrite (Hmono x y Hle Hpx) in Hy. discriminate.
  - intros Model W C a0 m w. apply infer_domain_interval_seeds.
Qed.

Lemma binary_search_cost_and_domain_witness :
  (snd (snd (binary_search (1 # 10) (356 # 1000) (counted (threshold 1)) true (tt, 0%nat)))
   <= 0 + 2 + halvings (1 # 10) (356 # 1000))%nat /\
  (exists x w' ms z,
     rejected_probes (-1 # 3) (-10) ms z /\
     Forall (fun y => Qle_bool (-1 # 2) y = false) ms /\
     ((window_open z (-1 # 3) /\ x = midpoint z (-1 # 3) /\ Qle_bool (-1 # 2) x = true /\
       binary_search (-10) (-1 # 3) (probing (threshold (-1 # 2))) true (tt, [])
       = (Ok x, (w', -10 :: ms ++ [x]))) \/
      (~ window_open z (-1 # 3) /\ x = -1 # 3 /\
       binary_search (-10) (-1 # 3) (probing (threshold (-1 # 2))) true (tt, [])
       = (Ok x, (w', -10 :: ms)))) /\
     -10 < x /\ x <= -1 # 3 /\
     ((forall u v, u <= v -> Qle_bool (-1 # 2) u = true -> Qle_bool (-1 # 2) v = true) ->
      Qle_bool (-1 # 2) (-1 # 3) = true ->
      Qle_bool (-1 # 2) x = true /\ (forall v, x <= v -> Qle_bool (-1 # 2) v = true) /\
      Forall (fun y => y < x) (-10 :: ms))) /\
  (exists res w',
     @infer_domain _ _ (pure_checker (interval_safe (1 # 2))) tt 0%nat = (Ok res, w') /\
     (((forall p, In p a -> ~ safe_point (1 # 2) p) /\ res = None) \/
      ((exists p, In p a /\ safe_point (1 # 2) p) /\
       exists lo hi, res = Some [(lo, hi)] /\
         - (1 # 2) <= lo /\ lo <= hi /\ hi <= 1 # 2 /\
         (forall p, In p a -> safe_point (1 # 2) p -> in_range p (lo, hi)) /\
         lo - - (1 # 2) < 1 # 4 /\ (1 # 2) - hi < 1 # 4))).
Proof.
  destruct binary_search_cost_and_domain as (_ & Hcost & Hprobe & Hdom).
  split; [| split].
  - apply Hcost; discriminate.
  - apply (Hprobe unit (fun x => Qle_bool (-1 # 2) x) (threshold (-1 # 2)) (-10) (-1 # 3) tt).
    + intros x w0. reflexivity.
    + apply Qle_refl.
    + discriminate.
    + reflexivity.
    + reflexivity.
  - apply (Hdom unit nat (pure_checker (interval_safe (1 # 2))) (1 # 2) tt 0%nat).
    + reflexivity.
    + reflexivity.
    + intros m0 w0. reflexivity.
    + intros l r w0. reflexivity.
Defined.

(** C2, as stated, fails on each count.  With a window of [2 * EPS] and
    the transition at its right end, [binary_search] calls the checker
    twice, one more than [ceil (log2 2) = 1].  On the window
    [[-10, -1/3]] with the transition at [-1/2] it returns [-31/64], and
    the checker is already true at [-31/64 - EPS].  For the checker that
    accepts exactly the ranges inside [[-1/2, 1/2]], [infer_domain]
    returns the range [(-31/64, 1/3)], whose bounds are 1/64 and 1/6
    away from [-1/2] and [1/2]. *)
Lemma binary_search_not_within_eps :
  (snd (snd (binary_search 0 (2 # 1000) (counted (threshold (2 # 1000))) true (tt, 0%nat)))
   = 2%nat /\ halvings 0 (2 # 1000) = 1%nat) /\
  (exists x,
     binary_search (-10) (-1 # 3) (threshold (-1 # 2)) true tt = (Ok x, tt) /\
     x == -31 # 64 /\
     Qle_bool (-1 # 2) (x - EPS) = true /\ ~ (x - (-1 # 2) <= EPS)) /\
  (exists lo hi w',
     @infer_domain _ _ (pure_checker (interval_safe (1 # 2))) tt 0%nat
       = (Ok (Some [(lo, hi)]), w') /\
     lo == -31 # 64 /\ hi == 1 # 3 /\
     ~ (lo - - (1 # 2) <= EPS) /\ ~ ((1 # 2) - hi <= EPS)).
Proof.
  split; [| split].
  - split; reflexivity.
  - eexists. split; [vm_compute; reflexivity |].
    split; [reflexivity |]. split; [reflexivity |]. intros H. apply H. reflexivity.
  - eexists. eexists. eexists. split; [vm_compute; reflexivity |].
    split; [reflexivity |]. split; [reflexivity |].
    split; intros H; apply H; reflexivity.
Qed.

(** ** Conversion to binary32 *)

Lemma Qround_even_bounds x :
  (Qfloor x <= Qround_even x <= Qfloor x + 1)%Z.
Proof.
  unfold Qround_even. destruct (Qcompare (x - inject_Z (Qfloor x)) (1 # 2)); [| lia | lia].
  destruct (Z.even (Qfloor x)); lia.
Qed.

Lemma Qround_even_le_Z x (n : Z) : x <= inject_Z n -> (Qround_even x <= n)%Z.
Proof.
  intros H.
  assert (Hf : (Qfloor x <= n)%Z).
  { apply Qfloor_resp_le in H. rewrite Qfloor_Z in H. exact H. }
  destruct (Z.eq_dec (Qfloor x) n) as [E | E].
  - assert (Hx : x == inject_Z n).
    { apply Qle_antisym; [exact H |]. rewrite <- E. apply Qfloor_le. }
    unfold Qround_even. rewrite E.
    assert (Hc : Qcompare (x - inject_Z n) (1 # 2) = Lt).
    { apply Qlt_alt. rewrite Hx. unfold Qminus. rewrite Qplus_opp_r. reflexivity. }
    rewrite Hc. lia.
  - pose proof (Qround_even_bounds x). lia.
Qed.

Lemma Qround_even_ge_Z x (n : Z) : inject_Z n <= x -> (n <= Qround_even x)%Z.
Proof.
  intros H. apply Qfloor_resp_le in H. rewrite Qfloor_Z in H.
  pose proof (Qround_even_bounds x). lia.
Qed.

Lemma Qround_even_mono x y : x <= y -> (Qround_even x <= Qround_even y)%Z.
Proof.
  intros H.
  assert (Hf : (Qfloor x <= Qfloor y)%Z) by (apply Qfloor_resp_le; exact H).
  pose proof (Qround_even_bounds x) as Bx. pose proof (Qround_even_bounds y) as By.
  destruct (Z.eq_dec (Qfloor x) (Qfloor y)) as [E | E]; [| lia].
  unfold Qround_even. rewrite <- E.
  assert (Hd : x - inject_Z (Qfloor x) <= y - inject_Z (Qfloor x)) by lra.
  destruct (Qcompare (x - inject_Z (Qfloor x)) (1 # 2)) eqn:Cx;
    destruct (Qcompare (y - inject_Z (Qfloor x)) (1 # 2)) eqn:Cy;
    try (destruct (Z.even (Qfloor x))); try lia; exfalso;
    first [apply Qeq_alt in Cx | apply Qlt_alt in Cx | apply Qgt_alt in Cx];
    first [apply Qeq_alt in Cy | apply Qlt_alt in Cy | apply Qgt_alt in Cy];
    set (a := x - inject_Z (Qfloor x)) in *; set (b := y - inject_Z (Qfloor x)) in *;
    lra.
Qed.

Lemma float32_units_nonneg s : 0 <= s -> (0 <= float32_units s)%Z.
Proof.
  intros Hs. unfold float32_units.
  set (j := Z.max 0 (Z.log2 (Qfloor s) - 23)).
  assert (Hj : (0 <= j)%Z) by (unfold j; lia).
  assert (Hp : (0 < 2 ^ j)%Z) by (apply Z.pow_pos_nonneg; lia).
  apply Z.mul_nonneg_nonneg; [| lia].
  apply Qround_even_ge_Z.
  apply Qle_shift_div_l.
  - change 0 with (inject_Z 0). rewrite <- Zlt_Qlt. exact Hp.
  - change (inject_Z 0) with 0. rewrite Qmult_0_l. exact Hs.
Qed.

Lemma float32_units_upper s :
  0 <= s ->
  (float32_units s <= 2 ^ (Z.max 0 (Z.log2 (Qfloor s) - 23) + 24))%Z.
Proof.
  intros Hs. unfold float32_units.
  set (N := Qfloor s). set (j := Z.max 0 (Z.log2 N - 23)).
  assert (Hj : (0 <= j)%Z) by (unfold j; lia).
  assert (Hp : (0 < 2 ^ j)%Z) by (apply Z.pow_pos_nonneg; lia).
  assert (HN : (0 <= N)%Z).
  { unfold N. apply Qfloor_resp_le in Hs. exact Hs. }
  assert (HN1 : (N + 1 <= 2 ^ (j + 24))%Z).
  { destruct (Z.eq_dec N 0) as [E | E].
    - rewrite E. assert ((2 ^ 0 <= 2 ^ (j + 24))%Z) by (apply Z.pow_le_mono_r; lia).
      simpl in *. lia.
    - assert (H0 : (0 < N)%Z) by lia.
      pose proof (Z.log2_spec N H0) as [_ Hlt].
      assert ((2 ^ Z.succ (Z.log2 N) <= 2 ^ (j + 24))%Z)
        by (apply Z.pow_le_mono_r; unfold j; lia).
      lia. }
  rewrite Z.pow_add_r by lia. rewrite (Z.mul_comm (2 ^ j)).
  apply Z.mul_le_mono_nonneg_r; [lia |].
  apply Qround_even_le_Z.
  apply Qle_shift_div_r.
  - change 0 with (inject_Z 0). rewrite <- Zlt_Qlt. exact Hp.
  - rewrite <- inject_Z_mult, <- Z.pow_add_r by lia.
    apply Qle_trans with (inject_Z (N + 1)).
    + apply Qlt_le_weak. unfold N. apply Qlt_floor.
    + rewrite <- Zle_Qle. rewrite (Z.add_comm 24). exact HN1.
Qed.

Lemma float32_units_lower s :
  0 <= s ->
  (1 <= Z.log2 (Qfloor s) - 23)%Z ->
  (2 ^ (Z.log2 (Qfloor s)) <= float32_units s)%Z.
Proof.
  intros Hs Hj1. unfold float32_units.
  set (N := Qfloor s) in *. set (j := Z.max 0 (Z.log2 N - 23)).
  assert (Ej : j = (Z.log2 N - 23)%Z) by (unfold j; lia).
  assert (Hj : (0 <= j)%Z) by lia.
  assert (Hp : (0 < 2 ^ j)%Z) by (apply Z.pow_pos_nonneg; lia).
  assert (H0 : (0 < N)%Z).
  { destruct (Z_lt_le_dec 0 N) as [H | H]; [exact H |].
    rewrite Z.log2_nonpos in Hj1 by exact H. lia. }
  pose proof (Z.log2_spec N H0) as [Hle _].
  replace (Z.log2 N) with (23 + j)%Z at 1 by lia.
  rewrite Z.pow_add_r by lia.
  apply Z.mul_le_mono_nonneg_r; [lia |].
  apply Qround_even_ge_Z.
  apply Qle_shift_div_l.
  - change 0 with (inject_Z 0). rewrite <- Zlt_Qlt. exact Hp.
  - rewrite <- inject_Z_mult, <- Z.pow_add_r by lia.
    replace (23 + j)%Z with (Z.log2 N) by lia.
    apply Qle_trans with (inject_Z N).
    + rewrite <- Zle_Qle. exact Hle.
    + unfold N. apply Qfloor_le.
Qed.

Lemma float32_units_mono s1 s2 :
  0 <= s1 -> s1 <= s2 -> (float32_units s1 <= float32_units s2)%Z.
Proof.
  intros H1 H12.
  assert (H2 : 0 <= s2) by lra.
  assert (HN : (Qfloor s1 <= Qfloor s2)%Z) by (apply Qfloor_resp_le; exact H12).
  assert (HN0 : (0 <= Qfloor s1)%Z) by (apply Qfloor_resp_le in H1; exact H1).
  assert (Hlog : (Z.log2 (Qfloor s1) <= Z.log2 (Qfloor s2))%Z)
    by (apply Z.log2_le_mono; exact HN).
  destruct (Z.eq_dec (Z.max 0 (Z.log2 (Qfloor s1) - 23)) (Z.max 0 (Z.log2 (Qfloor s2) - 23)))
    as [E | E].
  - unfold float32_units. rewrite E.
    set (j := Z.max 0 (Z.log2 (Qfloor s2) - 23)).
    assert (Hp : (0 < 2 ^ j)%Z) by (apply Z.pow_pos_nonneg; unfold j; lia).
    apply Z.mul_le_mono_nonneg_r; [lia |].
    apply Qround_even_mono.
    apply Qmult_le_compat_r; [exact H12 |].
    apply Qinv_le_0_compat. change 0 with (inject_Z 0). rewrite <- Zle_Qle. lia.
  - pose proof (float32_units_upper s1 H1) as Hu.
    assert (Hj2 : (1 <= Z.log2 (Qfloor s2) - 23)%Z) by lia.
    pose proof (float32_units_lower s2 H2 Hj2) as Hl.
    assert ((2 ^ (Z.max 0 (Z.log2 (Qfloor s1) - 23) + 24) <= 2 ^ Z.log2 (Qfloor s2))%Z)
      by (apply Z.pow_le_mono_r; lia).
    lia.
Qed.

Lemma float32_units_comp s1 s2 :
  0 <= s1 -> s1 == s2 -> float32_units s1 = float32_units s2.
Proof.
  intros H1 E.
  assert (H2 : 0 <= s2) by lra.
  apply Z.le_antisymm; apply float32_units_mono; lra.
Qed.

Lemma float32_round_mono x y : x <= y -> (float32_round x <= float32_round y)%Z.
Proof.
  intros Hxy. unfold float32_round.
  assert (HK : 0 < inject_Z (2 ^ 149)) by reflexivity.
  assert (Hax : 0 <= Qabs x * inject_Z (2 ^ 149)).
  { apply Qmult_le_0_compat; [apply Qabs_nonneg | lra]. }
  assert (Hay : 0 <= Qabs y * inject_Z (2 ^ 149)).
  { apply Qmult_le_0_compat; [apply Qabs_nonneg | lra]. }
  pose proof (float32_units_nonneg _ Hax) as Hux.
  pose proof (float32_units_nonneg _ Hay) as Huy.
  destruct (Qle_bool 0 x) eqn:Ex; destruct (Qle_bool 0 y) eqn:Ey.
  - apply Qle_bool_iff in Ex. apply Qle_bool_iff in Ey.
    apply float32_units_mono; [exact Hax |].
    rewrite (Qabs_pos x Ex), (Qabs_pos y Ey).
    apply Qmult_le_compat_r; lra.
  - apply Qle_bool_iff in Ex.
    assert (Hy : ~ 0 <= y) by (intros H; apply Qle_bool_iff in H; congruence).
    exfalso. apply Hy. lra.
  - lia.
  - assert (Hx : ~ 0 <= x) by (intros H; apply Qle_bool_iff in H; congruence).
    assert (Hy : ~ 0 <= y) by (intros H; apply Qle_bool_iff in H; congruence).
    apply Qnot_le_lt in Hx. apply Qnot_le_lt in Hy.
    apply Z.opp_le_mono. rewrite !Z.opp_involutive.
    apply float32_units_mono; [exact Hay |].
    rewrite (Qabs_neg x), (Qabs_neg y) by lra.
    apply Qmult_le_compat_r; lra.
Qed.

Lemma is_float32_round x :
  is_float32 x = true ->
  (- 2 ^ 277 < float32_round x < 2 ^ 277)%Z /\
  inject_Z (float32_round x) / inject_Z (2 ^ 149) == x.
Proof.
  unfold is_float32, float32_of.
  destruct (2 ^ 277 <=? float32_round x)%Z eqn:E1; [discriminate |].
  destruct (float32_round x <=? - 2 ^ 277)%Z eqn:E2; [discriminate |].
  intros H. apply Qeq_bool_iff in H.
  apply Z.leb_gt in E1. apply Z.leb_gt in E2. split; [lia | exact H].
Qed.

(** Rounding to binary32 is monotone, so a value between two binary32
    numbers is rounded to a number between them. *)
Lemma float32_of_within l r q :
  is_float32 l = true -> is_float32 r = true ->
  l <= q -> q <= r ->
  exists y, float32_of q = Fin y /\ l <= y /\ y <= r.
Proof.
  intros Hl Hr Hlq Hqr.
  destruct (is_float32_round l Hl) as [Bl El].
  destruct (is_float32_round r Hr) as [Br Er].
  pose proof (float32_round_mono l q Hlq) as M1.
  pose proof (float32_round_mono q r Hqr) as M2.
  unfold float32_of.
  assert (E1 : (2 ^ 277 <=? float32_round q)%Z = false) by (apply Z.leb_gt; lia).
  assert (E2 : (float32_round q <=? - 2 ^ 277)%Z = false) by (apply Z.leb_gt; lia).
  rewrite E1, E2. eexists. split; [reflexivity |].
  assert (HK : 0 < inject_Z (2 ^ 149)) by reflexivity.
  split.
  - rewrite <- El. apply Qmult_le_compat_r.
    + rewrite <- Zle_Qle. exact M1.
    + apply Qinv_le_0_compat. lra.
  - rewrite <- Er. apply Qmult_le_compat_r.
    + rewrite <- Zle_Qle. exact M2.
    + apply Qinv_le_0_compat. lra.
Qed.

Lemma float32_of_not_nan x : float32_of x <> NaN.
Proof.
  unfold float32_of.
  destruct (2 ^ 277 <=? float32_round x)%Z; [discriminate |].
  destruct (float32_round x <=? - 2 ^ 277)%Z; discriminate.
Qed.

Lemma float32_of_comp x y : x == y -> float32_of x = float32_of y.
Proof.
  intros E.
  assert (H : float32_round x = float32_round y).
  { apply Z.le_antisymm; apply float32_round_mono; lra. }
  unfold float32_of. rewrite H. reflexivity.
Qed.

(** The numbers the examples and the global bounds use are binary32
    numbers; 1/10 is not, and is rounded upwards. *)
Lemma float32_examples :
  is_float32 0 = true /\ is_float32 1 = true /\
  is_float32 L = true /\ is_float32 R = true /\
  is_float32 (1 # 10) = false /\
  float32_of (1 # 10) = Fin (inject_Z (13421773 * 2 ^ 122) / inject_Z (2 ^ 149)).
Proof. vm_compute. repeat split. Qed.

(** ** The sampler (C8) *)

Lemma array_from_mono l r l' r' sh arr :
  l' <= l -> r <= r' -> array_from l r sh arr -> array_from l' r' sh arr.
Proof.
  intros Hl Hr (H1 & H2 & H3 & H4). repeat split; try assumption.
  eapply Forall_impl; [| exact H4].
  intros x (q & Hq1 & Hq2 & Hx). exists q. repeat split; [lra | lra | exact Hx].
Qed.

Lemma array_from_of l r sh arr :
  array_from l r sh arr -> exact_bounds sh.(dtype) l r -> array_of l r sh arr.
Proof.
  intros (H1 & H2 & H3 & H4) Hex. repeat split; try assumption.
  intros Hf. eapply Forall_impl; [| exact H4].
  intros x (q & Hq1 & Hq2 & Hx). subst x.
  destruct sh.(dtype); try discriminate; simpl in *.
  - destruct Hex as [Hl Hr].
    destruct (float32_of_within l r q Hl Hr Hq1 Hq2) as (y & Hy & Hy1 & Hy2).
    exists y. repeat split; assumption.
  - exists q. repeat split; assumption.
Qed.

Lemma range_overflows_small l r :
  L <= l -> l <= r -> r <= R -> range_overflows l r = false.
Proof.
  intros H1 H2 H3. unfold range_overflows.
  destruct (Qle_bool (inject_Z (2 ^ 1024 - 2 ^ 970)) (Qabs (r - l))) eqn:E; [| reflexivity].
  apply Qle_bool_iff in E. rewrite Qabs_pos in E by lra.
  assert (Hbig : 20 < inject_Z (2 ^ 1024 - 2 ^ 970)) by reflexivity.
  unfold L, R in *. lra.
Qed.

Section SamplerProperties.

Context {G : Type} {RS : RandomState G}.

Lemma uniform_draws_spec n low high : forall g xs g',
  low <= high ->
  uniform_draws n low high g = (xs, g') ->
  List.length xs = n /\ Forall (fun x => low <= x /\ x <= high) xs.
Proof.
  induction n as [| n IH]; intros g xs g' Hlh; simpl.
  - intros H. inv_pair H. split; [reflexivity | constructor].
  - pose proof (random_sample_unit g) as [Hu0 Hu1].
    destruct (random_sample g) as [u g1]. simpl in Hu0, Hu1.
    destruct (uniform_draws n low high g1) as [rest g2] eqn:E.
    intros H. inv_pair H.
    destruct (IH g1 rest g' Hlh E) as [Hlen Hall].
    split; [simpl; rewrite Hlen; reflexivity |].
    constructor; [| exact Hall]. split; nra.
Qed.

Lemma np_random_uniform_ok l r size g xs g' :
  np_random_uniform l r size g = (Ok xs, g') ->
  range_overflows l r = false /\
  existsb (fun d => (d <? 0)%Z) size = false /\
  uniform_draws (numel size) l r g = (xs, g').
Proof.
  unfold np_random_uniform.
  destruct (range_overflows l r); [discriminate |].
  destruct (existsb (fun d => (d <? 0)%Z) size); [discriminate |].
  destruct (uniform_draws (numel size) l r g) as [ys g1].
  intros H. inv_pair H. repeat split.
Qed.

Lemma np_random_uniform_array l r sh g xs g' :
  l <= r ->
  np_random_uniform l r sh.(shape) g = (Ok xs, g') ->
  array_from l r sh {| nd_shape := sh.(shape); nd_dtype := sh.(dtype);
                       nd_data := map (astype sh.(dtype)) xs |}.
Proof.
  intros Hlr H. apply np_random_uniform_ok in H. destruct H as (_ & _ & E).
  destruct (uniform_draws_spec _ _ _ _ _ _ Hlr E) as [Hlen Hall].
  unfold array_from. simpl. repeat split.
  - rewrite length_map. exact Hlen.
  - apply Forall_map. eapply Forall_impl; [| exact Hall].
    intros q [H1 H2]. exists q. repeat split; assumption.
Qed.

Lemma dict_set_in {V} (d : dict V) k v k0 v0 :
  In (k0, v0) (dict_set d k v) -> (k0 = k /\ v0 = v) \/ In (k0, v0) d.
Proof.
  induction d as [| [k' v'] d IH]; simpl.
  - intros [H | []]. inversion H. left. split; reflexivity.
  - destruct (String.eqb k' k) eqn:E.
    + apply String.eqb_eq in E. subst k'.
      intros [H | H]; [inversion H; left; split; reflexivity | right; right; exact H].
    + intros [H | H]; [right; left; exact H |].
      destruct (IH H) as [H' | H']; [left; exact H' | right; right; exact H'].
Qed.

Lemma gen_one_input_loop_spec l r items : forall spec inp g inp' g',
  l <= r ->
  (forall name sh, In (name, sh) items -> In (name, sh) spec) ->
  (forall name arr, In (name, arr) inp ->
     exists sh, In (name, sh) spec /\ array_from l r sh arr) ->
  gen_one_input_loop items l r inp g = (Ok inp', g') ->
  forall name arr, In (name, arr) inp' ->
    exists sh, In (name, sh) spec /\ array_from l r sh arr.
Proof.
  induction items as [| [name0 sh0] items IH]; intros spec inp g inp' g' Hlr Hsub Hinp; simpl.
  - unfold ret. intros H. inv_pair H. exact Hinp.
  - unfold bind.
    destruct (np_random_uniform l r sh0.(shape) g) as [[xs | e] g1] eqn:E; [| discriminate].
    apply (IH spec _ g1 inp' g' Hlr).
    + intros name sh Hin. apply Hsub. right. exact Hin.
    + intros name arr Hin. apply dict_set_in in Hin.
      destruct Hin as [[Hn Ha] | Hin]; [| apply Hinp; exact Hin].
      subst name arr. exists sh0. split; [apply Hsub; left; reflexivity |].
      eapply np_random_uniform_array; eassumption.
Qed.

Lemma dict_set_fresh {V} (d : dict V) k v :
  ~ In k (map fst d) -> dict_set d k v = d ++ [(k, v)].
Proof.
  induction d as [| [k' v'] d IH]; simpl; intros Hn.
  - reflexivity.
  - destruct (String.eqb k' k) eqn:E.
    + apply String.eqb_eq in E. exfalso. apply Hn. left. exact E.
    + rewrite IH; [reflexivity |]. intros H. apply Hn. right. exact H.
Qed.

Lemma gen_one_input_loop_ordered l r items : forall acc g inp g',
  l <= r ->
  NoDup (map fst acc ++ map fst items) ->
  gen_one_input_loop items l r acc g = (Ok inp, g') ->
  exists arrs, inp = acc ++ arrs /\ arrays_of l r items arrs.
Proof.
  induction items as [| [name sh] items IH]; intros acc g inp g' Hlr Hnd; simpl.
  - unfold ret. intros H. inv_pair H. exists []. split; [symmetry; apply app_nil_r | constructor].
  - unfold bind.
    destruct (np_random_uniform l r sh.(shape) g) as [[xs | e] g1] eqn:E; [| discriminate].
    intros Hrun.
    assert (Hfresh : ~ In name (map fst acc)).
    { intros Hin. simpl in Hnd. apply NoDup_remove_2 in Hnd. apply Hnd.
      apply in_or_app. left. exact Hin. }
    rewrite (dict_set_fresh acc name _ Hfresh) in Hrun.
    assert (Hnd' : NoDup (map fst (acc ++ [(name,
                        {| nd_shape := sh.(shape); nd_dtype := sh.(dtype);
                           nd_data := map (astype sh.(dtype)) xs |})])
                      ++ map fst items)).
    { rewrite map_app. simpl. rewrite <- app_assoc. simpl. exact Hnd. }
    destruct (IH _ g1 inp g' Hlr Hnd' Hrun) as (arrs & Hinp & Harrs).
    eexists. split.
    + rewrite Hinp, <- app_assoc. simpl. reflexivity.
    + constructor; [| exact Harrs]. split; [reflexivity |].
      eapply np_random_uniform_array; eassumption.
Qed.

Lemma np_random_uniform_total l r size g :
  range_overflows l r = false ->
  Forall (fun d => (0 <= d)%Z) size ->
  exists xs g', np_random_uniform l r size g = (Ok xs, g').
Proof.
  intros Hfin Hv. unfold np_random_uniform. rewrite Hfin.
  assert (E : existsb (fun d => (d <? 0)%Z) size = false).
  { destruct (existsb (fun d => (d <? 0)%Z) size) eqn:E; [| reflexivity].
    apply existsb_exists in E. destruct E as (d & Hin & Hd).
    rewrite Forall_forall in Hv. specialize (Hv d Hin). lia. }
  rewrite E. destruct (uniform_draws (numel size) l r g) as [xs g']. eauto.
Qed.

Lemma gen_one_input_loop_total l r items : forall inp g,
  range_overflows l r = false ->
  valid_shapes items ->
  exists inp' g', gen_one_input_loop items l r inp g = (Ok inp', g').
Proof.
  induction items as [| [name sh] items IH]; intros inp g Hfin Hv; simpl.
  - eexists; eexists; reflexivity.
  - inversion Hv as [| ? ? Hsh Hv']; subst. simpl in Hsh.
    destruct (np_random_uniform_total l r sh.(shape) g Hfin Hsh) as (xs & g1 & E).
    unfold bind. rewrite E. apply IH; assumption.
Qed.

End SamplerProperties.

(** C8 (amended).  For a range with [low <= high] whose width is finite
    in binary64, a seed numpy accepts and an input spec whose shapes
    have no negative dimension, the sampler returns a mapping.  Every
    array of every mapping it returns belongs to a tensor of the spec,
    has its declared shape and dtype and as many elements as the shape
    says, and every element is the conversion to the dtype of a value
    drawn within [[low, high]].  For [float64] the element is that
    value; for [float32] it is the value rounded to binary32, which lies
    within [[low, high]] when the two bounds are binary32 numbers. *)
Theorem gen_one_input_arrays {G : Type} {RS : RandomState G}
    (inp_spec : InputSpec) (l r : Q) (seed : option Z) (g : G) :
  l <= r ->
  (valid_seed seed -> valid_shapes inp_spec -> range_overflows l r = false ->
   exists inp g', gen_one_input inp_spec l r seed g = (Ok inp, g')) /\
  (forall inp g',
     gen_one_input inp_spec l r seed g = (Ok inp, g') ->
     forall name arr, In (name, arr) inp ->
       exists sh, In (name, sh) inp_spec /\ array_from l r sh arr /\
         (exact_bounds sh.(dtype) l r -> array_of l r sh arr)).
Proof.
  intros Hlr. split.
  - intros Hseed Hshapes Hfin. unfold gen_one_input, bind.
    destruct seed as [s |]; simpl in *.
    + unfold np_random_seed.
      assert (E : ((0 <=? s) && (s <? 2 ^ 32))%Z = true).
      { apply andb_true_intro. split; [apply Z.leb_le | apply Z.ltb_lt]; lia. }
      rewrite E. apply gen_one_input_loop_total; assumption.
    + apply gen_one_input_loop_total; assumption.
  - intros inp g' Hrun name arr Hin. unfold gen_one_input, bind in Hrun.
    destruct (match seed with Some s => np_random_seed s | None => ret tt end g)
      as [[[] | e] g1]; [| discriminate].
    destruct (gen_one_input_loop_spec l r inp_spec inp_spec [] g1 inp g' Hlr
                (fun name sh H => H) (fun name arr (H : In (name, arr) []) => match H with end)
                Hrun name arr Hin) as (sh & Hsh & Harr).
    exists sh. split; [exact Hsh |]. split; [exact Harr |].
    apply array_from_of. exact Harr.
Qed.

(** ** The decision procedure of [ORTNaNChecker] (C1, C9) *)

Section Decision.

Context {G E Model : Type} {RS : RandomState G} {EX : Executor Model E}.

Variable THRES : Q.
Variable max_rng_trials : nat.

Local Abbreviation no_nan_loop := (ORTNaNChecker.no_nan_loop (EX := EX) THRES max_rng_trials).
Local Abbreviation decide_loop := (ORTNaNChecker.decide_loop (EX := EX) THRES max_rng_trials).
Local Abbreviation all_trials := (ORTNaNChecker.all_trials (G := G) (EX := EX)).
Local Abbreviation best_ratio := (ORTNaNChecker.best_ratio max_rng_trials).

Lemma no_nan_loop_step l r i rest succ w :
  no_nan_loop l r (i :: rest) succ w =
  match ORTNaNChecker.trial l r w with
  | (Ok ok, w') =>
      let succ' := (succ + (if ok then 1 else 0))%nat in
      if Qlt_le_dec (best_ratio succ' (max_rng_trials - i - 1)) THRES
      then (Ok false, w')
      else no_nan_loop l r rest succ' w'
  | (Raise e, w') => (Raise e, w')
  end.
Proof.
  simpl. unfold ORTNaNChecker.trial, bind.
  destruct (ORTNaNChecker.get_inp_spec w) as [[spec | e] w1]; [| reflexivity].
  destruct (ORTNaNChecker.with_np_random (gen_one_input spec l r None) w1)
    as [[inp | e] w2]; [| reflexivity].
  destruct (ORTNaNChecker.get_model w2) as [[m | e] w3]; [| reflexivity].
  destruct (ORTNaNChecker.with_rf_exe (predict m inp) w3) as [[out | e] w4]; [| reflexivity].
  unfold ret. destruct (has_nan out); simpl;
    destruct (Qlt_le_dec _ THRES); reflexivity.
Qed.

Lemma no_nan_loop_decide l r n : forall i succ w,
  (i + n = max_rng_trials)%nat ->
  (n = 0%nat -> THRES <= best_ratio succ 0) ->
  no_nan_loop l r (seq i n) succ w = decide_loop l r n succ w.
Proof.
  induction n as [| n IH]; intros i succ w Hi Hend.
  - simpl. unfold ret. specialize (Hend eq_refl).
    unfold ORTNaNChecker.best_ratio in Hend. rewrite Nat.add_0_r in Hend.
    apply Qle_bool_iff in Hend. rewrite Hend. reflexivity.
  - change (seq i (S n)) with (i :: seq (S i) n).
    rewrite no_nan_loop_step. simpl. unfold bind.
    replace (max_rng_trials - i - 1)%nat with n by lia.
    destruct (ORTNaNChecker.trial l r w) as [[ok | e] w1]; [| reflexivity].
    destruct (Qlt_le_dec _ THRES) as [Hlt | Hge]; [reflexivity |].
    apply IH; [lia |]. intros Hn. subst n. exact Hge.
Qed.

Lemma ratio_lt_1 (k : nat) :
  (0 < max_rng_trials)%nat -> (k < max_rng_trials)%nat ->
  inject_Z (Z.of_nat k) / inject_Z (Z.of_nat max_rng_trials) < 1.
Proof.
  intros Hmax Hk.
  apply Qlt_shift_div_r.
  - change 0 with (inject_Z 0). rewrite <- Zlt_Qlt. lia.
  - rewrite Qmult_1_l. rewrite <- Zlt_Qlt. lia.
Qed.

Lemma ratio_ge_1 (k : nat) :
  (0 < max_rng_trials)%nat -> (max_rng_trials <= k)%nat ->
  1 <= inject_Z (Z.of_nat k) / inject_Z (Z.of_nat max_rng_trials).
Proof.
  intros Hmax Hk.
  apply Qle_shift_div_l.
  - change 0 with (inject_Z 0). rewrite <- Zlt_Qlt. lia.
  - rewrite Qmult_1_l. rewrite <- Zle_Qle. lia.
Qed.

Lemma no_nan_loop_all_trials l r n : forall i w,
  THRES == 1 ->
  (i + n = max_rng_trials)%nat ->
  no_nan_loop l r (seq i n) i w = all_trials l r n w.
Proof.
  induction n as [| n IH]; intros i w Hthres Hi.
  - reflexivity.
  - change (seq i (S n)) with (i :: seq (S i) n).
    rewrite no_nan_loop_step. simpl. unfold bind.
    replace (max_rng_trials - i - 1)%nat with n by lia.
    destruct (ORTNaNChecker.trial l r w) as [[[|] | e] w1]; [| | reflexivity].
    + destruct (Qlt_le_dec _ THRES) as [Hlt | Hge].
      * exfalso. unfold ORTNaNChecker.best_ratio in Hlt.
        pose proof (ratio_ge_1 (i + 1 + n)) as H. rewrite Hthres in Hlt.
        assert (H1 : (0 < max_rng_trials)%nat) by lia.
        assert (H2 : (max_rng_trials <= i + 1 + n)%nat) by lia.
        specialize (H H1 H2). lra.
      * replace (i + 1)%nat with (S i) by lia. apply IH; [exact Hthres | lia].
    + destruct (Qlt_le_dec _ THRES) as [Hlt | Hge]; [reflexivity |].
      exfalso. unfold ORTNaNChecker.best_ratio in Hge.
      pose proof (ratio_lt_1 (i + 0 + n)) as H. rewrite Hthres in Hge.
      assert (H1 : (0 < max_rng_trials)%nat) by lia.
      assert (H2 : (i + 0 + n < max_rng_trials)%nat) by lia.
      specialize (H H1 H2). lra.
Qed.

End Decision.

Section DecisionCount.

Context {G E Model : Type} {RS : RandomState G} {EX : Executor Model E}.

Variable THRES : Q.
Variable max_rng_trials : nat.

Lemma trial_executions l r w :
  (executions (snd (ORTNaNChecker.trial (EX := counting EX) l r w))
   <= executions w + 1)%nat.
Proof.
  unfold ORTNaNChecker.trial, bind.
  unfold ORTNaNChecker.get_inp_spec at 1.
  destruct (ORTNaNChecker.inp_spec w) as [spec |]; [| simpl; lia].
  unfold ORTNaNChecker.with_np_random at 1.
  destruct (gen_one_input spec l r None (ORTNaNChecker.np_random w)) as [[inp | e] g1];
    [| unfold executions; simpl; lia].
  unfold ORTNaNChecker.get_model at 1. simpl.
  destruct (ORTNaNChecker.model w) as [m |]; [| unfold executions; simpl; lia].
  unfold ORTNaNChecker.with_rf_exe. simpl.
  destruct (ORTNaNChecker.rf_exe w) as [e n] eqn:Ee.
  destruct (predict m inp e) as [[out | err] e'];
    unfold executions; simpl; rewrite Ee; simpl; lia.
Qed.

Lemma no_nan_loop_executions l r trials : forall succ w,
  (executions (snd (ORTNaNChecker.no_nan_loop (EX := counting EX)
                      THRES max_rng_trials l r trials succ w))
   <= executions w + List.length trials)%nat.
Proof.
  induction trials as [| i rest IH]; intros succ w.
  - simpl. lia.
  - rewrite no_nan_loop_step.
    pose proof (trial_executions l r w) as Ht.
    destruct (ORTNaNChecker.trial l r w) as [[ok | e] w1]; simpl in *.
    + destruct (Qlt_le_dec _ THRES); simpl.
      * lia.
      * specialize (IH (succ + (if ok then 1 else 0))%nat w1). lia.
    + lia.
Qed.

End DecisionCount.



(** C9 (amended).  A decision query on a checker to which no model was
    bound raises at the first trial, when it reads the missing
    attribute [inp_spec], provided at least one trial is configured;
    nothing is sampled or executed. *)
Theorem no_nan_unbound {G E Model : Type} {RS : RandomState G}
    (EX : Executor Model E) (THRES : Q) (max_rng_trials : nat)
    (l r : Q) (w : ORTNaNChecker.World G E Model) :
  (0 < max_rng_trials)%nat ->
  ORTNaNChecker.inp_spec w = None ->
  ORTNaNChecker.no_nan (EX := EX) THRES max_rng_trials l r w
  = (Raise (AttributeError "inp_spec"), w).
Proof.
  intros Hmax Hunbound. unfold ORTNaNChecker.no_nan.
  destruct max_rng_trials as [| n]; [lia |].
  change (seq 0 (S n)) with (0%nat :: seq 1 n).
  simpl. unfold bind, ORTNaNChecker.get_inp_spec. rewrite Hunbound. reflexivity.
Qed.

Lemma no_nan_unbound_witness :
  ORTNaNChecker.no_nan (EX := elementwise) 1 3 0 1 fresh_checker
  = (Raise (AttributeError "inp_spec"), fresh_checker).
Proof.
  apply (no_nan_unbound elementwise 1 3 0 1 fresh_checker); [lia | reflexivity].
Defined.

(** C9, as stated, fails: a checker constructed with no trials answers
    true to a query made before any model is bound. *)
Lemma no_nan_unbound_no_trials :
  ORTNaNChecker.no_nan (EX := elementwise) 1 0 0 1 fresh_checker
  = (Ok true, fresh_checker).
Proof. reflexivity. Qed.

(** ** [has_nan] (C5) *)

(** C5 (amended).  [has_nan] is false, so that the trial counts as a
    success, exactly when no output tensor holds a NaN; infinities are
    not looked at. *)
Theorem has_nan_iff (output : dict ndarray) :
  has_nan output = false <->
  forall k o, In (k, o) output -> ~ In NaN o.(nd_data).
Proof.
  unfold has_nan. split.
  - intros H k o Hin Hnan.
    assert (E : existsb (fun ko : string * ndarray => existsb is_nan (snd ko).(nd_data))
                  output = true).
    { apply existsb_exists. exists (k, o). split; [exact Hin |].
      apply existsb_exists. exists NaN. split; [exact Hnan | reflexivity]. }
    congruence.
  - intros H.
    destruct (existsb (fun ko : string * ndarray => existsb is_nan (snd ko).(nd_data))
                output) eqn:E; [| reflexivity].
    apply existsb_exists in E. destruct E as ([k o] & Hin & Hex).
    apply existsb_exists in Hex. destruct Hex as (x & Hx & Hnan).
    destruct x; try discriminate. exfalso. apply (H k o Hin Hx).
Qed.

(** C5, as stated, fails: an output that holds an infinity is not
    reported, and a model that overflows on every input is accepted. *)
Lemma has_nan_ignores_inf :
  has_nan inf_output = false /\
  (exists k o x, In (k, o) inf_output /\ In x o.(nd_data) /\ is_inf x = true) /\
  fst ((ORTNaNChecker.load_model (fun _ => Ok float_spec) overflowing ;;;
        ORTNaNChecker.no_nan (EX := elementwise) 1 3 0 1) fresh_checker)
  = Ok true.
Proof.
  split; [reflexivity |]. split; [| reflexivity].
  eexists. eexists. exists PInf. split; [left; reflexivity |].
  split; [left; reflexivity | reflexivity].
Qed.

(** C8, as stated, fails for an integer dtype: a value drawn in
    [[1/2, 3/4]] is truncated to 0, which is outside the range. *)
Lemma gen_one_input_int_outside :
  exists inp g' arr q,
    gen_one_input int_spec (1 # 2) (3 # 4) None 0%Z = (Ok inp, g') /\
    In ("x"%string, arr) inp /\ arr.(nd_dtype) = int64 /\
    In (Fin q) arr.(nd_data) /\
    ~ (1 # 2 <= q /\ q <= 3 # 4).
Proof.
  eexists. eexists. eexists. eexists.
  split; [vm_compute; reflexivity |].
  split; [left; reflexivity |]. split; [reflexivity |].
  split; [left; reflexivity |].
  intros [H _]. apply H. reflexivity.
Qed.

Lemma gen_one_input_arrays_witness :
  (valid_seed (Some 42%Z) -> valid_shapes float_spec -> range_overflows 0 1 = false ->
   exists inp g', gen_one_input float_spec 0 1 (Some 42%Z) 0%Z = (Ok inp, g')) /\
  (forall inp g',
     gen_one_input float_spec 0 1 (Some 42%Z) 0%Z = (Ok inp, g') ->
     forall name arr, In (name, arr) inp ->
       exists sh, In (name, sh) float_spec /\ array_from 0 1 sh arr /\
         (exact_bounds sh.(dtype) 0 1 -> array_of 0 1 sh arr)).
Proof.
  apply (gen_one_input_arrays float_spec 0 1 (Some 42%Z) 0%Z). discriminate.
Defined.

(** ** Sampling from a set of ranges (C6) *)

(** C6 (amended).  [gen_one_input_rngs]
    - with [None] falls back to the range (0, 1) and returns what the
      sampler returns for it (after one draw of the random index);
    - with a non-empty list draws an index below its length from the
      generator and delegates to the sampler with the range at that
      index;
    - with a path whose file holds a list proceeds as for that list;
    - with the path of a model proceeds as for the spec derived from it. *)
Theorem gen_one_input_rngs_resolution {G Model : Type} {RS : RandomState G}
    (pickle_file : string -> option (option (list Range)))
    (get_onnx_proto : string -> result Model)
    (analyze_onnx_io : Model -> result InputSpec) :
  (forall d seed g,
     gen_one_input_rngs pickle_file get_onnx_proto analyze_onnx_io
       (SpecDict d) RngsNone seed g
     = gen_one_input d 0 1 seed (snd (randint_below 1 g))) /\
  (forall d rngs seed g,
     rngs <> [] ->
     exists rng,
       nth_error rngs
         (Z.to_nat (fst (randint_below (Z.of_nat (List.length rngs)) g))) = Some rng /\
       gen_one_input_rngs pickle_file get_onnx_proto analyze_onnx_io
         (SpecDict d) (RngsList rngs) seed g
       = gen_one_input d (fst rng) (snd rng) seed
           (snd (randint_below (Z.of_nat (List.length rngs)) g))) /\
  (forall spec path rngs seed g,
     pickle_file path = Some (Some rngs) ->
     gen_one_input_rngs pickle_file get_onnx_proto analyze_onnx_io
       spec (RngsPath path) seed g
     = gen_one_input_rngs pickle_file get_onnx_proto analyze_onnx_io
         spec (RngsList rngs) seed g) /\
  (forall path m d rngs seed g,
     get_onnx_proto path = Ok m -> analyze_onnx_io m = Ok d ->
     gen_one_input_rngs pickle_file get_onnx_proto analyze_onnx_io
       (SpecPath path) rngs seed g
     = gen_one_input_rngs pickle_file get_onnx_proto analyze_onnx_io
         (SpecDict d) rngs seed g).
Proof.
  assert (Hlist : forall d rngs seed g,
     rngs <> [] ->
     exists rng,
       nth_error rngs
         (Z.to_nat (fst (randint_below (Z.of_nat (List.length rngs)) g))) = Some rng /\
       gen_one_input_rngs pickle_file get_onnx_proto analyze_onnx_io
         (SpecDict d) (RngsList rngs) seed g
       = gen_one_input d (fst rng) (snd rng) seed
           (snd (randint_below (Z.of_nat (List.length rngs)) g))).
  { intros d rngs seed g Hne.
    assert (Hlen : (0 < Z.of_nat (List.length rngs))%Z).
    { destruct rngs; [contradiction | simpl; lia]. }
    pose proof (randint_below_range (Z.of_nat (List.length rngs)) g Hlen) as Hi.
    destruct (nth_error rngs
                (Z.to_nat (fst (randint_below (Z.of_nat (List.length rngs)) g))))
      as [rng |] eqn:Enth.
    2:{ apply nth_error_None in Enth. lia. }
    exists rng. split; [reflexivity |].
    unfold gen_one_input_rngs, bind, len_rngs, np_random_randint, getitem_rngs, ret.
    cbv beta iota.
    assert (E : (Z.of_nat (List.length rngs) <=? 0)%Z = false) by (apply Z.leb_gt; lia).
    rewrite E.
    destruct (randint_below (Z.of_nat (List.length rngs)) g) as [i g1]. simpl in *.
    cbv beta iota. rewrite Enth. reflexivity. }
  split; [| split; [| split]].
  - intros d seed g.
    destruct (Hlist d [(0, 1)] seed g) as (rng & Hnth & Hrun); [discriminate |].
    simpl List.length in *. change (Z.of_nat 1) with 1%Z in *.
    pose proof (randint_below_range 1 g eq_refl) as Hi.
    replace (fst (randint_below 1 g)) with 0%Z in Hnth by lia.
    simpl in Hnth. inversion Hnth; subst rng. exact Hrun.
  - exact Hlist.
  - intros spec path rngs seed g Hfile.
    unfold gen_one_input_rngs, bind, pickle_load. rewrite Hfile. reflexivity.
  - intros path m d rngs seed g Hproto Hspec.
    unfold gen_one_input_rngs, bind, lift. rewrite Hproto, Hspec.
    destruct rngs; try reflexivity.
Qed.

Lemma gen_one_input_rngs_resolution_witness :
  (exists rng,
     nth_error [(-1, 1); (2, 3)]
       (Z.to_nat (fst (randint_below (Z.of_nat (List.length [(-1, 1); (2, 3)])) 5%Z)))
     = Some rng /\
     gen_one_input_rngs example_files example_proto example_analyze
       (SpecDict float_spec) (RngsList [(-1, 1); (2, 3)]) None 5%Z
     = gen_one_input float_spec (fst rng) (snd rng) None
         (snd (randint_below (Z.of_nat (List.length [(-1, 1); (2, 3)])) 5%Z))) /\
  gen_one_input_rngs example_files example_proto example_analyze
    (SpecDict float_spec) (RngsPath "domain.pkl") None 5%Z
  = gen_one_input_rngs example_files example_proto example_analyze
      (SpecDict float_spec) (RngsList [(-1, 1); (2, 3)]) None 5%Z /\
  gen_one_input_rngs example_files example_proto example_analyze
    (SpecPath "model.onnx") RngsNone None 5%Z
  = gen_one_input_rngs example_files example_proto example_analyze
      (SpecDict float_spec) RngsNone None 5%Z.
Proof.
  destruct (gen_one_input_rngs_resolution (G := Z)
              example_files example_proto example_analyze)
    as (_ & Hlist & Hpath & Hmodel).
  split; [| split].
  - apply Hlist. discriminate.
  - apply Hpath. reflexivity.
  - apply (Hmodel "model.onnx"%string tt); reflexivity.
Defined.

(** C6, as stated, fails for the empty list: the draw of the random
    index raises, and no input is sampled. *)
Lemma gen_one_input_rngs_empty_list :
  gen_one_input_rngs example_files example_proto example_analyze
    (SpecDict float_spec) (RngsList []) None 5%Z
  = (Raise (ValueError "high <= 0"), 5%Z).
Proof. reflexivity. Qed.

(** A file that holds [None], which the entry point writes when no
    range was found, is loaded after the test for [None]: the length of
    the loaded object is then asked for, and that raises. *)
Lemma gen_one_input_rngs_pickled_none :
  gen_one_input_rngs example_files example_proto example_analyze
    (SpecDict float_spec) (RngsPath "none.pkl") None 5%Z
  = (Raise (TypeError "object of type 'NoneType' has no len()"), 5%Z).
Proof. reflexivity. Qed.

(** * Further properties of the sampler *)

Section SamplerFurther.

Context {G : Type} {RS : RandomState G}.

Lemma gen_one_input_loop_negative l r items : forall acc g,
  range_overflows l r = false ->
  has_negative_dim items ->
  exists g',
    gen_one_input_loop items l r acc g
    = (Raise (ValueError "negative dimensions are not allowed"), g').
Proof.
  induction items as [| [name sh] items IH];
    intros acc g Hfin (n0 & sh0 & d & Hin & Hd & Hneg).
  - destruct Hin.
  - simpl. unfold bind, np_random_uniform. rewrite Hfin.
    destruct (existsb (fun d0 => (d0 <? 0)%Z) sh.(shape)) eqn:E.
    + exists g. reflexivity.
    + destruct (uniform_draws (numel sh.(shape)) l r g) as [xs g1].
      apply IH; [exact Hfin |]. destruct Hin as [Hin | Hin].
      * inversion Hin; subst. exfalso.
        assert (E' : existsb (fun d0 => (d0 <? 0)%Z) sh0.(shape) = true).
        { apply existsb_exists. exists d. split; [exact Hd | apply Z.ltb_lt; exact Hneg]. }
        congruence.
      * exists n0, sh0, d. repeat split; assumption.
Qed.

Lemma gen_one_input_loop_overflow l r items acc g :
  range_overflows l r = true ->
  items <> [] ->
  gen_one_input_loop items l r acc g
  = (Raise (OverflowError "Range exceeds valid bounds"), g).
Proof.
  intros Hov Hne. destruct items as [| [name sh] items]; [contradiction |].
  simpl. unfold bind, np_random_uniform. rewrite Hov. reflexivity.
Qed.

Lemma seed_step_valid (seed : option Z) (g : G) :
  valid_seed seed ->
  (match seed with Some s => np_random_seed s | None => ret tt end) g
  = (Ok tt, match seed with Some s => reseed s | None => g end).
Proof.
  destruct seed as [s |]; simpl; intros H; [| reflexivity].
  unfold np_random_seed.
  assert (E : ((0 <=? s) && (s <? 2 ^ 32))%Z = true).
  { apply andb_true_intro. split; [apply Z.leb_le | apply Z.ltb_lt]; lia. }
  rewrite E. reflexivity.
Qed.

Lemma uniform_draws_point n low high : forall g xs g',
  low == high ->
  uniform_draws n low high g = (xs, g') ->
  Forall (fun x => x == low) xs.
Proof.
  induction n as [| n IH]; intros g xs g' Heq; simpl.
  - intros H. inv_pair H. constructor.
  - destruct (random_sample g) as [u g1].
    destruct (uniform_draws n low high g1) as [rest g2] eqn:E.
    intros H. inv_pair H. constructor; [| eapply IH; eassumption].
    rewrite Heq. ring.
Qed.

Lemma astype_comp dt x y : x == y -> exists q, q == y /\ astype dt x = astype dt q.
Proof. intros E. exists x. split; [exact E | reflexivity]. Qed.

Lemma gen_one_input_loop_point l r items : forall acc g inp g',
  l == r ->
  (forall name arr, In (name, arr) acc ->
     Forall (fun x => exists q, q == l /\ x = astype arr.(nd_dtype) q) arr.(nd_data)) ->
  gen_one_input_loop items l r acc g = (Ok inp, g') ->
  forall name arr, In (name, arr) inp ->
    Forall (fun x => exists q, q == l /\ x = astype arr.(nd_dtype) q) arr.(nd_data).
Proof.
  induction items as [| [name0 sh0] items IH]; intros acc g inp g' Heq Hacc; simpl.
  - unfold ret. intros H. inv_pair H. exact Hacc.
  - unfold bind.
    destruct (np_random_uniform l r sh0.(shape) g) as [[xs | e] g1] eqn:E; [| discriminate].
    apply np_random_uniform_ok in E. destruct E as (_ & _ & E).
    apply (IH _ g1 inp g' Heq).
    intros name arr Hin. apply dict_set_in in Hin.
    destruct Hin as [[Hn Ha] | Hin]; [| apply Hacc with (name := name); exact Hin].
    subst name arr. simpl.
    apply Forall_map. eapply Forall_impl; [| eapply uniform_draws_point; eassumption].
    intros q Hq. exists q. split; [exact Hq | reflexivity].
Qed.

Lemma astype_not_nan dt q : is_nan (astype dt q) = false.
Proof.
  destruct dt; try reflexivity. simpl.
  pose proof (float32_of_not_nan q) as H.
  destruct (float32_of q); try reflexivity. exfalso. apply H. reflexivity.
Qed.

Lemma gen_one_input_loop_finite l r items : forall acc g inp g',
  has_nan acc = false ->
  gen_one_input_loop items l r acc g = (Ok inp, g') ->
  has_nan inp = false.
Proof.
  induction items as [| [name0 sh0] items IH]; intros acc g inp g' Hacc; simpl.
  - unfold ret. intros H. inv_pair H. exact Hacc.
  - unfold bind.
    destruct (np_random_uniform l r sh0.(shape) g) as [[xs | e] g1]; [| discriminate].
    apply IH.
    destruct (has_nan (dict_set acc name0 _)) eqn:E; [| reflexivity].
    unfold has_nan in E. apply existsb_exists in E. destruct E as ([k o] & Hin & Hex).
    apply dict_set_in in Hin. destruct Hin as [[Hk Ho] | Hin].
    + subst. simpl in Hex. apply existsb_exists in Hex.
      destruct Hex as (x & Hx & Hnan). apply in_map_iff in Hx.
      destruct Hx as (q & Hq & _). subst x.
      rewrite astype_not_nan in Hnan. discriminate.
    + assert (E' : has_nan acc = true).
      { unfold has_nan. apply existsb_exists. exists (k, o). split; assumption. }
      congruence.
Qed.

End SamplerFurther.

(** X1.  With a seed numpy accepts, the sampler is reproducible: the
    mapping it returns and the state it leaves the generator in do not
    depend on the state the generator was in. *)
Theorem gen_one_input_seeded {G : Type} {RS : RandomState G}
    (inp_spec : InputSpec) (l r : Q) (s : Z) (g1 g2 : G) :
  (0 <= s < 2 ^ 32)%Z ->
  gen_one_input inp_spec l r (Some s) g1 = gen_one_input inp_spec l r (Some s) g2.
Proof.
  intros Hs. unfold gen_one_input, bind.
  rewrite !(seed_step_valid (Some s)) by exact Hs. reflexivity.
Qed.

Lemma gen_one_input_seeded_witness :
  gen_one_input float_spec 0 1 (Some 42%Z) 0%Z
  = gen_one_input float_spec 0 1 (Some 42%Z) 12345%Z.
Proof. apply (gen_one_input_seeded float_spec 0 1 42%Z 0%Z 12345%Z). lia. Defined.

(** X2.  When a tensor of the spec has a negative dimension the sampler
    returns no mapping, not even a partial one, whatever the range and
    the generator: it raises numpy's [ValueError] for the dimension, or,
    when the width of the range is not finite in binary64, the
    [OverflowError] numpy raises for that before it looks at the shape
    of the first tensor. *)
Theorem gen_one_input_negative_dim {G : Type} {RS : RandomState G}
    (inp_spec : InputSpec) (l r : Q) (seed : option Z) (g : G) :
  valid_seed seed ->
  has_negative_dim inp_spec ->
  exists g',
    gen_one_input inp_spec l r seed g
    = (Raise (if range_overflows l r
              then OverflowError "Range exceeds valid bounds"
              else ValueError "negative dimensions are not allowed"), g').
Proof.
  intros Hseed Hneg. unfold gen_one_input, bind.
  rewrite (seed_step_valid seed g Hseed).
  destruct (range_overflows l r) eqn:Hov.
  - eexists. apply gen_one_input_loop_overflow; [exact Hov |].
    destruct Hneg as (n0 & sh0 & d & Hin & _). intros E. rewrite E in Hin. destruct Hin.
  - apply gen_one_input_loop_negative; assumption.
Qed.

Lemma gen_one_input_negative_dim_witness :
  (exists g',
     gen_one_input [("i0"%string, {| shape := [2; -1]%Z; dtype := float32 |})]
       0 1 None 0%Z
     = (Raise (ValueError "negative dimensions are not allowed"), g')) /\
  (exists g',
     gen_one_input [("i0"%string, {| shape := [2; -1]%Z; dtype := float32 |})]
       (- inject_Z (2 ^ 1023)) (inject_Z (2 ^ 1023)) None 0%Z
     = (Raise (OverflowError "Range exceeds valid bounds"), g')).
Proof.
  assert (Hneg : has_negative_dim
                   [("i0"%string, {| shape := [2; -1]%Z; dtype := float32 |})]).
  { exists "i0"%string, {| shape := [2; -1]%Z; dtype := float32 |}, (-1)%Z.
    split; [left; reflexivity |]. split; [right; left; reflexivity | lia]. }
  split.
  - apply (gen_one_input_negative_dim
             [("i0"%string, {| shape := [2; -1]%Z; dtype := float32 |})] 0 1 None 0%Z I Hneg).
  - apply (gen_one_input_negative_dim
             [("i0"%string, {| shape := [2; -1]%Z; dtype := float32 |})]
             (- inject_Z (2 ^ 1023)) (inject_Z (2 ^ 1023)) None 0%Z I Hneg).
Defined.

(** X3.  For a spec with distinct tensor names and a range with
    [low <= high], the mapping the sampler returns has exactly one array
    per tensor of the spec, under the tensor's name and in the order of
    the spec, each with the declared shape and dtype, as many elements
    as the shape says, and every element the conversion to the dtype of
    a value within the range. *)
Theorem gen_one_input_one_array_per_tensor {G : Type} {RS : RandomState G}
    (inp_spec : InputSpec) (l r : Q) (seed : option Z) (g g' : G)
    (inp : dict ndarray) :
  l <= r ->
  NoDup (map fst inp_spec) ->
  gen_one_input inp_spec l r seed g = (Ok inp, g') ->
  arrays_of l r inp_spec inp /\ map fst inp = map fst inp_spec.
Proof.
  intros Hlr Hnd Hrun. unfold gen_one_input, bind in Hrun.
  destruct (match seed with Some s => np_random_seed s | None => ret tt end g)
    as [[[] | e] g1]; [| discriminate].
  destruct (gen_one_input_loop_ordered l r inp_spec [] g1 inp g' Hlr Hnd Hrun)
    as (arrs & Hinp & Harrs).
  simpl in Hinp. subst arrs. split; [exact Harrs |].
  clear Hrun Hnd. induction Harrs as [| ns na spec' inp' [Hn _] _ IH]; simpl.
  - reflexivity.
  - rewrite IH, Hn. reflexivity.
Qed.

Lemma gen_one_input_one_array_per_tensor_witness :
  arrays_of 0 1 float_spec (match fst (gen_one_input float_spec 0 1 None 0%Z) with
                            | Ok inp => inp | Raise _ => [] end) /\
  map fst (match fst (gen_one_input float_spec 0 1 None 0%Z) with
           | Ok inp => inp | Raise _ => [] end) = map fst float_spec.
Proof.
  apply (gen_one_input_one_array_per_tensor float_spec 0 1 None 0%Z
           (snd (gen_one_input float_spec 0 1 None 0%Z))).
  - discriminate.
  - repeat constructor. intros [].
  - vm_compute. reflexivity.
Defined.

(** X4.  On a range reduced to one point, as in the query
    [no_nan(p, p)] of a seed point, the draws of the generator do not
    show in the data: every element of every array sampled is the
    conversion to the dtype of that point, so for [float64] the point
    itself and for [float32] the point rounded to binary32. *)
Theorem gen_one_input_point_range {G : Type} {RS : RandomState G}
    (inp_spec : InputSpec) (l r : Q) (seed : option Z) (g g' : G)
    (inp : dict ndarray) :
  l == r ->
  gen_one_input inp_spec l r seed g = (Ok inp, g') ->
  forall name arr, In (name, arr) inp ->
    Forall (fun x => exists q, q == l /\ x = astype arr.(nd_dtype) q) arr.(nd_data) /\
    (arr.(nd_dtype) = float64 ->
     Forall (fun x => exists q, q == l /\ x = Fin q) arr.(nd_data)) /\
    (arr.(nd_dtype) = float32 ->
     Forall (fun x => x = float32_of l) arr.(nd_data)).
Proof.
  intros Heq Hrun name arr Hin. unfold gen_one_input, bind in Hrun.
  destruct (match seed with Some s => np_random_seed s | None => ret tt end g)
    as [[[] | e] g1]; [| discriminate].
  assert (H : Forall (fun x => exists q, q == l /\ x = astype arr.(nd_dtype) q)
                     arr.(nd_data)).
  { apply (gen_one_input_loop_point l r inp_spec [] g1 inp g' Heq) with (name := name);
      [| exact Hrun | exact Hin].
    intros name0 arr0 []. }
  split; [exact H |]. split.
  - intros Hdt. rewrite Hdt in H. exact H.
  - intros Hdt. rewrite Hdt in H. eapply Forall_impl; [| exact H].
    intros x (q & Hq & Hx). subst x. simpl. apply float32_of_comp. exact Hq.
Qed.

Lemma gen_one_input_point_range_witness :
  Forall (fun x => exists q, q == 1 # 10 /\ x = astype (nd_dtype tenth_array) q)
         (nd_data tenth_array) /\
  (nd_dtype tenth_array = float64 ->
   Forall (fun x => exists q, q == 1 # 10 /\ x = Fin q) (nd_data tenth_array)) /\
  (nd_dtype tenth_array = float32 ->
   Forall (fun x => x = float32_of (1 # 10)) (nd_data tenth_array)).
Proof.
  apply (gen_one_input_point_range float_spec (1 # 10) (1 # 10) None 0%Z
           (snd (gen_one_input float_spec (1 # 10) (1 # 10) None 0%Z))
           (match fst (gen_one_input float_spec (1 # 10) (1 # 10) None 0%Z) with
            | Ok inp => inp | Raise _ => [] end)
           ltac:(reflexivity) ltac:(vm_compute; reflexivity) "i0"%string).
  vm_compute. left. reflexivity.
Defined.

(** X5.  A sampled mapping never holds a NaN: [has_nan] is false on
    every mapping the sampler returns, for every dtype. *)
Theorem gen_one_input_no_nan {G : Type} {RS : RandomState G}
    (inp_spec : InputSpec) (l r : Q) (seed : option Z) (g g' : G)
    (inp : dict ndarray) :
  gen_one_input inp_spec l r seed g = (Ok inp, g') ->
  has_nan inp = false.
Proof.
  intros Hrun. unfold gen_one_input, bind in Hrun.
  destruct (match seed with Some s => np_random_seed s | None => ret tt end g)
    as [[[] | e] g1]; [| discriminate].
  apply (gen_one_input_loop_finite l r inp_spec [] g1 inp g'); [reflexivity | exact Hrun].
Qed.

Lemma gen_one_input_no_nan_witness :
  has_nan (match fst (gen_one_input int_spec (1 # 2) (3 # 4) None 0%Z) with
           | Ok inp => inp | Raise _ => [] end) = false.
Proof.
  apply (gen_one_input_no_nan int_spec (1 # 2) (3 # 4) None 0%Z
           (snd (gen_one_input int_spec (1 # 2) (3 # 4) None 0%Z))).
  vm_compute. reflexivity.
Defined.

(** * Further properties of [gen_one_input_rngs] *)

Section SamplerFromSetFurther.

Context {G Model : Type} {RS : RandomState G}.

Variable pickle_file : string -> option (option (list Range)).
Variable get_onnx_proto : string -> result Model.
Variable analyze_onnx_io : Model -> result InputSpec.

Local Abbreviation run :=
  (gen_one_input_rngs pickle_file get_onnx_proto analyze_onnx_io).

Lemma gen_one_input_rngs_list d rngs seed g :
  rngs <> [] ->
  exists rng,
    nth_error rngs
      (Z.to_nat (fst (randint_below (Z.of_nat (List.length rngs)) g))) = Some rng /\
    run (SpecDict d) (RngsList rngs) seed g
    = gen_one_input d (fst rng) (snd rng) seed
        (snd (randint_below (Z.of_nat (List.length rngs)) g)).
Proof.
  intros Hne.
  assert (Hlen : (0 < Z.of_nat (List.length rngs))%Z).
  { destruct rngs; [contradiction | simpl; lia]. }
  pose proof (randint_below_range (Z.of_nat (List.length rngs)) g Hlen) as Hi.
  destruct (nth_error rngs
              (Z.to_nat (fst (randint_below (Z.of_nat (List.length rngs)) g))))
    as [rng |] eqn:Enth.
  2:{ apply nth_error_None in Enth. lia. }
  exists rng. split; [reflexivity |].
  unfold gen_one_input_rngs, bind, len_rngs, np_random_randint, getitem_rngs, ret.
  cbv beta iota.
  assert (E : (Z.of_nat (List.length rngs) <=? 0)%Z = false) by (apply Z.leb_gt; lia).
  rewrite E.
  destruct (randint_below (Z.of_nat (List.length rngs)) g) as [i g1]. simpl in *.
  cbv beta iota. rewrite Enth. reflexivity.
Qed.

Lemma gen_one_input_rngs_none d seed g :
  run (SpecDict d) RngsNone seed g = run (SpecDict d) (RngsList [(0, 1)]) seed g.
Proof. reflexivity. Qed.

Lemma gen_one_input_sound (d : InputSpec) l r seed (g g' : G) inp :
  l <= r ->
  gen_one_input d l r seed g = (Ok inp, g') ->
  forall name arr, In (name, arr) inp ->
    exists sh, In (name, sh) d /\ array_from l r sh arr.
Proof.
  intros Hlr Hrun. unfold gen_one_input, bind in Hrun.
  destruct (match seed with Some s => np_random_seed s | None => ret tt end g)
    as [[[] | e] g1]; [| discriminate].
  apply (gen_one_input_loop_spec l r d d [] g1 inp g' Hlr).
  - intros name sh H. exact H.
  - intros name arr [].
  - exact Hrun.
Qed.

End SamplerFromSetFurther.

(** X6.  The failures of [gen_one_input_rngs] before anything is
    sampled: an empty list raises on the draw of the index, a path with
    no file raises on opening it, and a file that holds [None] raises when
    its length is asked for (only the argument [None] itself falls back to
    (0, 1)).  In each case the generator is left as it was, even when a
    seed was passed. *)
Theorem gen_one_input_rngs_failures {G Model : Type} {RS : RandomState G}
    (pickle_file : string -> option (option (list Range)))
    (get_onnx_proto : string -> result Model)
    (analyze_onnx_io : Model -> result InputSpec) :
  (forall d seed g,
     gen_one_input_rngs pickle_file get_onnx_proto analyze_onnx_io
       (SpecDict d) (RngsList []) seed g
     = (Raise (ValueError "high <= 0"), g)) /\
  (forall spec path seed g,
     pickle_file path = None ->
     gen_one_input_rngs pickle_file get_onnx_proto analyze_onnx_io
       spec (RngsPath path) seed g
     = (Raise (FileNotFoundError path), g)) /\
  (forall d path seed g,
     pickle_file path = Some None ->
     gen_one_input_rngs pickle_file get_onnx_proto analyze_onnx_io
       (SpecDict d) (RngsPath path) seed g
     = (Raise (TypeError "object of type 'NoneType' has no len()"), g)).
Proof.
  split; [| split].
  - intros d seed g. reflexivity.
  - intros spec path seed g Hfile.
    unfold gen_one_input_rngs, bind, pickle_load. rewrite Hfile. reflexivity.
  - intros d path seed g Hfile.
    unfold gen_one_input_rngs, bind, pickle_load. rewrite Hfile. reflexivity.
Qed.

(** X7.  When every range of a list has [low <= high], each mapping
    [gen_one_input_rngs] returns for the list is sampled from one range
    of the list: there is a range of the list such that every array
    has the shape and dtype of its tensor and every element is the
    conversion to the dtype of a value within that range.  For
    [float64], and for [float32] when the bounds of the range are
    binary32 numbers, the elements themselves lie within the range. *)
Theorem gen_one_input_rngs_within {G Model : Type} {RS : RandomState G}
    (pickle_file : string -> option (option (list Range)))
    (get_onnx_proto : string -> result Model)
    (analyze_onnx_io : Model -> result InputSpec)
    (d : InputSpec) (rngs : list Range) (seed : option Z) (g g' : G)
    (inp : dict ndarray) :
  Forall (fun rng : Range => fst rng <= snd rng) rngs ->
  gen_one_input_rngs pickle_file get_onnx_proto analyze_onnx_io
    (SpecDict d) (RngsList rngs) seed g = (Ok inp, g') ->
  exists rng, In rng rngs /\
    forall name arr, In (name, arr) inp ->
      exists sh, In (name, sh) d /\ array_from (fst rng) (snd rng) sh arr /\
        (exact_bounds sh.(dtype) (fst rng) (snd rng) ->
         array_of (fst rng) (snd rng) sh arr).
Proof.
  intros Hall Hrun.
  destruct rngs as [| r0 rest] eqn:Er; [discriminate Hrun |]. rewrite <- Er in *.
  assert (Hne : rngs <> []) by (rewrite Er; discriminate).
  destruct (gen_one_input_rngs_list pickle_file get_onnx_proto analyze_onnx_io
              d rngs seed g Hne) as (rng & Hnth & Heq).
  rewrite Heq in Hrun. apply nth_error_In in Hnth.
  exists rng. split; [exact Hnth |].
  rewrite Forall_forall in Hall.
  intros name arr Hin.
  destruct (gen_one_input_sound d _ _ seed _ g' inp (Hall rng Hnth) Hrun name arr Hin)
    as (sh & Hsh & Harr).
  exists sh. split; [exact Hsh |]. split; [exact Harr |].
  apply array_from_of. exact Harr.
Qed.

Lemma gen_one_input_rngs_within_witness :
  exists rng, In rng [(-1, 1); (2, 3)] /\
    forall name arr,
      In (name, arr)
         (match fst (gen_one_input_rngs example_files example_proto example_analyze
                       (SpecDict float_spec) (RngsList [(-1, 1); (2, 3)]) None 5%Z) with
          | Ok inp => inp | Raise _ => [] end) ->
      exists sh, In (name, sh) float_spec /\ array_from (fst rng) (snd rng) sh arr /\
        (exact_bounds sh.(dtype) (fst rng) (snd rng) ->
         array_of (fst rng) (snd rng) sh arr).
Proof.
  apply (gen_one_input_rngs_within example_files example_proto example_analyze
           float_spec [(-1, 1); (2, 3)] None 5%Z
           (snd (gen_one_input_rngs example_files example_proto example_analyze
                   (SpecDict float_spec) (RngsList [(-1, 1); (2, 3)]) None 5%Z))).
  - repeat constructor; discriminate.
  - vm_compute. reflexivity.
Defined.

(** X8.  The index of the range is drawn before the seed is applied.
    With a seed numpy accepts, the call is therefore reproducible
    exactly up to that draw: two generator states that yield the same
    index give the same mapping and the same final state; with [None]
    or a single range the result does not depend on the generator at
    all. *)
Theorem gen_one_input_rngs_seeded {G Model : Type} {RS : RandomState G}
    (pickle_file : string -> option (option (list Range)))
    (get_onnx_proto : string -> result Model)
    (analyze_onnx_io : Model -> result InputSpec)
    (d : InputSpec) (s : Z) :
  (0 <= s < 2 ^ 32)%Z ->
  (forall rngs g1 g2,
     rngs <> [] ->
     fst (randint_below (Z.of_nat (List.length rngs)) g1)
     = fst (randint_below (Z.of_nat (List.length rngs)) g2) ->
     gen_one_input_rngs pickle_file get_onnx_proto analyze_onnx_io
       (SpecDict d) (RngsList rngs) (Some s) g1
     = gen_one_input_rngs pickle_file get_onnx_proto analyze_onnx_io
         (SpecDict d) (RngsList rngs) (Some s) g2) /\
  (forall rng g1 g2,
     gen_one_input_rngs pickle_file get_onnx_proto analyze_onnx_io
       (SpecDict d) (RngsList [rng]) (Some s) g1
     = gen_one_input_rngs pickle_file get_onnx_proto analyze_onnx_io
         (SpecDict d) (RngsList [rng]) (Some s) g2) /\
  (forall g1 g2,
     gen_one_input_rngs pickle_file get_onnx_proto analyze_onnx_io
       (SpecDict d) RngsNone (Some s) g1
     = gen_one_input_rngs pickle_file get_onnx_proto analyze_onnx_io
         (SpecDict d) RngsNone (Some s) g2).
Proof.
  intros Hs.
  assert (Hgen : forall rngs g1 g2,
     rngs <> [] ->
     fst (randint_below (Z.of_nat (List.length rngs)) g1)
     = fst (randint_below (Z.of_nat (List.length rngs)) g2) ->
     gen_one_input_rngs pickle_file get_onnx_proto analyze_onnx_io
       (SpecDict d) (RngsList rngs) (Some s) g1
     = gen_one_input_rngs pickle_file get_onnx_proto analyze_onnx_io
         (SpecDict d) (RngsList rngs) (Some s) g2).
  { intros rngs g1 g2 Hne Hidx.
    destruct (gen_one_input_rngs_list pickle_file get_onnx_proto analyze_onnx_io
                d rngs (Some s) g1 Hne) as (rng1 & Hn1 & H1).
    destruct (gen_one_input_rngs_list pickle_file get_onnx_proto analyze_onnx_io
                d rngs (Some s) g2 Hne) as (rng2 & Hn2 & H2).
    rewrite Hidx in Hn1. rewrite Hn1 in Hn2. inversion Hn2; subst rng2.
    rewrite H1, H2. unfold gen_one_input, bind.
    rewrite !(seed_step_valid (Some s)) by exact Hs. reflexivity. }
  assert (Hone : forall rng g1 g2,
     gen_one_input_rngs pickle_file get_onnx_proto analyze_onnx_io
       (SpecDict d) (RngsList [rng]) (Some s) g1
     = gen_one_input_rngs pickle_file get_onnx_proto analyze_onnx_io
         (SpecDict d) (RngsList [rng]) (Some s) g2).
  { intros rng g1 g2. apply Hgen; [discriminate |]. simpl List.length.
    change (Z.of_nat 1) with 1%Z.
    pose proof (randint_below_range 1 g1 eq_refl).
    pose proof (randint_below_range 1 g2 eq_refl). lia. }
  split; [exact Hgen |]. split; [exact Hone |].
  intros g1 g2. apply (Hone (0, 1)).
Qed.

Lemma gen_one_input_rngs_seeded_witness :
  gen_one_input_rngs example_files example_proto example_analyze
    (SpecDict float_spec) RngsNone (Some 42%Z) 0%Z
  = gen_one_input_rngs example_files example_proto example_analyze
      (SpecDict float_spec) RngsNone (Some 42%Z) 777%Z.
Proof.
  apply (gen_one_input_rngs_seeded example_files example_proto example_analyze
           float_spec 42%Z ltac:(lia)).
Defined.

(** * Further properties of [ORTNaNChecker] *)

Section CheckerFurther.

Context {G E Model : Type} {RS : RandomState G} {EX : Executor Model E}.

Variable THRES : Q.
Variable max_rng_trials : nat.

Local Abbreviation no_nan_loop := (ORTNaNChecker.no_nan_loop (EX := EX) THRES max_rng_trials).

Lemma keeps_binding_bind {A B} (c : M (ORTNaNChecker.World G E Model) A)
    (k : A -> M (ORTNaNChecker.World G E Model) B) :
  keeps_binding c -> (forall x, keeps_binding (k x)) -> keeps_binding (bind c k).
Proof.
  intros Hc Hk w. unfold bind. specialize (Hc w).
  destruct (c w) as [[x | e] w1]; simpl in *.
  - destruct (Hk x w1) as [H1 H2]. destruct Hc as [H3 H4]. split; congruence.
  - exact Hc.
Qed.

Lemma keeps_binding_ret {A} (x : A) :
  keeps_binding (G := G) (E := E) (Model := Model) (ret x).
Proof. intros w. split; reflexivity. Qed.

Lemma keeps_binding_get_inp_spec :
  keeps_binding (G := G) (E := E) (Model := Model) ORTNaNChecker.get_inp_spec.
Proof.
  intros w. unfold ORTNaNChecker.get_inp_spec.
  destruct (ORTNaNChecker.inp_spec w) eqn:Es; simpl; split; congruence.
Qed.

Lemma keeps_binding_get_model :
  keeps_binding (G := G) (E := E) (Model := Model) ORTNaNChecker.get_model.
Proof.
  intros w. unfold ORTNaNChecker.get_model.
  destruct (ORTNaNChecker.model w) eqn:Em; simpl; split; congruence.
Qed.

Lemma keeps_binding_with_np_random {A} (c : M G A) :
  keeps_binding (E := E) (Model := Model) (ORTNaNChecker.with_np_random c).
Proof.
  intros w. unfold ORTNaNChecker.with_np_random.
  destruct (c (ORTNaNChecker.np_random w)); split; reflexivity.
Qed.

Lemma keeps_binding_with_rf_exe {A} (c : M E A) :
  keeps_binding (G := G) (Model := Model) (ORTNaNChecker.with_rf_exe c).
Proof.
  intros w. unfold ORTNaNChecker.with_rf_exe.
  destruct (c (ORTNaNChecker.rf_exe w)); split; reflexivity.
Qed.

Lemma trial_keeps_binding l r : keeps_binding (ORTNaNChecker.trial (EX := EX) l r).
Proof.
  unfold ORTNaNChecker.trial.
  apply keeps_binding_bind; [apply keeps_binding_get_inp_spec | intros spec].
  apply keeps_binding_bind; [apply keeps_binding_with_np_random | intros inp].
  apply keeps_binding_bind; [apply keeps_binding_get_model | intros m].
  apply keeps_binding_bind; [apply keeps_binding_with_rf_exe | intros out].
  apply keeps_binding_ret.
Qed.

Lemma no_nan_loop_keeps_binding l r trials : forall succ w,
  ORTNaNChecker.model (snd (no_nan_loop l r trials succ w)) = ORTNaNChecker.model w /\
  ORTNaNChecker.inp_spec (snd (no_nan_loop l r trials succ w)) = ORTNaNChecker.inp_spec w.
Proof.
  induction trials as [| i rest IH]; intros succ w.
  - simpl. split; reflexivity.
  - rewrite no_nan_loop_step.
    pose proof (trial_keeps_binding l r w) as [Hm Hs].
    destruct (ORTNaNChecker.trial l r w) as [[ok | e] w1]; simpl in *.
    + destruct (Qlt_le_dec _ THRES); simpl.
      * split; assumption.
      * destruct (IH (succ + (if ok then 1 else 0))%nat w1) as [Hm' Hs'].
        split; congruence.
    + split; assumption.
Qed.

Lemma trial_total l r (w : ORTNaNChecker.World G E Model) s m :
  never_fails EX ->
  ORTNaNChecker.inp_spec w = Some s -> ORTNaNChecker.model w = Some m ->
  valid_shapes s -> range_overflows l r = false ->
  exists ok w', ORTNaNChecker.trial (EX := EX) l r w = (Ok ok, w').
Proof.
  intros Hex Hs Hm Hv Hfin.
  unfold ORTNaNChecker.trial, bind.
  unfold ORTNaNChecker.get_inp_spec at 1. rewrite Hs.
  unfold ORTNaNChecker.with_np_random at 1.
  destruct (gen_one_input_loop_total l r s [] (ORTNaNChecker.np_random w) Hfin Hv)
    as (inp & g1 & Hgen).
  unfold gen_one_input, bind, ret. rewrite Hgen.
  unfold ORTNaNChecker.get_model at 1. simpl. rewrite Hm.
  unfold ORTNaNChecker.with_rf_exe. simpl.
  destruct (Hex m inp (ORTNaNChecker.rf_exe w)) as (out & e' & Hp). rewrite Hp.
  eexists. eexists. reflexivity.
Qed.

Lemma no_nan_loop_total l r s m trials : forall succ w,
  never_fails EX ->
  ORTNaNChecker.inp_spec w = Some s -> ORTNaNChecker.model w = Some m ->
  valid_shapes s -> range_overflows l r = false ->
  exists b w', no_nan_loop l r trials succ w = (Ok b, w').
Proof.
  induction trials as [| i rest IH]; intros succ w Hex Hs Hm Hv Hfin.
  - simpl. eexists. eexists. reflexivity.
  - rewrite no_nan_loop_step.
    pose proof (trial_keeps_binding l r w) as [Hm' Hs'].
    destruct (trial_total l r w s m Hex Hs Hm Hv Hfin) as (ok & w1 & Ht).
    rewrite Ht in *. simpl in *.
    destruct (Qlt_le_dec _ THRES).
    + eexists. eexists. reflexivity.
    + apply IH; try assumption; congruence.
Qed.

Lemma ratio_nonneg (k : nat) :
  0 <= inject_Z (Z.of_nat k) / inject_Z (Z.of_nat max_rng_trials).
Proof.
  unfold Qdiv. apply Qmult_le_0_compat.
  - change 0 with (inject_Z 0). rewrite <- Zle_Qle. lia.
  - apply Qinv_le_0_compat. change 0 with (inject_Z 0). rewrite <- Zle_Qle. lia.
Qed.

Lemma ratio_le_1 (k : nat) :
  (0 < max_rng_trials)%nat -> (k <= max_rng_trials)%nat ->
  inject_Z (Z.of_nat k) / inject_Z (Z.of_nat max_rng_trials) <= 1.
Proof.
  intros Hmax Hk. apply Qle_shift_div_r.
  - change 0 with (inject_Z 0). rewrite <- Zlt_Qlt. lia.
  - rewrite Qmult_1_l. rewrite <- Zle_Qle. lia.
Qed.

Lemma no_nan_loop_every_trial l r trials : forall succ w,
  THRES <= 0 ->
  no_nan_loop l r trials succ w = every_trial (EX := EX) l r (List.length trials) w.
Proof.
  induction trials as [| i rest IH]; intros succ w Hthres.
  - reflexivity.
  - rewrite no_nan_loop_step. simpl. unfold bind.
    destruct (ORTNaNChecker.trial l r w) as [[ok | e] w1]; [| reflexivity].
    destruct (Qlt_le_dec _ THRES) as [Hlt | Hge].
    + exfalso. unfold ORTNaNChecker.best_ratio in Hlt.
      pose proof (ratio_nonneg (succ + (if ok then 1 else 0) + (max_rng_trials - i - 1))).
      lra.
    + apply IH. exact Hthres.
Qed.

End CheckerFurther.

(** X9.  [no_nan] never rebinds the checker: whatever the outcome of a
    query, successful or raising, the model and the input spec bound by
    [load_model] are the same after it as before. *)
Theorem no_nan_keeps_binding {G E Model : Type} {RS : RandomState G}
    (EX : Executor Model E) (THRES : Q) (max_rng_trials : nat)
    (l r : Q) (w : ORTNaNChecker.World G E Model) :
  ORTNaNChecker.model
    (snd (ORTNaNChecker.no_nan (EX := EX) THRES max_rng_trials l r w))
  = ORTNaNChecker.model w /\
  ORTNaNChecker.inp_spec
    (snd (ORTNaNChecker.no_nan (EX := EX) THRES max_rng_trials l r w))
  = ORTNaNChecker.inp_spec w.
Proof. unfold ORTNaNChecker.no_nan. apply no_nan_loop_keeps_binding. Qed.

(** X10.  Once [load_model] has succeeded for a model whose shapes have
    no negative dimension, and with an executor that does not fail, every
    query on a range whose width is finite in binary64 returns a boolean
    (it does not raise), any number of times: the checker stays bound
    after each query. *)
Theorem no_nan_after_load_model {G E Model : Type} {RS : RandomState G}
    (EX : Executor Model E) (analyze_onnx_io : Model -> result InputSpec)
    (THRES : Q) (max_rng_trials : nat)
    (m : Model) (s : InputSpec) (w : ORTNaNChecker.World G E Model) :
  never_fails EX ->
  analyze_onnx_io m = Ok s ->
  valid_shapes s ->
  exists w1,
    ORTNaNChecker.load_model analyze_onnx_io m w = (Ok tt, w1) /\
    forall l r w2,
      range_overflows l r = false ->
      ORTNaNChecker.model w2 = Some m -> ORTNaNChecker.inp_spec w2 = Some s ->
      exists b w3,
        ORTNaNChecker.no_nan (EX := EX) THRES max_rng_trials l r w2 = (Ok b, w3) /\
        ORTNaNChecker.model w3 = Some m /\ ORTNaNChecker.inp_spec w3 = Some s.
Proof.
  intros Hex Han Hv. eexists. split.
  - unfold ORTNaNChecker.load_model, bind, lift, ORTNaNChecker.set_model,
      ORTNaNChecker.set_inp_spec. simpl. rewrite Han. reflexivity.
  - intros l r w2 Hfin Hm Hs.
    destruct (no_nan_loop_total (EX := EX) THRES max_rng_trials l r s m
                (seq 0 max_rng_trials) 0%nat w2 Hex Hs Hm Hv Hfin) as (b & w3 & Hrun).
    pose proof (no_nan_loop_keeps_binding (EX := EX) THRES max_rng_trials l r
                  (seq 0 max_rng_trials) 0%nat w2) as [Hm' Hs'].
    unfold ORTNaNChecker.no_nan in *. rewrite Hrun in *. simpl in *.
    exists b, w3. split; [reflexivity |]. split; congruence.
Qed.

Lemma elementwise_never_fails : never_fails elementwise.
Proof. intros m inp e. eexists. eexists. reflexivity. Qed.

Lemma no_nan_after_load_model_witness :
  exists w1,
    ORTNaNChecker.load_model (fun _ => Ok float_spec) root_like fresh_checker
    = (Ok tt, w1) /\
    forall l r w2,
      range_overflows l r = false ->
      ORTNaNChecker.model w2 = Some root_like ->
      ORTNaNChecker.inp_spec w2 = Some float_spec ->
      exists b w3,
        ORTNaNChecker.no_nan (EX := elementwise) 1 3 l r w2 = (Ok b, w3) /\
        ORTNaNChecker.model w3 = Some root_like /\
        ORTNaNChecker.inp_spec w3 = Some float_spec.
Proof.
  apply (no_nan_after_load_model elementwise (fun _ => Ok float_spec) 1 3
           root_like float_spec fresh_checker elementwise_never_fails eq_refl).
  repeat constructor; discriminate.
Defined.

(** X11.  The two extreme settings of [THRES].  Above 1 no success
    ratio can reach it: with at least one trial configured, a query
    runs exactly one trial and answers false.  At 0 or below every ratio
    reaches it: a query runs all its trials, whatever they find, and
    answers true.  In both cases an exception raised by a trial
    propagates. *)
Theorem no_nan_threshold_extremes {G E Model : Type} {RS : RandomState G}
    (EX : Executor Model E) (THRES : Q) (max_rng_trials : nat) :
  (1 < THRES -> (0 < max_rng_trials)%nat ->
   forall l r w,
     ORTNaNChecker.no_nan (EX := EX) THRES max_rng_trials l r w
     = (ORTNaNChecker.trial (EX := EX) l r ;;; ret false) w) /\
  (THRES <= 0 ->
   forall l r w,
     ORTNaNChecker.no_nan (EX := EX) THRES max_rng_trials l r w
     = every_trial (EX := EX) l r max_rng_trials w).
Proof.
  split.
  - intros Hthres Hmax l r w. unfold ORTNaNChecker.no_nan.
    destruct max_rng_trials as [| n] eqn:En; [lia |].
    change (seq 0 (S n)) with (0%nat :: seq 1 n).
    rewrite no_nan_loop_step. unfold bind.
    destruct (ORTNaNChecker.trial l r w) as [[ok | e] w1]; [| reflexivity].
    cbv zeta. destruct (Qlt_le_dec _ THRES) as [Hlt | Hge]; [reflexivity |].
    exfalso. unfold ORTNaNChecker.best_ratio in Hge.
    pose proof (ratio_le_1 (S n) (0 + (if ok then 1 else 0) + (S n - 0 - 1))%nat) as H.
    assert (H1 : (0 < S n)%nat) by lia.
    assert (H2 : (0 + (if ok then 1 else 0) + (S n - 0 - 1) <= S n)%nat)
      by (destruct ok; lia).
    specialize (H H1 H2). lra.
  - intros Hthres l r w. unfold ORTNaNChecker.no_nan.
    rewrite (no_nan_loop_every_trial (EX := EX) THRES max_rng_trials l r
               (seq 0 max_rng_trials) 0%nat w Hthres).
    rewrite length_seq. reflexivity.
Qed.

(** X12.  Binding a second model.  After a successful [load_model], a
    second successful [load_model] leaves the checker exactly as if only
    the second had been made.  When the analysis of the second model
    fails, the exception propagates and the checker is left with the
    second model bound together with the input spec of the first. *)
Theorem load_model_again {G E Model : Type}
    (analyze_onnx_io : Model -> result InputSpec)
    (m1 m2 : Model) (s1 : InputSpec) (w : ORTNaNChecker.World G E Model) :
  analyze_onnx_io m1 = Ok s1 ->
  (forall s2, analyze_onnx_io m2 = Ok s2 ->
     (ORTNaNChecker.load_model analyze_onnx_io m1 ;;;
      ORTNaNChecker.load_model analyze_onnx_io m2) w
     = ORTNaNChecker.load_model analyze_onnx_io m2 w) /\
  (forall e, analyze_onnx_io m2 = Raise e ->
     (ORTNaNChecker.load_model analyze_onnx_io m1 ;;;
      ORTNaNChecker.load_model analyze_onnx_io m2) w
     = (Raise e,
        {| ORTNaNChecker.np_random := ORTNaNChecker.np_random w;
           ORTNaNChecker.rf_exe := ORTNaNChecker.rf_exe w;
           ORTNaNChecker.model := Some m2;
           ORTNaNChecker.inp_spec := Some s1 |})).
Proof.
  intros H1. split.
  - intros s2 H2.
    unfold ORTNaNChecker.load_model, bind, lift, ORTNaNChecker.set_model,
      ORTNaNChecker.set_inp_spec. simpl. rewrite H1, H2. reflexivity.
  - intros e H2.
    unfold ORTNaNChecker.load_model, bind, lift, ORTNaNChecker.set_model,
      ORTNaNChecker.set_inp_spec. simpl. rewrite H1, H2. reflexivity.
Qed.

Lemma load_model_again_witness :
  (forall s2, analyze_one false = Ok s2 ->
     (ORTNaNChecker.load_model analyze_one true ;;;
      ORTNaNChecker.load_model analyze_one false)
       (ORTNaNChecker.init (E := unit) 7%Z tt)
     = ORTNaNChecker.load_model analyze_one false
         (ORTNaNChecker.init (E := unit) 7%Z tt)) /\
  (forall e, analyze_one false = Raise e ->
     (ORTNaNChecker.load_model analyze_one true ;;;
      ORTNaNChecker.load_model analyze_one false)
       (ORTNaNChecker.init (E := unit) 7%Z tt)
     = (Raise e,
        {| ORTNaNChecker.np_random := 7%Z;
           ORTNaNChecker.rf_exe := tt;
           ORTNaNChecker.model := Some false;
           ORTNaNChecker.inp_spec := Some float_spec |})).
Proof.
  apply (load_model_again analyze_one true false float_spec
           (ORTNaNChecker.init (E := unit) 7%Z tt) eq_refl).
Defined.

(** * Further properties of the range search *)

(** ** The number of queries *)

Section BinarySearchQueries.

Context {W : Type}.

Variable cnt : W -> nat.
Variable checker : Q -> M W bool.

Hypothesis checker_counts : forall x w, cnt (snd (checker x w)) = S (cnt w).

Lemma binary_search_loop_queries rof l r w :
  (cnt (snd (binary_search_loop checker rof l r w)) <= cnt w + halvings l r)%nat.
Proof.
  funelim (binary_search_loop checker rof l r w).
  - simpl. lia.
  - pose proof (checker_counts ((l + r) / 2) w) as Hc. rewrite Heq in Hc. simpl in Hc.
    assert (Hs : (halvings l ((l + r) / 2) < halvings l r)%nat)
      by (apply halvings_step; [exact Hgt | field]).
    destruct return_on_first.
    + simpl. lia.
    + lia.
  - pose proof (checker_counts ((l + r) / 2) w) as Hc. rewrite Heq in Hc. simpl in Hc.
    assert (Hs : (halvings ((l + r) / 2) r < halvings l r)%nat)
      by (apply halvings_step; [exact Hgt | field]).
    lia.
  - pose proof (checker_counts ((l + r) / 2) w) as Hc. rewrite Heq in Hc. simpl in Hc.
    assert (Hs : (halvings l ((l + r) / 2) < halvings l r)%nat)
      by (apply halvings_step; [exact Hgt | field]).
    simpl. lia.
Qed.

Lemma binary_search_queries rof l r w :
  (cnt (snd (binary_search l r checker rof w)) <= cnt w + 1 + halvings l r)%nat.
Proof.
  unfold binary_search. destruct (Qeq_bool l r).
  - simpl. lia.
  - unfold bind. pose proof (checker_counts l w) as Hc.
    destruct (checker l w) as [[[|] | e] w1]; simpl in *.
    + lia.
    + pose proof (binary_search_loop_queries rof l r w1). lia.
    + lia.
Qed.

End BinarySearchQueries.

Lemma halvings_window l r : r - l <= 11 -> (halvings l r <= 14)%nat.
Proof.
  intros H. apply halvings_least.
  eapply Qle_trans; [exact H |]. unfold EPS. vm_compute. discriminate.
Qed.

Section SearchQueries.

Context {Model W : Type} {C : NaNChecker Model W}.

Variable cnt : W -> nat.

Hypothesis no_nan_counts : forall l r w, cnt (snd (no_nan l r w)) = S (cnt w).

Lemma search_queries_left last_r p w :
  p - last_r <= 11 ->
  (cnt (snd (binary_search last_r p (fun l => no_nan l p) true w)) <= cnt w + 15)%nat.
Proof.
  intros Hw.
  pose proof (binary_search_queries cnt (fun l => no_nan l p)
                (fun x w0 => no_nan_counts x p w0) true last_r p w) as H.
  pose proof (halvings_window last_r p Hw). lia.
Qed.

Lemma search_queries_right l p w :
  -1 <= p ->
  (cnt (snd (binary_search (- R) (- p) (fun r => no_nan l (- r)) true w))
   <= cnt w + 15)%nat.
Proof.
  intros Hp.
  pose proof (binary_search_queries cnt (fun r => no_nan l (- r))
                (fun x w0 => no_nan_counts l (- x) w0) true (- R) (- p) w) as H.
  assert (Hw : - p - - R <= 11) by (unfold R; lra).
  pose proof (halvings_window (- R) (- p) Hw). lia.
Qed.

Lemma get_range_step_queries b vr p w :
  search_inv b vr -> b <= p -> In p a ->
  (cnt (snd (get_range_step vr p w)) <= cnt w + 32)%nat.
Proof.
  intros Hinv Hbp Hin. pose proof (a_bounds p Hin) as [Hp1 Hp2].
  unfold get_range_step.
  destruct (included vr p) eqn:Einc; [simpl; lia |].
  unfold bind at 1.
  pose proof (no_nan_counts p p w) as Hq1.
  destruct (no_nan p p w) as [[[|] | e] w1]; simpl in *; [| lia | lia].
  destruct (last_rng_cases vr) as [[Evr Elast] | [pre [lst [Evr Elast]]]]; rewrite Elast.
  - subst vr. unfold bind at 1. unfold ret at 1.
    unfold bind at 1.
    assert (HwL : p - L <= 11) by (unfold L; lra).
    pose proof (search_queries_left L p w1 HwL) as Hq2.
    destruct (binary_search L p (fun l => no_nan l p) true w1) as [[l | e] w2];
      simpl in *; [| lia].
    unfold bind at 1.
    pose proof (search_queries_right l p w2 Hp1) as Hq3.
    destruct (binary_search (- R) (- p) (fun r => no_nan l (- r)) true w2)
      as [[r' | e] w3]; simpl in *; lia.
  - destruct Hinv as [Hc Hf]. subst vr.
    apply Forall_app in Hf. destruct Hf as [_ Hflst].
    inversion Hflst as [| ? ? Hlst _]; subst.
    destruct Hlst as (Hl1 & Hl2 & Hl3 & Hl4 & _).
    unfold bind at 1.
    pose proof (no_nan_counts (fst lst) p w1) as Hq2.
    destruct (no_nan (fst lst) p w1) as [[[|] | e] w2]; simpl in *; [lia | | lia].
    unfold bind at 1.
    assert (Hw : p - snd lst <= 11) by (unfold L in Hl1; lra).
    pose proof (search_queries_left (snd lst) p w2 Hw) as Hq3.
    destruct (binary_search (snd lst) p (fun l => no_nan l p) true w2)
      as [[l | e] w3]; simpl in *; [| lia].
    unfold bind at 1.
    pose proof (search_queries_right l p w3 Hp1) as Hq4.
    destruct (binary_search (- R) (- p) (fun r => no_nan l (- r)) true w3)
      as [[r' | e] w4]; simpl in *; lia.
Qed.

Lemma get_range_loop_queries points : forall b vr w,
  search_inv b vr ->
  StronglySorted Qle points ->
  Forall (fun p => b <= p /\ In p a) points ->
  (cnt (snd (get_range_loop points vr w)) <= cnt w + 32 * List.length points)%nat.
Proof.
  induction points as [| p points IH]; intros b vr w Hinv Hs Hf.
  - simpl. lia.
  - inversion Hs as [| ? ? Hs' Hle]; subst.
    inversion Hf as [| ? ? [Hbp Hin] Hf']; subst.
    cbn [get_range_loop]. unfold bind.
    pose proof (get_range_step_queries b vr p w Hinv Hbp Hin) as Hq.
    destruct (get_range_step vr p w) as [[vr1 | e] w1] eqn:Estep;
      simpl snd in Hq; [| simpl; lia].
    assert (Hinv1 : search_inv p vr1) by (eapply get_range_step_inv; eassumption).
    assert (Hf1 : Forall (fun q => p <= q /\ In q a) points).
    { apply Forall_forall. intros q Hq'. rewrite Forall_forall in Hle, Hf'.
      split; [apply Hle; exact Hq' | apply Hf'; exact Hq']. }
    specialize (IH p vr1 w1 Hinv1 Hs' Hf1). simpl List.length. lia.
Qed.

Lemma get_range_queries w :
  (cnt (snd (_get_range w)) <= cnt w + 320)%nat.
Proof.
  unfold _get_range, bind.
  assert (H : (cnt (snd (get_range_loop a [] w)) <= cnt w + 32 * 10)%nat).
  { apply (get_range_loop_queries a (-1) [] w).
    - split; constructor.
    - exact a_sorted.
    - apply Forall_forall. intros p Hp. split; [apply a_bounds; exact Hp | exact Hp]. }
  destruct (get_range_loop a [] w) as [[vr | e] w1]; simpl snd in H.
  - destruct vr; simpl; lia.
  - simpl. lia.
Qed.

Hypothesis load_model_counts : forall m w, cnt (snd (load_model m w)) = cnt w.

Lemma infer_domain_queries m w :
  (cnt (snd (infer_domain m w)) <= cnt w + 321)%nat.
Proof.
  unfold infer_domain, bind.
  pose proof (load_model_counts m w) as Hl.
  destruct (load_model m w) as [[[] | e] w1]; simpl snd in Hl; [| simpl; lia].
  pose proof (no_nan_counts 0 1 w1) as Hq.
  destruct (no_nan 0 1 w1) as [[[|] | e] w2]; simpl snd in Hq;
    [simpl; lia | | simpl; lia].
  pose proof (get_range_queries w2). lia.
Qed.

End SearchQueries.

Section SearchSize.

Context {Model W : Type} {C : NaNChecker Model W}.

Lemma get_range_step_length vr p w vr' w' :
  get_range_step vr p w = (Ok vr', w') ->
  (List.length vr' <= S (List.length vr))%nat.
Proof.
  unfold get_range_step.
  destruct (included vr p); [unfold ret; intros H; inv_pair H; lia |].
  unfold bind at 1.
  destruct (no_nan p p w) as [[[|] | e] w1]; simpl;
    [| unfold ret; intros H; inv_pair H; lia | discriminate].
  destruct (last_rng_cases vr) as [[Evr Elast] | [pre [lst [Evr Elast]]]]; rewrite Elast.
  - unfold bind, ret.
    repeat match goal with
           | |- context [binary_search ?x ?y ?c ?d ?w0] =>
               destruct (binary_search x y c d w0) as [[? | ?] ?]; try discriminate
           end.
    intros H. inv_pair H. rewrite length_app. simpl. lia.
  - unfold bind at 1.
    destruct (no_nan (fst lst) p w1) as [[[|] | e] w2]; [| | discriminate].
    + unfold ret. intros H. inv_pair H. rewrite set_last_snoc.
      rewrite !length_app. simpl. lia.
    + unfold bind, ret.
      repeat match goal with
             | |- context [binary_search ?x ?y ?c ?d ?w0] =>
                 destruct (binary_search x y c d w0) as [[? | ?] ?]; try discriminate
             end.
      intros H. inv_pair H. rewrite length_app. simpl. lia.
Qed.

Lemma get_range_loop_length points : forall vr w vr' w',
  get_range_loop points vr w = (Ok vr', w') ->
  (List.length vr' <= List.length vr + List.length points)%nat.
Proof.
  induction points as [| p points IH]; intros vr w vr' w'; simpl.
  - unfold ret. intros H. inv_pair H. lia.
  - unfold bind.
    destruct (get_range_step vr p w) as [[vr1 | e] w1] eqn:Es; [| discriminate].
    intros H. apply IH in H. apply get_range_step_length in Es. lia.
Qed.

End SearchSize.

(** X13.  The cost of a domain inference, for every checker: counting
    the decision queries with a logging checker, [infer_domain] makes at
    most 321 of them (one for the fast path and at most 32 for each of
    the 10 seed points: the point query, the extension query and two
    bisections of at most 15 queries each), and the list it returns has
    at most 10 ranges. *)
Theorem infer_domain_cost {Model W : Type} (C : NaNChecker Model W)
    (m : Model) (w : W) (log : list Range) :
  (queries (snd (@infer_domain _ _ (logging C) m (w, log))) <= queries (w, log) + 321)%nat /\
  forall vr w',
    @infer_domain _ _ C m w = (Ok (Some vr), w') -> (List.length vr <= 10)%nat.
Proof.
  split.
  - apply (infer_domain_queries (C := logging C) queries).
    + intros l r [w0 log0]. simpl.
      destruct (@no_nan _ _ C l r w0) as [res w1]. unfold queries. simpl.
      rewrite length_app. simpl. rewrite Nat.add_1_r. reflexivity.
    + intros m0 [w0 log0]. simpl.
      destruct (@load_model _ _ C m0 w0) as [res w1]. reflexivity.
  - intros vr w'. unfold infer_domain, bind.
    destruct (load_model m w) as [[[] | e] w1]; [| discriminate].
    destruct (no_nan 0 1 w1) as [[[|] | e] w2]; [| | discriminate].
    + unfold ret. intros H. inv_pair H. simpl. lia.
    + unfold _get_range, bind.
      destruct (get_range_loop a [] w2) as [[vr1 | e] w3] eqn:El; [| discriminate].
      apply get_range_loop_length in El. simpl in El.
      destruct vr1; unfold ret; intros H; inv_pair H.
      assert (Hlen : List.length a = 10%nat) by reflexivity. lia.
Qed.

(** ** What the ranges found guarantee *)

Lemma Qopp_opp_eq (q : Q) : - - q = q.
Proof. destruct q as [n d]. unfold Qopp. simpl. rewrite Z.opp_involutive. reflexivity. Qed.

Section BinarySearchAccepts.

Context {W : Type}.

Variable pred : Q -> bool.
Variable checker : Q -> M W bool.

Hypothesis checker_pred : forall x w, fst (checker x w) = Ok (pred x).

Lemma binary_search_loop_accepts rof l r w :
  exists x w',
    binary_search_loop checker rof l r w = (Ok x, w') /\ (pred x = true \/ x = r).
Proof.
  funelim (binary_search_loop checker rof l r w).
  - exists r, w. split; [reflexivity | right; reflexivity].
  - pose proof (checker_pred ((l + r) / 2) w) as Hc. rewrite Heq in Hc. simpl in Hc.
    inversion Hc as [Hm]. symmetry in Hm.
    destruct return_on_first.
    + exists ((l + r) / 2), w'. split; [reflexivity | left; exact Hm].
    + destruct H as (x & w2 & Hrun & [Hx | Hx]).
      * exists x, w2. split; [exact Hrun | left; exact Hx].
      * exists x, w2. split; [exact Hrun | left; subst x; exact Hm].
  - exact H.
  - pose proof (checker_pred ((l + r) / 2) w) as Hc. rewrite Heq in Hc. simpl in Hc.
    discriminate.
Qed.

Lemma binary_search_accepts rof l r w :
  l < r ->
  exists x w',
    binary_search l r checker rof w = (Ok x, w') /\ (pred x = true \/ x = r).
Proof.
  intros Hlr. unfold binary_search.
  assert (E : Qeq_bool l r = false).
  { destruct (Qeq_bool l r) eqn:E; [| reflexivity]. apply Qeq_bool_iff in E. lra. }
  rewrite E. unfold bind.
  pose proof (checker_pred l w) as Hc.
  destruct (checker l w) as [res w1]. simpl in Hc. subst res.
  destruct (pred l) eqn:El.
  - exists l, w1. split; [reflexivity | left; exact El].
  - apply binary_search_loop_accepts.
Qed.

End BinarySearchAccepts.

Section StatelessChecker.

Context {Model W : Type} {C : NaNChecker Model W}.

Variable f : Q -> Q -> bool.

Hypothesis answers : forall l r w, fst (no_nan l r w) = Ok (f l r).

Lemma stateless_run l r w : exists w', no_nan l r w = (Ok (f l r), w').
Proof.
  pose proof (answers l r w) as H. destruct (no_nan l r w) as [res w'].
  simpl in H. subst res. exists w'. reflexivity.
Qed.

(** What one iteration does for a stateless checker, given the
    invariant of the loop: it returns, keeps every point covered, covers
    the seed point when the checker accepts it, and only adds ranges the
    checker accepts. *)
Lemma get_range_step_stateless b vr p w :
  search_inv b vr -> b <= p -> In p a ->
  exists vr' w',
    get_range_step vr p w = (Ok vr', w') /\
    (accepted f vr -> accepted f vr') /\
    (forall q, covered q vr -> covered q vr') /\
    (f p p = true -> covered p vr').
Proof.
  intros Hinv Hbp Hin. pose proof (a_bounds p Hin) as [Hp1 Hp2].
  unfold get_range_step.
  destruct (included vr p) eqn:Einc.
  { exists vr, w. split; [reflexivity |]. split; [auto |]. split; [auto |].
    intros _. apply included_true in Einc. destruct Einc as (rng & H1 & H2 & H3).
    exists rng. split; [exact H1 | split; assumption]. }
  apply included_false in Einc.
  destruct (stateless_run p p w) as [w1 Hpp]. unfold bind at 1. rewrite Hpp.
  destruct (f p p) eqn:Efpp; cbn [negb].
  2:{ exists vr, w1. split; [reflexivity |]. split; [auto |]. split; [auto |].
      discriminate. }
  destruct (last_rng_cases vr) as [[Evr Elast] | [pre [lst [Evr Elast]]]]; rewrite Elast;
    cbv beta iota zeta.
  - (* first range *)
    subst vr. unfold bind at 1. unfold ret at 1. cbv beta iota.
    assert (HLp : L < p) by (unfold L; lra).
    destruct (binary_search_accepts (fun x => f x p) (fun l => no_nan l p)
                (fun x w0 => answers x p w0) true L p w1 HLp)
      as (l & w2 & Hl & Hlacc).
    pose proof Hl as Hlb. apply binary_search_bounds in Hlb; [| lra].
    assert (HRp : - R < - p) by (unfold R; lra).
    destruct (binary_search_accepts (fun x => f l (- x)) (fun r => no_nan l (- r))
                (fun x w0 => answers l (- x) w0) true (- R) (- p) w2 HRp)
      as (r' & w3 & Hr & Hracc).
    pose proof Hr as Hrb. apply binary_search_bounds in Hrb; [| lra].
    exists [(l, - r')], w3. split.
    + unfold bind. rewrite Hl, Hr. reflexivity.
    + assert (Hflp : f l p = true).
      { destruct Hlacc as [H | H]; [exact H | subst l; exact Efpp]. }
      assert (Hflr : f l (- r') = true).
      { destruct Hracc as [H | H]; [exact H |]. subst r'. rewrite Qopp_opp_eq. exact Hflp. }
      split; [| split].
      * intros _. constructor; [exact Hflr | constructor].
      * intros q (rng & [] & _).
      * intros _. exists (l, - r'). split; [left; reflexivity |].
        unfold in_range; simpl. split; lra.
  - (* there is a previous range *)
    destruct Hinv as [Hc Hf]. subst vr.
    apply Forall_app in Hf. destruct Hf as [Hfpre Hflst].
    inversion Hflst as [| ? ? Hlst _]; subst.
    apply Forall_app in Einc. destruct Einc as [_ Einc].
    inversion Einc as [| ? ? Hnin _]; subst.
    destruct Hlst as (Hl1 & Hl2 & Hl3 & Hl4 & _).
    assert (Hhi : snd lst < p).
    { apply Qnot_le_lt. intros Hle. apply Hnin. split; lra. }
    destruct (stateless_run (fst lst) p w1) as [w2 Hext].
    unfold bind at 1. rewrite Hext.
    destruct (f (fst lst) p) eqn:Eext.
    + (* extended *)
      exists (set_last (pre ++ [lst]) (fst lst, p)), w2.
      split; [reflexivity |]. rewrite set_last_snoc. split; [| split].
      * intros Hacc. apply Forall_app in Hacc. destruct Hacc as [Hacc _].
        apply Forall_app. split; [exact Hacc |]. constructor; [exact Eext | constructor].
      * intros q (rng & Hrng & Hq1 & Hq2). apply in_app_or in Hrng.
        destruct Hrng as [Hrng | [Hrng | []]].
        -- exists rng. split; [apply in_or_app; left; exact Hrng | split; assumption].
        -- subst rng. exists (fst lst, p).
           split; [apply in_or_app; right; left; reflexivity |].
           unfold in_range; simpl. split; [exact Hq1 | lra].
      * intros _. exists (fst lst, p).
        split; [apply in_or_app; right; left; reflexivity |].
        unfold in_range; simpl. split; lra.
    + (* a new range *)
      destruct (binary_search_accepts (fun x => f x p) (fun l => no_nan l p)
                  (fun x w0 => answers x p w0) true (snd lst) p w2 Hhi)
        as (l & w3 & Hl & Hlacc).
      pose proof Hl as Hlb. apply binary_search_bounds in Hlb; [| lra].
      assert (HRp : - R < - p) by (unfold R; lra).
      destruct (binary_search_accepts (fun x => f l (- x)) (fun r => no_nan l (- r))
                  (fun x w0 => answers l (- x) w0) true (- R) (- p) w3 HRp)
        as (r' & w4 & Hr & Hracc).
      pose proof Hr as Hrb. apply binary_search_bounds in Hrb; [| lra].
      exists ((pre ++ [lst]) ++ [(l, - r')]), w4. split.
      * unfold bind. rewrite Hl, Hr. reflexivity.
      * assert (Hflp : f l p = true).
        { destruct Hlacc as [H | H]; [exact H | subst l; exact Efpp]. }
        assert (Hflr : f l (- r') = true).
        { destruct Hracc as [H | H]; [exact H |]. subst r'. rewrite Qopp_opp_eq. exact Hflp. }
        split; [| split].
        -- intros Hacc. apply Forall_app. split; [exact Hacc |].
           constructor; [exact Hflr | constructor].
        -- intros q (rng & Hrng & Hq). exists rng.
           split; [apply in_or_app; left; exact Hrng | exact Hq].
        -- intros _. exists (l, - r'). split; [apply in_or_app; right; left; reflexivity |].
           unfold in_range; simpl. split; lra.
Qed.

Lemma get_range_loop_stateless points : forall b vr w,
  search_inv b vr ->
  StronglySorted Qle points ->
  Forall (fun p => b <= p /\ In p a) points ->
  exists vr' w',
    get_range_loop points vr w = (Ok vr', w') /\
    (accepted f vr -> accepted f vr') /\
    (forall q, covered q vr -> covered q vr') /\
    (forall p, In p points -> f p p = true -> covered p vr').
Proof.
  induction points as [| p points IH]; intros b vr w Hinv Hs Hf.
  - exists vr, w. split; [reflexivity |]. split; [auto |]. split; [auto |]. intros p [].
  - inversion Hs as [| ? ? Hs' Hle]; subst.
    inversion Hf as [| ? ? [Hbp Hin] Hf']; subst.
    destruct (get_range_step_stateless b vr p w Hinv Hbp Hin)
      as (vr1 & w1 & Hstep & Hacc1 & Hcov1 & Hp1).
    assert (Hinv1 : search_inv p vr1) by (eapply get_range_step_inv; eassumption).
    assert (Hf1 : Forall (fun q => p <= q /\ In q a) points).
    { apply Forall_forall. intros q Hq'. rewrite Forall_forall in Hle, Hf'.
      split; [apply Hle; exact Hq' | apply Hf'; exact Hq']. }
    destruct (IH p vr1 w1 Hinv1 Hs' Hf1) as (vr' & w' & Hloop & Hacc & Hcov & Hps).
    exists vr', w'. split.
    + simpl. unfold bind. rewrite Hstep. exact Hloop.
    + split; [auto |]. split; [auto |].
      intros q [Hq | Hq] Hfq; [subst q; apply Hcov; apply Hp1; exact Hfq
                              | apply Hps; assumption].
Qed.

Lemma get_range_stateless w :
  exists res w',
    _get_range w = (Ok res, w') /\
    (forall vr, res = Some vr -> accepted f vr) /\
    (forall p, In p a -> f p p = true -> exists vr, res = Some vr /\ covered p vr).
Proof.
  destruct (get_range_loop_stateless a (-1) [] w) as (vr & w' & Hloop & Hacc & _ & Hcov).
  { split; constructor. }
  { exact a_sorted. }
  { apply Forall_forall. intros p Hp. split; [apply a_bounds; exact Hp | exact Hp]. }
  unfold _get_range, bind. rewrite Hloop.
  destruct vr as [| rng vr].
  - exists None, w'. split; [reflexivity |]. split; [discriminate |].
    intros p Hp Hfp. destruct (Hcov p Hp Hfp) as (rng & [] & _).
  - exists (Some (rng :: vr)), w'. split; [reflexivity |]. split.
    + intros vr0 H. inversion H; subst. apply Hacc. constructor.
    + intros p Hp Hfp. exists (rng :: vr). split; [reflexivity | apply Hcov; assumption].
Qed.

End StatelessChecker.

(** X14.  For a checker whose answer depends only on the queried range
    and whose [load_model] succeeds, [infer_domain] returns, and every
    range it returns is one the checker accepts as a whole: the answer of
    the checker to the query of that range is true. *)
Theorem infer_domain_ranges_accepted {Model W : Type} (C : NaNChecker Model W)
    (f : Q -> Q -> bool) (m : Model) (w : W) :
  (forall m0 w0, fst (@load_model _ _ C m0 w0) = Ok tt) ->
  (forall l r w0, fst (@no_nan _ _ C l r w0) = Ok (f l r)) ->
  exists res w',
    @infer_domain _ _ C m w = (Ok res, w') /\
    forall vr, res = Some vr -> accepted f vr.
Proof.
  intros Hload Hans. unfold infer_domain, bind.
  pose proof (Hload m w) as Hl. destruct (load_model m w) as [res0 w0].
  simpl in Hl. subst res0.
  destruct (stateless_run f Hans 0 1 w0) as [w1 H01]. rewrite H01.
  destruct (f 0 1) eqn:E01.
  - exists (Some [(0, 1)]), w1. split; [reflexivity |].
    intros vr H. inversion H; subst. constructor; [exact E01 | constructor].
  - destruct (get_range_stateless f Hans w1) as (res & w' & Hrun & Hacc & _).
    exists res, w'. split; [exact Hrun | exact Hacc].
Qed.

Lemma infer_domain_ranges_accepted_witness :
  exists res w',
    @infer_domain _ _ (pure_checker (width_safe (3 # 4))) tt 0%nat = (Ok res, w') /\
    forall vr, res = Some vr -> accepted (width_safe (3 # 4)) vr.
Proof.
  apply (infer_domain_ranges_accepted (pure_checker (width_safe (3 # 4)))
           (width_safe (3 # 4)) tt 0%nat).
  - intros m0 w0. reflexivity.
  - intros l r w0. reflexivity.
Defined.

(** X15.  For such a checker that rejects the range (0, 1), every seed
    point the checker accepts as a point lies in one of the ranges
    [infer_domain] returns; in particular the result is [None] only when
    the checker rejects every seed point. *)
Theorem infer_domain_covers_safe_seeds {Model W : Type} (C : NaNChecker Model W)
    (f : Q -> Q -> bool) (m : Model) (w w' : W) (res : option (list Range)) :
  (forall l r w0, fst (@no_nan _ _ C l r w0) = Ok (f l r)) ->
  f 0 1 = false ->
  @infer_domain _ _ C m w = (Ok res, w') ->
  forall p, In p a -> f p p = true -> exists vr, res = Some vr /\ covered p vr.
Proof.
  intros Hans H01. unfold infer_domain, bind.
  destruct (load_model m w) as [[[] | e] w0]; [| discriminate].
  destruct (stateless_run f Hans 0 1 w0) as [w1 Hq]. rewrite Hq, H01.
  destruct (get_range_stateless f Hans w1) as (res1 & w2 & Hrun & _ & Hcov).
  rewrite Hrun. intros H. inv_pair H. exact Hcov.
Qed.

Lemma infer_domain_covers_safe_seeds_witness :
  exists vr, fst half_interval_outcome = Ok (Some vr) /\ covered (nth 4 a 0) vr.
Proof.
  destruct (infer_domain_covers_safe_seeds (pure_checker (interval_safe (1 # 2)))
              (interval_safe (1 # 2)) tt 0%nat (snd half_interval_outcome)
              (match fst half_interval_outcome with Ok r => r | Raise _ => None end)
              (fun l r w0 => eq_refl) eq_refl ltac:(vm_compute; reflexivity)
              (nth 4 a 0) ltac:(vm_compute; tauto) eq_refl)
    as (vr & Hres & Hcov).
  exists vr. split; [| exact Hcov].
  unfold half_interval_outcome in *. simpl in *. rewrite Hres. reflexivity.
Defined.

(** ** Exceptions *)

Section NeverRaises.

Context {Model W : Type} {C : NaNChecker Model W}.

Hypothesis no_nan_returns : forall l r w, exists b w', no_nan l r w = (Ok b, w').

Lemma binary_search_loop_returns (checker : Q -> M W bool) rof l r w :
  (forall x w0, exists b w', checker x w0 = (Ok b, w')) ->
  exists x w', binary_search_loop checker rof l r w = (Ok x, w').
Proof.
  funelim (binary_search_loop checker rof l r w); intros Hc.
  - eexists. eexists. reflexivity.
  - destruct return_on_first; [eexists; eexists; reflexivity | apply H; exact Hc].
  - apply H. exact Hc.
  - destruct (Hc ((l + r) / 2) w) as (b & w1 & Hb). rewrite Heq in Hb. discriminate.
Qed.

Lemma binary_search_returns (checker : Q -> M W bool) rof l r w :
  (forall x w0, exists b w', checker x w0 = (Ok b, w')) ->
  exists x w', binary_search l r checker rof w = (Ok x, w').
Proof.
  intros Hc. unfold binary_search.
  destruct (Qeq_bool l r); [eexists; eexists; reflexivity |].
  unfold bind. destruct (Hc l w) as (b & w1 & Hb). rewrite Hb.
  destruct b; [eexists; eexists; reflexivity |].
  apply binary_search_loop_returns. exact Hc.
Qed.

Lemma get_range_step_returns vr p w :
  exists vr' w', get_range_step vr p w = (Ok vr', w').
Proof.
  unfold get_range_step.
  destruct (included vr p); [eexists; eexists; reflexivity |].
  unfold bind at 1.
  destruct (no_nan_returns p p w) as (b & w1 & Hpp). rewrite Hpp.
  destruct b; cbn [negb]; [| eexists; eexists; reflexivity].
  assert (Hext : exists b w2,
            match last_rng vr with
            | Some lst => no_nan (fst lst) p
            | None => ret false
            end w1 = (Ok b, w2)).
  { destruct (last_rng vr) as [lst |]; [apply no_nan_returns |].
    eexists. eexists. reflexivity. }
  destruct Hext as (b & w2 & Hext). unfold bind at 1. rewrite Hext.
  destruct b; [eexists; eexists; reflexivity |].
  cbv zeta. unfold bind at 1.
  match goal with
  | |- context [binary_search ?x ?y ?c ?d w2] =>
      destruct (binary_search_returns c d x y w2) as (l & w3 & Hl);
        [intros x0 w0; apply no_nan_returns | rewrite Hl]
  end.
  unfold bind at 1.
  match goal with
  | |- context [binary_search ?x ?y ?c ?d w3] =>
      destruct (binary_search_returns c d x y w3) as (r' & w4 & Hr);
        [intros x0 w0; apply no_nan_returns | rewrite Hr]
  end.
  eexists. eexists. reflexivity.
Qed.

Lemma get_range_loop_returns points : forall vr w,
  exists vr' w', get_range_loop points vr w = (Ok vr', w').
Proof.
  induction points as [| p points IH]; intros vr w; simpl.
  - eexists. eexists. reflexivity.
  - unfold bind. destruct (get_range_step_returns vr p w) as (vr1 & w1 & Hs).
    rewrite Hs. apply IH.
Qed.

Lemma get_range_returns w : exists res w', _get_range w = (Ok res, w').
Proof.
  unfold _get_range, bind.
  destruct (get_range_loop_returns a [] w) as (vr & w1 & H). rewrite H.
  destruct vr; eexists; eexists; reflexivity.
Qed.

End NeverRaises.

(** X16.  The search raises nothing of its own: when neither method of
    the checker raises, [infer_domain] returns a result (a list of ranges
    or [None]) for every model and from every state of the world.  An
    exception of [infer_domain] is therefore always one the checker
    raised. *)
Theorem infer_domain_returns {Model W : Type} (C : NaNChecker Model W)
    (m : Model) (w : W) :
  never_raises C ->
  exists res w', @infer_domain _ _ C m w = (Ok res, w').
Proof.
  intros [Hload Hquery]. unfold infer_domain, bind.
  destruct (Hload m w) as (w0 & Hl). rewrite Hl.
  destruct (Hquery 0 1 w0) as (b & w1 & Hq). rewrite Hq.
  destruct b; [eexists; eexists; reflexivity |].
  apply get_range_returns. exact Hquery.
Qed.

Lemma infer_domain_returns_witness :
  exists res w',
    @infer_domain _ _ (pure_checker (width_safe (3 # 4))) tt 0%nat = (Ok res, w').
Proof.
  apply (infer_domain_returns (pure_checker (width_safe (3 # 4))) tt 0%nat).
  split.
  - intros m w. eexists. reflexivity.
  - intros l r w. eexists. eexists. reflexivity.
Defined.

(** * Properties of [TorchExecutor.predict] *)

Section TorchSort.

Import TorchExecutor.

Context {A : Type}.

Lemma insert_by_key_perm (x : Z * A) l : Permutation (insert_by_key x l) (x :: l).
Proof.
  induction l as [| y l IH]; simpl.
  - apply Permutation_refl.
  - destruct (fst x <=? fst y)%Z.
    + apply Permutation_refl.
    + eapply Permutation_trans; [apply perm_skip; exact IH | apply perm_swap].
Qed.

Lemma sorted_by_key_perm (l : list (Z * A)) : Permutation (sorted_by_key l) l.
Proof.
  induction l as [| x l IH]; simpl.
  - apply Permutation_refl.
  - eapply Permutation_trans; [apply insert_by_key_perm | apply perm_skip; exact IH].
Qed.

Lemma insert_by_key_sorted (x : Z * A) l :
  StronglySorted (fun u v => (fst u <= fst v)%Z) l ->
  StronglySorted (fun u v => (fst u <= fst v)%Z) (insert_by_key x l).
Proof.
  induction l as [| y l IH]; simpl; intros Hs.
  - constructor; constructor.
  - inversion Hs as [| ? ? Hs' Hy]; subst.
    destruct (fst x <=? fst y)%Z eqn:E.
    + apply Z.leb_le in E. constructor; [exact Hs |].
      constructor; [exact E |].
      eapply Forall_impl; [| exact Hy]. simpl. intros z Hz. lia.
    + apply Z.leb_gt in E. constructor; [apply IH; exact Hs' |].
      eapply Permutation_Forall; [apply Permutation_sym; apply insert_by_key_perm |].
      constructor; [lia | exact Hy].
Qed.

Lemma sorted_by_key_sorted (l : list (Z * A)) :
  StronglySorted (fun u v => (fst u <= fst v)%Z) (sorted_by_key l).
Proof.
  induction l as [| x l IH]; simpl.
  - constructor.
  - apply insert_by_key_sorted. exact IH.
Qed.

Lemma strictly_sorted_unique (l1 : list (Z * A)) : forall l2,
  StronglySorted (fun u v => (fst u < fst v)%Z) l1 ->
  StronglySorted (fun u v => (fst u < fst v)%Z) l2 ->
  Permutation l1 l2 -> l1 = l2.
Proof.
  induction l1 as [| x l1 IH]; intros l2 H1 H2 Hp.
  - apply Permutation_nil in Hp. subst. reflexivity.
  - destruct l2 as [| y l2].
    { apply Permutation_sym, Permutation_nil in Hp. discriminate. }
    inversion H1 as [| ? ? H1' Hx]; subst. inversion H2 as [| ? ? H2' Hy]; subst.
    assert (Exy : x = y).
    { assert (Hin : In x (y :: l2)) by (eapply Permutation_in; [exact Hp | left; reflexivity]).
      assert (Hin' : In y (x :: l1))
        by (eapply Permutation_in; [apply Permutation_sym; exact Hp | left; reflexivity]).
      destruct Hin as [Hin | Hin]; [symmetry; exact Hin |].
      destruct Hin' as [Hin' | Hin']; [exact Hin' |].
      rewrite Forall_forall in Hx, Hy.
      specialize (Hx y Hin'). specialize (Hy x Hin). lia. }
    subst y. f_equal. apply IH; try assumption.
    eapply Permutation_cons_inv. exact Hp.
Qed.

Lemma sorted_nodup_strict (l : list (Z * A)) :
  StronglySorted (fun u v => (fst u <= fst v)%Z) l ->
  NoDup (map fst l) ->
  StronglySorted (fun u v => (fst u < fst v)%Z) l.
Proof.
  induction l as [| x l IH]; intros Hs Hn.
  - constructor.
  - inversion Hs as [| ? ? Hs' Hx]; subst. simpl in Hn.
    inversion Hn as [| ? ? Hnx Hn']; subst.
    constructor; [apply IH; assumption |].
    rewrite Forall_forall in *. intros y Hy. specialize (Hx y Hy).
    assert (fst x <> fst y).
    { intros E. apply Hnx. rewrite E. apply in_map. exact Hy. }
    lia.
Qed.

Lemma sorted_by_key_perm_eq (l1 l2 : list (Z * A)) :
  Permutation l1 l2 -> NoDup (map fst l1) ->
  sorted_by_key l1 = sorted_by_key l2.
Proof.
  intros Hp Hn.
  assert (Hp12 : Permutation (sorted_by_key l1) (sorted_by_key l2)).
  { eapply Permutation_trans; [apply sorted_by_key_perm |].
    eapply Permutation_trans; [exact Hp | apply Permutation_sym, sorted_by_key_perm]. }
  apply strictly_sorted_unique; [| | exact Hp12].
  - apply sorted_nodup_strict; [apply sorted_by_key_sorted |].
    eapply Permutation_NoDup; [| exact Hn].
    apply Permutation_map. apply Permutation_sym. apply sorted_by_key_perm.
  - apply sorted_nodup_strict; [apply sorted_by_key_sorted |].
    eapply Permutation_NoDup; [| exact Hn].
    apply Permutation_map.
    eapply Permutation_trans; [exact Hp | apply Permutation_sym, sorted_by_key_perm].
Qed.

End TorchSort.

Section TorchPredict.

Import TorchExecutor.

Context {E : Type}.

Variable py_int : string -> result Z.
Variable torch_model : list ndarray -> M E (list ndarray).

Lemma keyed_ok items ks :
  keyed py_int items = Ok ks ->
  map snd ks = items /\
  Forall (fun kkv => py_int (drop_first (fst (snd kkv))) = Ok (fst kkv)) ks.
Proof.
  revert ks. induction items as [| kv items IH]; intros ks; simpl.
  - intros H. inversion H. split; [reflexivity | constructor].
  - destruct (py_int (drop_first (fst kv))) as [k | e] eqn:Ek; [| discriminate].
    destruct (keyed py_int items) as [ks' | e]; [| discriminate].
    intros H. inversion H; subst. destruct (IH ks' eq_refl) as [H1 H2].
    split; [simpl; rewrite H1; reflexivity | constructor; [exact Ek | exact H2]].
Qed.

Lemma keyed_perm items1 items2 ks1 :
  Permutation items1 items2 ->
  keyed py_int items1 = Ok ks1 ->
  exists ks2, keyed py_int items2 = Ok ks2 /\ Permutation ks1 ks2.
Proof.
  intros Hp. revert ks1. induction Hp as [| x l l' Hp IH | x y l | l l' l'' Hp1 IH1 Hp2 IH2];
    intros ks1; simpl.
  - intros H. inversion H. exists []. split; [reflexivity | constructor].
  - destruct (py_int (drop_first (fst x))) as [k | e]; [| discriminate].
    destruct (keyed py_int l) as [ks | e]; [| discriminate].
    intros H. inversion H; subst.
    destruct (IH ks eq_refl) as (ks2 & H2 & Hp2). rewrite H2.
    exists ((k, x) :: ks2). split; [reflexivity | apply perm_skip; exact Hp2].
  - destruct (py_int (drop_first (fst y))) as [ky | e]; [| discriminate].
    destruct (py_int (drop_first (fst x))) as [kx | e]; [| discriminate].
    destruct (keyed py_int l) as [ks | e]; [| discriminate].
    intros H. inversion H; subst.
    exists ((kx, x) :: (ky, y) :: ks). split; [reflexivity | apply perm_swap].
  - intros H. destruct (IH1 ks1 H) as (ks2 & H2 & Hp12).
    destruct (IH2 ks2 H2) as (ks3 & H3 & Hp23).
    exists ks3. split; [exact H3 | eapply Permutation_trans; eassumption].
Qed.

Lemma py_str_inj i j : py_str i = py_str j -> i = j.
Proof.
  unfold py_str. intros H.
  apply Unsigned.to_uint_inj.
  assert (H' : Some (Nat.to_uint i) = Some (Nat.to_uint j)).
  { rewrite <- (NilEmpty.usu (Nat.to_uint i)), <- (NilEmpty.usu (Nat.to_uint j)).
    rewrite H. reflexivity. }
  inversion H'. reflexivity.
Qed.

Lemma enumerate_dict_spec outs : forall i d,
  (forall k, In k (map fst d) -> exists j, (j < i)%nat /\ k = py_str j) ->
  enumerate_dict i outs d
  = d ++ combine (map py_str (seq i (List.length outs))) outs.
Proof.
  induction outs as [| t outs IH]; intros i d Hd; simpl.
  - symmetry. apply app_nil_r.
  - rewrite dict_set_fresh.
    + rewrite IH.
      * rewrite <- app_assoc. reflexivity.
      * intros k Hk. rewrite map_app in Hk. apply in_app_or in Hk.
        destruct Hk as [Hk | [Hk | []]].
        -- destruct (Hd k Hk) as (j & Hj & Ek). exists j. split; [lia | exact Ek].
        -- exists i. split; [lia | symmetry; exact Hk].
    + intros Hin. destruct (Hd _ Hin) as (j & Hj & Ek).
      apply py_str_inj in Ek. lia.
Qed.

End TorchPredict.

(** X17.  [TorchExecutor.predict] passes the input arrays to the module
    ordered by the integer that follows the first character of their
    names, not by insertion: the positional arguments are a permutation
    of the arrays with non-decreasing keys.  Hence two input mappings
    that hold the same items in different orders, with distinct keys,
    give the same result. *)
Theorem torch_predict_order {E Model : Type} (py_int : string -> result Z)
    (torch_model : list ndarray -> M E (list ndarray))
    (not_used : Model) (inp : dict ndarray) (ks : list (Z * (string * ndarray))) :
  TorchExecutor.keyed py_int inp = Ok ks ->
  StronglySorted (fun u v => (fst u <= fst v)%Z) (TorchExecutor.sorted_by_key ks) /\
  Permutation (map snd (TorchExecutor.sorted_by_key ks)) inp /\
  (forall e,
     TorchExecutor.predict py_int torch_model not_used inp e
     = (outs <- torch_model (map (fun kkv => snd (snd kkv))
                               (TorchExecutor.sorted_by_key ks)) ;;
        ret (TorchExecutor.enumerate_dict 0 outs [])) e) /\
  (forall inp' e,
     Permutation inp inp' -> NoDup (map fst ks) ->
     TorchExecutor.predict py_int torch_model not_used inp' e
     = TorchExecutor.predict py_int torch_model not_used inp e).
Proof.
  intros Hk. split; [apply sorted_by_key_sorted |]. split; [| split].
  - destruct (keyed_ok py_int inp ks Hk) as [Hm _]. rewrite <- Hm.
    apply Permutation_map. apply sorted_by_key_perm.
  - intros e. unfold TorchExecutor.predict, bind, lift. rewrite Hk. reflexivity.
  - intros inp' e Hp Hn.
    destruct (keyed_perm py_int inp inp' ks Hp Hk) as (ks' & Hk' & Hpk).
    unfold TorchExecutor.predict, bind, lift. rewrite Hk, Hk'.
    rewrite (sorted_by_key_perm_eq ks ks' Hpk Hn). reflexivity.
Qed.

Lemma torch_predict_order_witness :
  StronglySorted (fun u v => (fst u <= fst v)%Z)
    (TorchExecutor.sorted_by_key
       [(10%Z, ("i10"%string, scalar_array 10)); (2%Z, ("i2"%string, scalar_array 2));
        (0%Z, ("i0"%string, scalar_array 0))]) /\
  Permutation
    (map snd (TorchExecutor.sorted_by_key
       [(10%Z, ("i10"%string, scalar_array 10)); (2%Z, ("i2"%string, scalar_array 2));
        (0%Z, ("i0"%string, scalar_array 0))])) torch_inputs /\
  (forall e,
     TorchExecutor.predict digits_only echo_model tt torch_inputs e
     = (outs <- echo_model (map (fun kkv => snd (snd kkv))
          (TorchExecutor.sorted_by_key
             [(10%Z, ("i10"%string, scalar_array 10)); (2%Z, ("i2"%string, scalar_array 2));
              (0%Z, ("i0"%string, scalar_array 0))])) ;;
        ret (TorchExecutor.enumerate_dict 0 outs [])) e) /\
  (forall inp' e,
     Permutation torch_inputs inp' ->
     NoDup (map fst [(10%Z, ("i10"%string, scalar_array 10));
                     (2%Z, ("i2"%string, scalar_array 2));
                     (0%Z, ("i0"%string, scalar_array 0))]) ->
     TorchExecutor.predict digits_only echo_model tt inp' e
     = TorchExecutor.predict digits_only echo_model tt torch_inputs e).
Proof.
  apply (torch_predict_order digits_only echo_model tt torch_inputs). reflexivity.
Defined.

(** X18.  What [TorchExecutor.predict] returns: when a name has no
    integer after its first character the error of [int] is raised and
    the module is not called; an exception of the module propagates;
    otherwise the tensors the module returns are stored, in order, under
    the keys "0", "1", ... *)
Theorem torch_predict_outputs {E Model : Type} (py_int : string -> result Z)
    (torch_model : list ndarray -> M E (list ndarray))
    (not_used : Model) (inp : dict ndarray) (e : E) :
  (forall err, TorchExecutor.keyed py_int inp = Raise err ->
     TorchExecutor.predict py_int torch_model not_used inp e = (Raise err, e)) /\
  (forall ks,
     TorchExecutor.keyed py_int inp = Ok ks ->
     match torch_model (map (fun kkv => snd (snd kkv)) (TorchExecutor.sorted_by_key ks)) e with
     | (Ok outs, e') =>
         TorchExecutor.predict py_int torch_model not_used inp e
         = (Ok (combine (map TorchExecutor.py_str (seq 0 (List.length outs))) outs), e')
     | (Raise err, e') =>
         TorchExecutor.predict py_int torch_model not_used inp e = (Raise err, e')
     end).
Proof.
  split.
  - intros err Hk. unfold TorchExecutor.predict, bind, lift. rewrite Hk. reflexivity.
  - intros ks Hk. unfold TorchExecutor.predict, bind, lift. rewrite Hk.
    cbv zeta.
    destruct (torch_model _ e) as [[outs | err] e']; [| reflexivity].
    unfold ret. rewrite enumerate_dict_spec; [reflexivity |].
    intros k [].
Qed.

(** The example: the inputs inserted as i10, i2, i0 reach the module as
    i0, i2, i10 and come back under the keys "0", "1", "2". *)
Lemma torch_predict_example :
  TorchExecutor.predict digits_only echo_model tt torch_inputs tt
  = (Ok [("0"%string, scalar_array 0); ("1"%string, scalar_array 2);
         ("2"%string, scalar_array 10)], tt) /\
  TorchExecutor.predict digits_only echo_model tt torch_inputs_in_order tt
  = TorchExecutor.predict digits_only echo_model tt torch_inputs tt.
Proof. split; reflexivity. Qed.

(** * Properties of [gen_one_input_for_model] and of the entry point *)

Section InferredRanges.

Context {Model W : Type} {C : NaNChecker Model W}.

Lemma infer_domain_ranges_bounded m w vr w' :
  infer_domain m w = (Ok (Some vr), w') ->
  vr <> [] /\
  Forall (fun rng : Range => L <= fst rng /\ fst rng <= snd rng /\ snd rng <= R) vr.
Proof.
  unfold infer_domain, bind.
  destruct (load_model m w) as [[[] | e] w1]; [| discriminate].
  destruct (no_nan 0 1 w1) as [[[|] | e] w2]; [| | discriminate].
  - unfold ret. intros H. inv_pair H. split; [discriminate |].
    constructor; [| constructor]. simpl. repeat split; discriminate.
  - intros H. apply get_range_inv in H. destruct H as [Hne [b [_ Hf]]].
    split; [exact Hne |]. eapply Forall_impl; [| exact Hf].
    intros rng (H1 & H2 & H3 & _). repeat split; assumption.
Qed.

Lemma infer_domain_returns_aux m w :
  never_raises C -> exists res w', infer_domain m w = (Ok res, w').
Proof.
  intros [Hload Hquery]. unfold infer_domain, bind.
  destruct (Hload m w) as (w0 & Hl). rewrite Hl.
  destruct (Hquery 0 1 w0) as (b & w1 & Hq). rewrite Hq.
  destruct b; [eexists; eexists; reflexivity |].
  apply get_range_returns. exact Hquery.
Qed.

End InferredRanges.

(** X19.  Sampling for a model with [InputGenV3], whatever the checker.
    When the analysis of the model gives the spec:
    every mapping [gen_one_input_for_model] returns is sampled from one
    range [(lo, hi)] with [-10 <= lo <= hi <= 10], so that each array
    has the shape and dtype of its tensor and its float elements lie
    within the global bounds; and when moreover the checker never
    raises, the shapes have no negative dimension and the seed is one
    numpy accepts, a mapping is returned: the search never hands the
    sampler an empty list. *)
Theorem gen_one_input_for_model_bounded {G Model W : Type} {RS : RandomState G}
    {NR : HasNumpyRandom W G} (C : NaNChecker Model W)
    (pickle_file : string -> option (option (list Range)))
    (get_onnx_proto : string -> result Model)
    (analyze_onnx_io : Model -> result InputSpec)
    (model : Model) (spec : InputSpec) (seed : option Z) (w : W) :
  analyze_onnx_io model = Ok spec ->
  (forall inp w',
     gen_one_input_for_model pickle_file get_onnx_proto analyze_onnx_io
       (@infer_domain _ _ C) model seed w = (Ok inp, w') ->
     exists rng : Range,
       L <= fst rng /\ fst rng <= snd rng /\ snd rng <= R /\
       forall name arr, In (name, arr) inp ->
         exists sh, In (name, sh) spec /\ array_of (fst rng) (snd rng) sh arr) /\
  (never_raises C -> valid_shapes spec -> valid_seed seed ->
   exists inp w',
     gen_one_input_for_model pickle_file get_onnx_proto analyze_onnx_io
       (@infer_domain _ _ C) model seed w = (Ok inp, w')).
Proof.
  intros Han.
  assert (Hres : forall res w1,
            @infer_domain _ _ C model w = (Ok res, w1) ->
            exists rngs, rngs <> [] /\
              Forall (fun rng : Range => L <= fst rng /\ fst rng <= snd rng /\ snd rng <= R)
                     rngs /\
              forall g,
                gen_one_input_rngs pickle_file get_onnx_proto analyze_onnx_io
                  (SpecDict spec) (rngs_of res) seed g
                = gen_one_input_rngs pickle_file get_onnx_proto analyze_onnx_io
                    (SpecDict spec) (RngsList rngs) seed g).
  { intros res w1 Hinf. destruct res as [vr |].
    - destruct (infer_domain_ranges_bounded model w vr w1 Hinf) as [Hne Hf].
      exists vr. split; [exact Hne |]. split; [exact Hf | reflexivity].
    - exists [(0, 1)]. split; [discriminate |]. split; [| reflexivity].
      constructor; [| constructor]. simpl. repeat split; discriminate. }
  split.
  - intros inp w'. unfold gen_one_input_for_model, bind, lift. rewrite Han.
    destruct (@infer_domain _ _ C model w) as [[res | e] w1] eqn:Hinf; [| discriminate].
    destruct (Hres res w1 eq_refl) as (rngs & Hne & Hf & Heq).
    unfold on_np_random. rewrite Heq.
    destruct (gen_one_input_rngs_list pickle_file get_onnx_proto analyze_onnx_io
                spec rngs seed (get_np_random w1) Hne) as (rng & Hnth & Hrun).
    rewrite Hrun.
    destruct (gen_one_input spec (fst rng) (snd rng) seed _) as [[inp0 | e] g'] eqn:Hgen;
      [| discriminate].
    intros H. inv_pair H.
    apply nth_error_In in Hnth. rewrite Forall_forall in Hf.
    destruct (Hf rng Hnth) as (H1 & H2 & H3).
    exists (L, R). simpl.
    split; [apply Qle_refl |]. split; [discriminate |]. split; [apply Qle_refl |].
    intros name arr Hin.
    destruct (gen_one_input_sound spec _ _ seed _ g' inp H2 Hgen name arr Hin)
      as (sh & Hsh & Harr).
    exists sh. split; [exact Hsh |].
    apply array_from_of.
    + apply (array_from_mono (fst rng) (snd rng)); assumption.
    + destruct sh.(dtype); simpl; try exact I. split; reflexivity.
  - intros Hnr Hshapes Hseed.
    unfold gen_one_input_for_model, bind, lift. rewrite Han.
    destruct (infer_domain_returns_aux (C := C) model w Hnr) as (res & w1 & Hinf).
    rewrite Hinf.
    destruct (Hres res w1 Hinf) as (rngs & Hne & Hf & Heq).
    unfold on_np_random. rewrite Heq.
    destruct (gen_one_input_rngs_list pickle_file get_onnx_proto analyze_onnx_io
                spec rngs seed (get_np_random w1) Hne) as (rng & Hnth & Hrun).
    rewrite Hrun.
    unfold gen_one_input, bind. rewrite (seed_step_valid seed _ Hseed).
    apply nth_error_In in Hnth. rewrite Forall_forall in Hf.
    destruct (Hf rng Hnth) as (H1 & H2 & H3).
    destruct (gen_one_input_loop_total (fst rng) (snd rng) spec []
                (match seed with Some s => reseed s | None =>
                   snd (randint_below (Z.of_nat (List.length rngs)) (get_np_random w1)) end)
                (range_overflows_small _ _ H1 H2 H3) Hshapes) as (inp & g' & Hloop).
    rewrite Hloop. eexists. eexists. reflexivity.
Qed.

Lemma gen_one_input_for_model_bounded_witness :
  (forall inp w',
     gen_one_input_for_model example_files example_proto example_analyze
       (@infer_domain _ _ (beside_generator (pure_checker (interval_safe (1 # 2)))))
       tt None (0%nat, 5%Z) = (Ok inp, w') ->
     exists rng : Range,
       L <= fst rng /\ fst rng <= snd rng /\ snd rng <= R /\
       forall name arr, In (name, arr) inp ->
         exists sh, In (name, sh) float_spec /\ array_of (fst rng) (snd rng) sh arr) /\
  (never_raises (beside_generator (G := Z) (pure_checker (interval_safe (1 # 2)))) ->
   valid_shapes float_spec -> valid_seed None ->
   exists inp w',
     gen_one_input_for_model example_files example_proto example_analyze
       (@infer_domain _ _ (beside_generator (pure_checker (interval_safe (1 # 2)))))
       tt None (0%nat, 5%Z) = (Ok inp, w')).
Proof.
  apply (gen_one_input_for_model_bounded
           (beside_generator (pure_checker (interval_safe (1 # 2))))
           example_files example_proto example_analyze tt float_spec None (0%nat, 5%Z)).
  reflexivity.
Defined.

(** X20.  The entry point and the sampler.  When the entry point
    succeeds, the file the output path names holds exactly the result of
    [infer_domain] for the model, under every path that names that file,
    and the files other paths name are as before.  Sampling from the
    output path then behaves as sampling from the list of ranges found
    when there is one; when no range was found the file holds [None],
    which the sampler does not accept from a file: it raises
    [TypeError] instead of falling back to (0, 1). *)
Theorem main_then_sample {G Model W : Type} {RS : RandomState G}
    (C : NaNChecker Model W)
    (get_onnx_proto : string -> result Model)
    (analyze_onnx_io : Model -> result InputSpec)
    (args_model args_output_path : string) (w w' : W) (fs fs' : Files) :
  main (C := C) get_onnx_proto args_model args_output_path (w, fs) = (Ok tt, (w', fs')) ->
  exists model res,
    get_onnx_proto args_model = Ok model /\
    @infer_domain _ _ C model w = (Ok res, w') /\
    (forall p, realpath fs p = realpath fs args_output_path ->
       file_at fs' p = Some res) /\
    (forall p, realpath fs p <> realpath fs args_output_path ->
       file_at fs' p = file_at fs p) /\
    forall d seed (g : G),
      gen_one_input_rngs (file_at fs') get_onnx_proto analyze_onnx_io
        (SpecDict d) (RngsPath args_output_path) seed g
      = match res with
        | Some vr =>
            gen_one_input_rngs (file_at fs') get_onnx_proto analyze_onnx_io
              (SpecDict d) (RngsList vr) seed g
        | None => (Raise (TypeError "object of type 'NoneType' has no len()"), g)
        end.
Proof.
  unfold main.
  destruct (get_onnx_proto args_model) as [model | e] eqn:Hp; [| discriminate].
  destruct (@infer_domain _ _ C model w) as [[res | e] w1] eqn:Hinf; [| discriminate].
  destruct (unwritable fs (realpath fs args_output_path)); [discriminate |].
  intros H. inv_pair H. exists model, res.
  split; [first [reflexivity | assumption] |].
  split; [first [reflexivity | assumption] |].
  assert (Hsame : forall p, realpath fs p = realpath fs args_output_path ->
                    file_at (pickle_dump res args_output_path fs) p = Some res).
  { intros p E. unfold file_at, pickle_dump. simpl. rewrite E, String.eqb_refl. reflexivity. }
  split; [exact Hsame |]. split.
  - intros p Hne. unfold file_at, pickle_dump. simpl.
    destruct (String.eqb (realpath fs p) (realpath fs args_output_path)) eqn:E; [| reflexivity].
    apply String.eqb_eq in E. contradiction.
  - intros d seed g. unfold gen_one_input_rngs, bind, pickle_load.
    rewrite (Hsame args_output_path eq_refl).
    destruct res; reflexivity.
Qed.

Lemma main_then_sample_witness :
  exists model res,
    example_proto "model.onnx" = Ok model /\
    @infer_domain _ _ (pure_checker (fun _ _ => false)) model 0%nat = (Ok res, 11%nat) /\
    (forall p, realpath example_fs p = realpath example_fs default_output_path ->
       file_at (pickle_dump None default_output_path example_fs) p = Some res) /\
    (forall p, realpath example_fs p <> realpath example_fs default_output_path ->
       file_at (pickle_dump None default_output_path example_fs) p = file_at example_fs p) /\
    forall d seed (g : Z),
      gen_one_input_rngs (file_at (pickle_dump None default_output_path example_fs))
        example_proto example_analyze (SpecDict d) (RngsPath default_output_path) seed g
      = match res with
        | Some vr =>
            gen_one_input_rngs (file_at (pickle_dump None default_output_path example_fs))
              example_proto example_analyze (SpecDict d) (RngsList vr) seed g
        | None => (Raise (TypeError "object of type 'NoneType' has no len()"), g)
        end.
Proof.
  apply (main_then_sample (G := Z) (pure_checker (fun _ _ => false))
           example_proto example_analyze "model.onnx" default_output_path
           0%nat 11%nat example_fs (pickle_dump None default_output_path example_fs)).
  vm_compute. reflexivity.
Defined.

(* ===================================================================== *)
(** ** [gen_one_input_for_model] with the other generators                *)
(* ===================================================================== *)

(** X21.  [gen_one_input_for_model] analyses the model before it asks the
    generator for a domain: when the analysis raises, the exception
    propagates and the generator is never run, whichever it is.  With
    the base class the call raises [NotImplementedError] once the
    analysis has succeeded.  With [InputGenV1] no checker is involved:
    every mapping returned is sampled from (0, 1), and one is returned
    whenever no shape has a negative dimension and the seed is one numpy
    accepts. *)
Theorem gen_one_input_for_model_other_generators {G Model W : Type}
    {RS : RandomState G} {NR : HasNumpyRandom W G}
    (pickle_file : string -> option (option (list Range)))
    (get_onnx_proto : string -> result Model)
    (analyze_onnx_io : Model -> result InputSpec)
    (model : Model) (seed : option Z) (w : W) :
  (forall e input_gen_infer_domain,
     analyze_onnx_io model = Raise e ->
     gen_one_input_for_model pickle_file get_onnx_proto analyze_onnx_io
       input_gen_infer_domain model seed w = (Raise e, w)) /\
  (forall spec,
     analyze_onnx_io model = Ok spec ->
     gen_one_input_for_model pickle_file get_onnx_proto analyze_onnx_io
       InputGenBase_infer_domain model seed w = (Raise NotImplementedError, w) /\
     (forall inp w',
        gen_one_input_for_model pickle_file get_onnx_proto analyze_onnx_io
          InputGenV1.infer_domain model seed w = (Ok inp, w') ->
        forall name arr, In (name, arr) inp ->
          exists sh, In (name, sh) spec /\ array_of 0 1 sh arr) /\
     (valid_shapes spec -> valid_seed seed ->
      exists inp w',
        gen_one_input_for_model pickle_file get_onnx_proto analyze_onnx_io
          InputGenV1.infer_domain model seed w = (Ok inp, w'))).
Proof.
  split.
  - intros e gen Han. unfold gen_one_input_for_model, bind, lift.
    rewrite Han. reflexivity.
  - intros spec Han.
    assert (Hne : [(0, 1) : Range] <> []) by discriminate.
    split; [| split].
    + unfold gen_one_input_for_model, bind, lift, InputGenBase_infer_domain, raise.
      rewrite Han. reflexivity.
    + intros inp w'.
      unfold gen_one_input_for_model, bind, lift, InputGenV1.infer_domain, ret.
      rewrite Han. unfold on_np_random, rngs_of.
      destruct (gen_one_input_rngs_list pickle_file get_onnx_proto analyze_onnx_io
                  spec [(0, 1)] seed (get_np_random w) Hne) as (rng & Hnth & Hrun).
      rewrite Hrun.
      destruct (gen_one_input spec (fst rng) (snd rng) seed _) as [[inp0 | e] g'] eqn:Hgen;
        [| discriminate].
      intros H. injection H as H1 H2. subst inp0.
      apply nth_error_In in Hnth. destruct Hnth as [Hr | []]. subst rng.
      intros name arr Hin. simpl in Hgen.
      assert (H01 : 0 <= 1) by discriminate.
      destruct (gen_one_input_sound spec 0 1 seed _ g' inp H01 Hgen
                  name arr Hin) as (sh & Hsh & Harr).
      exists sh. split; [exact Hsh |].
      apply array_from_of; [exact Harr |].
      destruct sh.(dtype); simpl; try exact I. split; reflexivity.
    + intros Hshapes Hseed.
      unfold gen_one_input_for_model, bind, lift, InputGenV1.infer_domain, ret.
      rewrite Han. unfold on_np_random, rngs_of.
      destruct (gen_one_input_rngs_list pickle_file get_onnx_proto analyze_onnx_io
                  spec [(0, 1)] seed (get_np_random w) Hne) as (rng & Hnth & Hrun).
      rewrite Hrun.
      unfold gen_one_input, bind. rewrite (seed_step_valid seed _ Hseed).
      apply nth_error_In in Hnth. destruct Hnth as [Hr | []]. subst rng.
      match goal with
      | |- context [gen_one_input_loop spec ?l ?r [] ?g0] =>
          destruct (gen_one_input_loop_total l r spec [] g0 eq_refl Hshapes)
            as (inp & g' & Hloop)
      end.
      rewrite Hloop. eexists. eexists. reflexivity.
Qed.
